(** * PyNCband: eigen-energy solver of core-shell nanocrystals

    A shallow embedding of [PyNCband/physicsfunctions.py] and
    [PyNCband/CoreShellParticle.py] in exact real arithmetic: a Python
    [float] is a real number, a [complex] a pair of reals, a numpy array
    a list together with its dtype.  Exceptions are values of [result].

    Rounding is not modelled: an equality between values holds in the
    program up to rounding.  Where a rounding could change a branch or
    be amplified (a radius compared with [core_width / n_], the
    difference [core_width + shell_width - x] under a sine), statements
    are made on the quantity as the code computes it and do not cancel
    an operation against its inverse. *)

From Stdlib Require Import Reals Lra Lia List Bool Arith.
Import ListNotations.
Open Scope R_scope.

(** ** Physical constants ([scipy.constants], CODATA 2018) *)

Definition hbar : R := 1.054571817e-34.
Definition e : R := 1.602176634e-19.
Definition m_e : R := 9.1093837015e-31.
Definition eps0 : R := 8.8541878128e-12.

(** [n_ = 1e-9], the nanometre, defined at the top of both source files. *)
Definition n_ : R := 1e-9.

(** ** Exceptions *)

(** The Python exceptions the modelled code can raise, and
    [NoBoundStateFound], the error kind the specification names; no
    statement of the source raises the latter. *)
Inductive exn : Type :=
  | IndexError
  | TypeError
  | ValueError
  | ZeroDivisionError
  | NoBoundStateFound.

Inductive result (A : Type) : Type :=
  | Ok (a : A)
  | Raise (x : exn).
Arguments Ok {A} a.
Arguments Raise {A} x.

Definition rbind {A B} (r : result A) (k : A -> result B) : result B :=
  match r with
  | Ok a => k a
  | Raise x => Raise x
  end.

Declare Scope result_scope.
Delimit Scope result_scope with result.
Notation "x <- r ;; k" := (rbind r (fun x => k))
  (at level 61, r at next level, right associativity) : result_scope.
Notation "' pat <- r ;; k" := (rbind r (fun x => match x with pat => k end))
  (at level 61, pat pattern, r at next level, right associativity) : result_scope.

(** ** Complex numbers *)

Record C : Type := mkC { Re : R; Im : R }.

Definition RtoC (x : R) : C := mkC x 0.
Definition Cadd (z w : C) : C := mkC (Re z + Re w) (Im z + Im w).
Definition Csub (z w : C) : C := mkC (Re z - Re w) (Im z - Im w).
Definition Cmul (z w : C) : C :=
  mkC (Re z * Re w - Im z * Im w) (Re z * Im w + Im z * Re w).
Definition Cdiv (z w : C) : C :=
  let d := Re w * Re w + Im w * Im w in
  mkC ((Re z * Re w + Im z * Im w) / d) ((Im z * Re w - Re z * Im w) / d).
Definition Cabs (z : C) : R := sqrt (Re z * Re z + Im z * Im z).
Definition Csin (z : C) : C :=
  mkC (sin (Re z) * cosh (Im z)) (cos (Re z) * sinh (Im z)).
Definition Ccos (z : C) : C :=
  mkC (cos (Re z) * cosh (Im z)) (- (sin (Re z) * sinh (Im z))).
Definition Ctan (z : C) : C := Cdiv (Csin z) (Ccos z).

(** Principal square root of a real seen as a complex number: the real
    part of the result is never negative. *)
Definition Csqrt_real (x : R) : C :=
  if Rlt_dec x 0 then mkC 0 (sqrt (- x)) else mkC (sqrt x) 0.

(** ** Scalars: [floatcomplex = Union[float, complex]]

    The jitted scalar kernels are compiled for both [float64] and
    [complex128]; [Number] is the interface they use. *)

Class Number (T : Type) : Type := {
  of_float : R -> T;
  nadd : T -> T -> T;
  nsub : T -> T -> T;
  nmul : T -> T -> T;
  ndiv : T -> T -> T;
  nabs : T -> R;
  ntan : T -> T;
  real : T -> R
}.

#[global] Instance float_Number : Number R := {
  of_float := fun x => x;
  nadd := Rplus;
  nsub := Rminus;
  nmul := Rmult;
  ndiv := Rdiv;
  nabs := Rabs;
  ntan := tan;
  real := fun x => x
}.

#[global] Instance complex_Number : Number C := {
  of_float := RtoC;
  nadd := Cadd;
  nsub := Csub;
  nmul := Cmul;
  ndiv := Cdiv;
  nabs := Cabs;
  ntan := Ctan;
  real := Re
}.

(** ** numpy arrays: a list of elements of one dtype *)

Inductive ndarray : Type :=
  | float64 (a : list R)
  | complex128 (a : list C).

Definition size (a : ndarray) : nat :=
  match a with
  | float64 l => length l
  | complex128 l => length l
  end.

Definition astype_complex (a : ndarray) : list C :=
  match a with
  | float64 l => map RtoC l
  | complex128 l => l
  end.

(** Elementwise application of a kernel available at both dtypes. *)
Definition nd_map (f : forall T, Number T -> T -> T) (a : ndarray) : ndarray :=
  match a with
  | float64 l => float64 (map (f R _) l)
  | complex128 l => complex128 (map (f C _) l)
  end.

Fixpoint zip_with {A B D} (f : A -> B -> D) (l : list A) (l' : list B) : list D :=
  match l, l' with
  | a :: t, b :: t' => f a b :: zip_with f t t'
  | _, _ => []
  end.

(** Elementwise binary operation; a [float64] operand is promoted when
    the other one is [complex128]. *)
Definition nd_map2 (f : forall T, Number T -> T -> T -> T) (a b : ndarray) : ndarray :=
  match a, b with
  | float64 l, float64 l' => float64 (zip_with (f R _) l l')
  | _, _ => complex128 (zip_with (f C _) (astype_complex a) (astype_complex b))
  end.

(** [np.real] *)
Definition np_real (a : ndarray) : list R :=
  match a with
  | float64 l => l
  | complex128 l => map Re l
  end.

(** [numpy.lib.scimath.sqrt]: the whole array becomes complex as soon as
    one element is negative. *)
Definition csqrt (a : list R) : ndarray :=
  if existsb (fun x => if Rlt_dec x 0 then true else false) a
  then complex128 (map Csqrt_real a)
  else float64 (map sqrt a).

(** ** physicsfunctions.py *)

Definition _heaviside (x1 x2 : R) : R :=
  if Rlt_dec 0 x1 then 1
  else if Req_dec_T x1 0 then x2
  else 0.

Definition _tanxdivx {T} `{Number T} (x : T) : T :=
  let xsq := nmul x x in
  if Rlt_dec (nabs x) 1e-13
  then nsub (of_float 1) (ndiv xsq (of_float 2))
  else ndiv (ntan x) x.

(** [tanxdivx = np.vectorize(_tanxdivx)]: without [otypes], [np.vectorize]
    refuses an input of size 0. *)
Definition tanxdivx (x : ndarray) : result ndarray :=
  match size x with
  | O => Raise ValueError
  | S _ => Ok (nd_map (@_tanxdivx) x)
  end.

Definition wavenumber_from_energy (energy : list R) (mass : R)
    (potential_offset : R) : ndarray :=
  nd_map (fun T _ k => ndiv k (of_float hbar))
    (csqrt (map (fun E => 2 * mass * m_e * (E - potential_offset)) energy)).

(** Comparison of two floats as a Python [bool]. *)
Definition float_lt (x y : R) : bool := if Rlt_dec x y then true else false.
Definition float_gt (x y : R) : bool := float_lt y x.

(** Python [float / float] raises on a zero divisor. *)
Definition float_div (x y : R) : result R :=
  if Req_dec_T y 0 then Raise ZeroDivisionError else Ok (x / y).

(** ** Material.py *)

(** Modelled from the spec: [Material.py] is not among the sources; a
    material is the immutable record of band edges, effective-mass
    ratios and dielectric constant, under the attribute names the code
    reads ([cbe], [vbe], [m_e], [m_h], [eps]). *)
Module Material.
Record t : Type := mk {
  cbe : R;
  vbe : R;
  m_e : R;
  m_h : R;
  eps : R
}.
End Material.

(** ** The state of a CoreShellParticle object *)

Record CoreShellParticle : Type := mkParticle {
  cmat : Material.t;
  smat : Material.t;
  core_width : R;
  shell_width : R;
  radius : R;
  type_one : bool;
  type_two : bool;
  h_e : bool;
  e_h : bool;
  energies_valid : bool;
  s1_e : option R;
  s1_h : option R;
  ue : R;
  uh : R
}.

(** ** Eigenvalue residuals (physicsfunctions.py) *)

Open Scope result_scope.

(** [k * width] for a wavevector that may still be [None]. *)
Definition times_width (k : option ndarray) (width : R) : result ndarray :=
  match k with
  | None => Raise TypeError
  | Some a => Ok (nd_map (fun T _ z => nmul z (of_float width)) a)
  end.

(** The inner function [_residual] of both residual functions.  The
    divisions are numpy's, which do not raise: for [shell_width = 0]
    numpy yields an infinity or a nan where this model yields a number,
    so the values below are those of the code for a shell of non-zero
    width. *)
Definition _residual (core_x shell_x : ndarray) (core_width shell_width : R)
    (mass_ratio : R) : result (list R) :=
  tc <- tanxdivx core_x ;;
  ts <- tanxdivx shell_x ;;
  Ok (np_real
        (nd_map2 (fun T _ => nsub)
           (nd_map (fun T _ t =>
                      nsub (nmul (nsub (of_float 1) (ndiv (of_float 1) t))
                                 (of_float mass_ratio))
                           (of_float 1)) tc)
           (nd_map (fun T _ t =>
                      ndiv (nmul (ndiv (of_float 1) t) (of_float core_width))
                           (of_float shell_width)) ts))).

(** Lines 194-204: the wavevectors [k_e], [q_e] of the electron. *)
Definition electron_wavevectors (energy : list R) (particle : CoreShellParticle)
    : option ndarray * option ndarray :=
  if e_h particle then
    (Some (wavenumber_from_energy energy (Material.m_e (cmat particle)) 0),
     Some (wavenumber_from_energy energy (Material.m_e (smat particle)) (ue particle)))
  else if h_e particle then
    (Some (wavenumber_from_energy energy (Material.m_e (cmat particle)) (ue particle)),
     Some (wavenumber_from_energy energy (Material.m_e (smat particle)) 0))
  else (None, None).

Definition electron_eigenvalue_residual (energy : list R)
    (particle : CoreShellParticle) : result (list R) :=
  let '(k_e, q_e) := electron_wavevectors energy particle in
  core_x <- times_width k_e (core_width particle) ;;
  shell_x <- times_width q_e (shell_width particle) ;;
  mass_ratio <- float_div (Material.m_e (smat particle)) (Material.m_e (cmat particle)) ;;
  _residual core_x shell_x (core_width particle) (shell_width particle) mass_ratio.

(** Lines 247-257: the wavevectors [k_h], [q_h] of the hole. *)
Definition hole_wavevectors (energy : list R) (particle : CoreShellParticle)
    : option ndarray * option ndarray :=
  if e_h particle then
    (Some (wavenumber_from_energy energy (Material.m_e (cmat particle)) 0),
     Some (wavenumber_from_energy energy (Material.m_e (smat particle)) (ue particle)))
  else if h_e particle then
    (Some (wavenumber_from_energy energy (Material.m_e (cmat particle)) (ue particle)),
     Some (wavenumber_from_energy energy (Material.m_e (smat particle)) 0))
  else (None, None).

Definition hole_eigenvalue_residual (energy : list R)
    (particle : CoreShellParticle) : result (list R) :=
  let '(k_h, q_h) := hole_wavevectors energy particle in
  core_x <- times_width k_h (core_width particle) ;;
  shell_x <- times_width q_h (shell_width particle) ;;
  mass_ratio <- float_div (Material.m_h (smat particle)) (Material.m_h (cmat particle)) ;;
  _residual core_x shell_x (core_width particle) (shell_width particle) mass_ratio.

(** ** Coulomb screening operator (physicsfunctions.py) *)

(** The closure returned by [make_coulomb_screening_operator]; it is
    compiled with numba, whose float division raises on a zero divisor. *)
Definition make_coulomb_screening_operator (coreshellparticle : CoreShellParticle)
    : R -> R -> result R :=
  let core_width := core_width coreshellparticle / n_ in
  let core_eps := Material.eps (cmat coreshellparticle) in
  let shell_eps := Material.eps (smat coreshellparticle) in
  fun r_a r_b =>
    let rmax := Rmax r_a r_b in
    let r_c := core_width in
    let taz := 0.5 in
    inside <- float_div (- _heaviside (r_c - r_a) taz * _heaviside (r_c - r_b) taz)
                        (rmax * core_eps * eps0) ;;
    outside <- float_div (_heaviside (r_a - r_c) taz + _heaviside (r_b - r_c) taz)
                         (2 * rmax * shell_eps * eps0) ;;
    let val := inside - outside in
    Ok (val * e / n_).

(** ** Bracket scan (physicsfunctions.py) *)

(** [np.linspace(start, stop, num)], end point included. *)
Definition linspace (start stop : R) (num : nat) : list R :=
  match num with
  | O => []
  | S O => [start]
  | S div => map (fun i => start + INR i * ((stop - start) / INR div)) (seq 0 num)
  end.

Definition np_sign (y : R) : R :=
  if Rlt_dec y 0 then -1 else if Rlt_dec 0 y then 1 else 0.

(** [np.diff]: the array of consecutive differences, one element shorter. *)
Fixpoint np_diff (a : list R) : list R :=
  match a with
  | x :: (x' :: _) as t => (x' - x) :: np_diff t
  | _ => []
  end.

(** [np.where(a > threshold, 1, 0)] *)
Definition where_gt (threshold : R) (a : list R) : list nat :=
  map (fun d => if Rlt_dec threshold d then 1%nat else 0%nat) a.

(** [np.argwhere]: the indices of the non-zero entries, in order. *)
Fixpoint argwhere_from (i : nat) (a : list nat) : list nat :=
  match a with
  | [] => []
  | v :: t => if Nat.eqb v 0 then argwhere_from (S i) t
              else i :: argwhere_from (S i) t
  end.
Definition argwhere (a : list nat) : list nat := argwhere_from 0 a.

(** Indexing, [a[i]], out of range raises. *)
Definition getitem {A} (a : list A) (i : nat) : result A :=
  match nth_error a i with
  | Some v => Ok v
  | None => Raise IndexError
  end.

Definition scan_and_bracket (f : list R -> result (list R))
    (lower_bound upper_bound : R) (resolution : nat) : result (R * R) :=
  let x := linspace lower_bound upper_bound resolution in
  y <- f x ;;
  let y_signs := map np_sign y in
  let y_sign_change := np_diff y_signs in
  let y_neg2pos_change := argwhere (where_gt 0.5 y_sign_change) in
  root_position <- getitem y_neg2pos_change 0 ;;
  lo <- getitem x root_position ;;
  hi <- getitem x (root_position + 1) ;;
  Ok (lo, hi).

(** ** CoreShellParticle.py *)

Definition _is_type_one (cmat smat : Material.t) : bool :=
  float_gt (Material.vbe cmat) (Material.vbe smat)
  && float_lt (Material.cbe cmat) (Material.cbe smat).

(** Returns [(core_higher or shell_higher, core_higher, shell_higher)]. *)
Definition _is_type_two (cmat smat : Material.t) : bool * bool * bool :=
  let core_higher :=
    float_gt (Material.vbe cmat) (Material.vbe smat)
    && float_gt (Material.cbe cmat) (Material.cbe smat) in
  let shell_higher :=
    float_lt (Material.vbe cmat) (Material.vbe smat)
    && float_lt (Material.cbe cmat) (Material.cbe smat) in
  (core_higher || shell_higher, core_higher, shell_higher).

Definition __init__ (core_material shell_material : Material.t)
    (core_width shell_width : R) : CoreShellParticle :=
  let '(type_two, h_e, e_h) := _is_type_two core_material shell_material in
  {| cmat := core_material;
     smat := shell_material;
     core_width := core_width * n_;
     shell_width := shell_width * n_;
     radius := (core_width + shell_width) * n_;
     type_one := _is_type_one core_material shell_material;
     type_two := type_two;
     h_e := h_e;
     e_h := e_h;
     energies_valid := false;
     s1_e := None;
     s1_h := None;
     ue := Rabs (Material.cbe core_material - Material.cbe shell_material) * e;
     uh := Rabs (Material.vbe core_material - Material.vbe shell_material) * e |}.

(** Attribute assignments [self.attr = v]. *)
Definition with_core_width (v : R) (self : CoreShellParticle) : CoreShellParticle :=
  mkParticle (cmat self) (smat self) v (shell_width self) (radius self)
    (type_one self) (type_two self) (h_e self) (e_h self)
    (energies_valid self) (s1_e self) (s1_h self) (ue self) (uh self).
Definition with_shell_width (v : R) (self : CoreShellParticle) : CoreShellParticle :=
  mkParticle (cmat self) (smat self) (core_width self) v (radius self)
    (type_one self) (type_two self) (h_e self) (e_h self)
    (energies_valid self) (s1_e self) (s1_h self) (ue self) (uh self).
Definition with_energies_valid (v : bool) (self : CoreShellParticle) : CoreShellParticle :=
  mkParticle (cmat self) (smat self) (core_width self) (shell_width self) (radius self)
    (type_one self) (type_two self) (h_e self) (e_h self)
    v (s1_e self) (s1_h self) (ue self) (uh self).
Definition with_s1_e (v : option R) (self : CoreShellParticle) : CoreShellParticle :=
  mkParticle (cmat self) (smat self) (core_width self) (shell_width self) (radius self)
    (type_one self) (type_two self) (h_e self) (e_h self)
    (energies_valid self) v (s1_h self) (ue self) (uh self).
Definition with_s1_h (v : option R) (self : CoreShellParticle) : CoreShellParticle :=
  mkParticle (cmat self) (smat self) (core_width self) (shell_width self) (radius self)
    (type_one self) (type_two self) (h_e self) (e_h self)
    (energies_valid self) (s1_e self) v (ue self) (uh self).

Definition set_core_width (x : R) (self : CoreShellParticle) : CoreShellParticle :=
  with_energies_valid false (with_core_width (x * n_) self).

Definition set_shell_width (x : R) (self : CoreShellParticle) : CoreShellParticle :=
  with_energies_valid false (with_shell_width (x * n_) self).

(** *** Methods that mutate [self] and may raise

    A method runs on a heap holding the object and a counter of the calls
    made to [scan_and_bracket]; an exception leaves the mutations done so
    far in place. *)

Record heap : Type := mkHeap {
  self_ : CoreShellParticle;
  scan_calls : nat
}.

Definition method (A : Type) : Type := heap -> result A * heap.

Definition mret {A} (a : A) : method A := fun h => (Ok a, h).
Definition mbind {A B} (m : method A) (k : A -> method B) : method B :=
  fun h => match m h with
           | (Ok a, h') => k a h'
           | (Raise x, h') => (Raise x, h')
           end.
Definition lift {A} (r : result A) : method A := fun h => (r, h).
Definition get_self : method CoreShellParticle := fun h => (Ok (self_ h), h).
Definition assign (f : CoreShellParticle -> CoreShellParticle) : method unit :=
  fun h => (Ok tt, mkHeap (f (self_ h)) (scan_calls h)).
Definition count_scan : method unit :=
  fun h => (Ok tt, mkHeap (self_ h) (S (scan_calls h))).

Declare Scope method_scope.
Delimit Scope method_scope with method.
Notation "x <~ m ;; k" := (mbind m (fun x => k))
  (at level 61, m at next level, right associativity) : method_scope.
Notation "m ;;; k" := (mbind m (fun _ => k))
  (at level 61, right associativity) : method_scope.

(** A residual called on a single energy, as the root finder does. *)
Definition at_scalar (f : list R -> result (list R)) (x : R) : result R :=
  y <- f [x] ;;
  match y with
  | [v] => Ok v
  | _ => Raise TypeError
  end.

Section RootFinder.

(** [scipy.optimize.brentq] is a library routine.  Its entry is modelled:
    both ends are evaluated, an end that is a root is returned, and ends
    of the same sign are refused with [ValueError]; the iteration that
    follows is the parameter [brentq_iterate]. *)
Variable brentq_iterate : (R -> result R) -> R -> R -> result R.

Definition brentq (f : R -> result R) (a b : R) : result R :=
  fa <- f a ;;
  fb <- f b ;;
  if Req_dec_T fa 0 then Ok a
  else if Req_dec_T fb 0 then Ok b
  else if Rlt_dec 0 (fa * fb) then Raise ValueError
  else brentq_iterate f a b.

Open Scope method_scope.

(** [bounds] is the empty tuple or the four search limits (electron
    lower and upper, hole lower and upper). *)
Definition calculate_s1_energies (bounds : option (R * R * R * R))
    (resolution : nat) (as_ev : bool) : method (option R * option R) :=
  self <~ get_self ;;
  if energies_valid self then
    mret (s1_e self, s1_h self)
  else
    let lower_bound_e := 0 in
    let upper_bound_e := 5 * ue self in
    let lower_bound_h := 0 in
    let upper_bound_h := 5 * uh self in
    let x := linspace lower_bound_e upper_bound_e resolution in
    let '(lower_bound_e, upper_bound_e) :=
      match bounds with
      | None => (lower_bound_e, upper_bound_e)
      | Some (a, b, _, _) => (a, b)
      end in
    let eer := fun x => electron_eigenvalue_residual x self in
    count_scan ;;;
    bracket <~ lift (scan_and_bracket eer lower_bound_e upper_bound_e resolution) ;;
    root_e <~ lift (brentq (at_scalar (fun x => electron_eigenvalue_residual x self))
                           (fst bracket) (snd bracket)) ;;
    assign (with_s1_e (Some root_e)) ;;;
    let '(lower_bound_h, upper_bound_h) :=
      match bounds with
      | None => (lower_bound_h, upper_bound_h)
      | Some (_, _, a, b) => (a, b)
      end in
    self <~ get_self ;;
    let her := fun x => hole_eigenvalue_residual x self in
    count_scan ;;;
    bracket <~ lift (scan_and_bracket her lower_bound_h upper_bound_h resolution) ;;
    root_h <~ lift (brentq (at_scalar (fun x => hole_eigenvalue_residual x self))
                           (fst bracket) (snd bracket)) ;;
    assign (with_s1_h (Some root_h)) ;;;
    assign (with_energies_valid true) ;;;
    self <~ get_self ;;
    if as_ev then
      mret (option_map (fun v => v / e) (s1_e self),
            option_map (fun v => v / e) (s1_h self))
    else
      mret (s1_e self, s1_h self).

(** [wavenumber_from_energy] at one energy, which is [None] when no
    energy was ever stored. *)
Definition wavenumber_at (energy : option R) (mass potential_offset : R)
    : result ndarray :=
  match energy with
  | None => Raise TypeError
  | Some E => Ok (wavenumber_from_energy [E] mass potential_offset)
  end.

(** Returns the four wavevectors (electron core, electron shell, hole
    core, hole shell), or [None] when neither ordering flag is set. *)
Definition calculate_wavenumbers : method (option (list ndarray)) :=
  energies <~ calculate_s1_energies None 1000 true ;;
  let '(energy_e, energy_h) := energies in
  self <~ get_self ;;
  if e_h self then
    k_e <~ lift (wavenumber_at energy_e (Material.m_e (cmat self)) 0) ;;
    q_e <~ lift (wavenumber_at energy_e (Material.m_e (smat self)) (ue self)) ;;
    k_h <~ lift (wavenumber_at energy_h (Material.m_h (cmat self)) (uh self)) ;;
    q_h <~ lift (wavenumber_at energy_h (Material.m_h (smat self)) 0) ;;
    mret (Some [k_e; q_e; k_h; q_h])
  else if h_e self then
    k_e <~ lift (wavenumber_at energy_e (Material.m_e (cmat self)) (ue self)) ;;
    q_e <~ lift (wavenumber_at energy_e (Material.m_e (smat self)) 0) ;;
    k_h <~ lift (wavenumber_at energy_h (Material.m_h (cmat self)) 0) ;;
    q_h <~ lift (wavenumber_at energy_h (Material.m_h (smat self)) (uh self)) ;;
    mret (Some [k_e; q_e; k_h; q_h])
  else mret None.

(** *** Histories of an object

    The calls a client can make on a particle, and the objects reachable
    from a freshly constructed one. *)
Inductive reachable (p0 : CoreShellParticle) : CoreShellParticle -> Prop :=
  | reach_init : reachable p0 p0
  | reach_set_core_width x p :
      reachable p0 p -> reachable p0 (set_core_width x p)
  | reach_set_shell_width x p :
      reachable p0 p -> reachable p0 (set_shell_width x p)
  | reach_calculate_s1_energies bounds resolution as_ev p n :
      reachable p0 p ->
      reachable p0
        (self_ (snd (calculate_s1_energies bounds resolution as_ev (mkHeap p n)))).

End RootFinder.

(** ** More of physicsfunctions.py *)

(** The closure returned by [make_interface_polarization_operator],
    compiled with numba like the Coulomb operator. *)
Definition make_interface_polarization_operator
    (coreshellparticle : CoreShellParticle) : R -> R -> result R :=
  let core_width := core_width coreshellparticle / n_ in
  let core_eps := Material.eps (cmat coreshellparticle) in
  let shell_eps := Material.eps (smat coreshellparticle) in
  let particle_radius := radius coreshellparticle / n_ in
  fun r_a r_b =>
    let r_c := core_width in
    let r_p := particle_radius in
    let taz := 0.5 in
    ratio <- float_div core_eps shell_eps ;;
    inside <- float_div (- _heaviside (r_c - r_a) taz * _heaviside (r_c - r_b) taz
                         * (ratio - 1))
                        (r_c * core_eps) ;;
    surface <- float_div (shell_eps - 1) (2 * r_p * shell_eps) ;;
    let val := inside - surface in
    Ok (val * e / (n_ * eps0)).

(** [_x_residual_function], compiled for floats. *)
Definition _x_residual_function (x mass_in_core mass_in_shell : R) : result R :=
  m <- float_div mass_in_shell mass_in_core ;;
  let xsq := x * x in
  if Rlt_dec (Rabs x) 1e-13 then Ok (m - xsq / 3)
  else (t <- float_div 1 (_tanxdivx x) ;; Ok (t + m - 1)).

Definition float_le (x y : R) : bool := if Rle_dec x y then true else false.

(** What the wavefunction kernels need beyond [Number]: the sine, and
    the test for a zero divisor, on which numba raises. *)
Class Trig (T : Type) `{Number T} : Type := {
  nsin : T -> T;
  nzero : T -> bool
}.

#[global] Instance float_Trig : Trig R := {
  nsin := sin;
  nzero := fun x => if Req_dec_T x 0 then true else false
}.

#[global] Instance complex_Trig : Trig C := {
  nsin := Csin;
  nzero := fun z => if Req_dec_T (Re z) 0
                    then if Req_dec_T (Im z) 0 then true else false
                    else false
}.

Definition checked_div {T} `{Trig T} (a b : T) : result T :=
  if nzero b then Raise ZeroDivisionError else Ok (ndiv a b).

(** The radial wavefunction kernels.  numba compiles them for the types
    of their arguments; the wavevectors [k] and [q] the class passes are
    elements of one array, hence of one type [T]. *)
Definition _unnormalized_core_wavefunction {T} `{Trig T}
    (x : R) (k : T) (core_width : R) : result T :=
  let ksq := nmul k k in
  let xsq := x * x in
  let denom := nsin (nmul (of_float core_width) k) in
  if Rlt_dec (Rabs x) 1e-8 then
    inv <- checked_div (of_float 1) denom ;;
    Ok (nmul inv
          (nadd (nsub k (ndiv (nmul (nmul k ksq) (of_float xsq)) (of_float 6)))
                (ndiv (nmul (nmul k (nmul ksq ksq)) (of_float (xsq * xsq)))
                      (of_float 120))))
  else
    checked_div (nsin (nmul k (of_float x))) (nmul (of_float x) denom).

Definition _unnormalized_shell_wavefunction {T} `{Trig T}
    (x : R) (q : T) (core_width shell_width : R) : result T :=
  checked_div (nsin (nmul q (of_float (core_width + shell_width - x))))
              (nmul (of_float x) (nsin (nmul q (of_float shell_width)))).

Definition _wavefunction {T} `{Trig T}
    (x : R) (k q : T) (core_width shell_width : R) : result T :=
  let cwf := fun xarg => _unnormalized_core_wavefunction xarg k core_width in
  let swf := fun xarg =>
    _unnormalized_shell_wavefunction xarg q core_width shell_width in
  let particle_width := core_width + shell_width in
  if float_le 0 x && float_lt x core_width then cwf x
  else if float_le core_width x && float_lt x particle_width then swf x
  else Ok (of_float 0).

Definition _densityfunction {T} `{Trig T}
    (r : R) (k q : T) (core_width shell_width : R) : result R :=
  w <- _wavefunction r k q core_width shell_width ;;
  Ok (nabs w * nabs w).

(** ** Definitions used to state the properties *)

(** The half-at-zero step function of the specification. *)
Definition step (x : R) : R :=
  if Rlt_dec x 0 then 0 else if Rlt_dec 0 x then 1 else 1 / 2.

(** The operator as the specification writes it: no vacuum permittivity. *)
Definition coulomb_screening_stated (core core_eps shell_eps r_a r_b : R) : R :=
  (- step (core - r_a) * step (core - r_b) / (Rmax r_a r_b * core_eps)
   - (step (r_a - core) + step (r_b - core)) / (2 * Rmax r_a r_b * shell_eps))
  * e / n_.

(** The operator with both denominators multiplied by [eps0]. *)
Definition coulomb_screening_amended (core core_eps shell_eps r_a r_b : R) : R :=
  (- step (core - r_a) * step (core - r_b) / (Rmax r_a r_b * core_eps * eps0)
   - (step (r_a - core) + step (r_b - core)) / (2 * Rmax r_a r_b * shell_eps * eps0))
  * e / n_.

(** The test of the scan on two consecutive samples: [np.sign] steps up
    by more than 0.5. *)
Definition rising (a b : R) : Prop := 0.5 < np_sign b - np_sign a.

(** Samples [i] and [i + 1] of [y] exist and the sign steps up there. *)
Definition neg2pos_at (y : list R) (i : nat) : Prop :=
  exists a b, nth_error y i = Some a /\ nth_error y (S i) = Some b /\ rising a b.

(** The transition as the specification words it: a negative sample
    followed by a positive one. *)
Definition strictly_neg2pos_at (y : list R) (i : nat) : Prop :=
  exists a b, nth_error y i = Some a /\ nth_error y (S i) = Some b /\ a < 0 < b.

(** The first position at which the sign steps up. *)
Fixpoint first_neg2pos (y : list R) : option nat :=
  match y with
  | a :: (b :: _) as t =>
      if Rlt_dec 0.5 (np_sign b - np_sign a) then Some O
      else option_map S (first_neg2pos t)
  | _ => None
  end.

(** The [i]-th of [num] equally spaced points from [start] to [stop]. *)
Definition sample (start stop : R) (num i : nat) : R :=
  start + INR i * ((stop - start) / INR (num - 1)).

(** The search limits of the electron and of the hole. *)
Definition limits_e (bounds : option (R * R * R * R)) (self : CoreShellParticle)
    : R * R :=
  match bounds with
  | None => (0, 5 * ue self)
  | Some (a, b, _, _) => (a, b)
  end.

Definition limits_h (bounds : option (R * R * R * R)) (self : CoreShellParticle)
    : R * R :=
  match bounds with
  | None => (0, 5 * uh self)
  | Some (_, _, a, b) => (a, b)
  end.

(** The values returned in the unit asked for. *)
Definition in_unit (as_ev : bool) (v : R) : R := if as_ev then v / e else v.

(** The residual of both eigenvalue equations on real values [tc], [ts]
    of the two ratios tan(x)/x. *)
Definition residual_value (tc ts cw sw mr : R) : R :=
  (1 - 1 / tc) * mr - 1 - 1 / ts * cw / sw.

(** The opposite of a complex number, [-z]. *)
Definition Copp (z : C) : C := Csub (RtoC 0) z.

(** The fields an energy query never assigns. *)
Definition same_frame (p p' : CoreShellParticle) : Prop :=
  cmat p' = cmat p /\ smat p' = smat p
  /\ core_width p' = core_width p /\ shell_width p' = shell_width p
  /\ radius p' = radius p
  /\ type_one p' = type_one p /\ type_two p' = type_two p
  /\ h_e p' = h_e p /\ e_h p' = e_h p
  /\ ue p' = ue p /\ uh p' = uh p.

(** A wavevector times a width at one energy, as a complex number. *)
Definition wavevector_c (E mass potential_offset width : R) : C :=
  Cmul (Cdiv (Csqrt_real (2 * mass * m_e * (E - potential_offset))) (RtoC hbar))
       (RtoC width).

(** The expression of [_residual] on two complex arguments. *)
Definition residual_c (core_x shell_x : C) (cw sw mr : R) : R :=
  Re (Csub
        (Csub (Cmul (Csub (RtoC 1) (Cdiv (RtoC 1) (_tanxdivx core_x))) (RtoC mr))
              (RtoC 1))
        (Cdiv (Cmul (Cdiv (RtoC 1) (_tanxdivx shell_x)) (RtoC cw)) (RtoC sw))).

(** The offsets of the core and of the shell wavevector under the
    ordering flags of a particle. *)
Definition offsets_e (p : CoreShellParticle) : R * R :=
  if e_h p then (0, ue p) else (ue p, 0).

(** Both residuals at a single energy. *)
Definition electron_residual_at (p : CoreShellParticle) (E : R) : R :=
  residual_c
    (wavevector_c E (Material.m_e (cmat p)) (fst (offsets_e p)) (core_width p))
    (wavevector_c E (Material.m_e (smat p)) (snd (offsets_e p)) (shell_width p))
    (core_width p) (shell_width p)
    (Material.m_e (smat p) / Material.m_e (cmat p)).

Definition hole_residual_at (p : CoreShellParticle) (E : R) : R :=
  residual_c
    (wavevector_c E (Material.m_e (cmat p)) (fst (offsets_e p)) (core_width p))
    (wavevector_c E (Material.m_e (smat p)) (snd (offsets_e p)) (shell_width p))
    (core_width p) (shell_width p)
    (Material.m_h (smat p) / Material.m_h (cmat p)).

(** The four arrays [calculate_wavenumbers] builds from two energies. *)
Definition wavenumbers_of (p : CoreShellParticle) (energy_e energy_h : R)
    : list ndarray :=
  if e_h p then
    [wavenumber_from_energy [energy_e] (Material.m_e (cmat p)) 0;
     wavenumber_from_energy [energy_e] (Material.m_e (smat p)) (ue p);
     wavenumber_from_energy [energy_h] (Material.m_h (cmat p)) (uh p);
     wavenumber_from_energy [energy_h] (Material.m_h (smat p)) 0]
  else
    [wavenumber_from_energy [energy_e] (Material.m_e (cmat p)) (ue p);
     wavenumber_from_energy [energy_e] (Material.m_e (smat p)) 0;
     wavenumber_from_energy [energy_h] (Material.m_h (cmat p)) 0;
     wavenumber_from_energy [energy_h] (Material.m_h (smat p)) (uh p)].

(** ** Example inputs *)

(** A type-one pair of materials, by the test of the code. *)
Definition wide_gap_shell : Material.t := Material.mk 2.20 (-0.39) 0.21 0.68 5.3.
Definition narrow_gap_core : Material.t := Material.mk 1.34 0 0.07 0.64 9.6.

(** A type-two pair of materials: both band edges of the core lie above
    those of the shell. *)
Definition core_II : Material.t := Material.mk 0 (-1.34) 0.07 0.64 9.6.
Definition shell_II : Material.t := Material.mk (-0.39) (-2.59) 0.21 0.68 5.3.
Definition particle_II : CoreShellParticle := __init__ core_II shell_II 1.23 1.05.

(** A type-two particle whose residual can be evaluated in closed form:
    the offset makes the wavenumbers at the top of the default range
    equal to 1, and both widths are [3 PI / 4]. *)
Definition d_demo : R := hbar * hbar / (8 * m_e * e).
Definition core_demo : Material.t := Material.mk d_demo d_demo 1 1 1.
Definition shell_demo : Material.t := Material.mk 0 0 (4 / 5) (4 / 5) 1.
Definition w_demo : R := 3 * (PI / 4) / n_.
Definition particle_demo : CoreShellParticle :=
  __init__ core_demo shell_demo w_demo w_demo.

(** The ratios tan(x)/x of that particle at energy 0 (core, imaginary
    argument) and at the top of the range, and its two residuals. *)
Definition T0 : R := sinh (3 * (PI / 8)) / cosh (3 * (PI / 8)) / (3 * (PI / 8)).
Definition T1 : R := tan (3 * (PI / 4)) / (3 * (PI / 4)).
Definition y0_demo : R := residual_value T0 1 (3 * (PI / 4)) (3 * (PI / 4)) (4 / 5).
Definition y1_demo : R := residual_value T1 T1 (3 * (PI / 4)) (3 * (PI / 4)) (4 / 5).

(** A stand-in for the iteration of the root finder: the midpoint. *)
Definition bisect (f : R -> result R) (a b : R) : result R := Ok ((a + b) / 2).
Definition root_demo : R := (0 + 5 * ue particle_demo) / 2.

(** The limits a caller passes replace the default range: here both
    samples of the electron scan are taken at [5 * ue]. *)
Definition bounds_demo : option (R * R * R * R) :=
  Some (5 * ue particle_demo, 5 * ue particle_demo, 0, 5 * uh particle_demo).

(** The heap after a first successful query on [particle_demo]. *)
Definition heap_demo : heap :=
  mkHeap (with_energies_valid true
            (with_s1_h (Some root_demo) (with_s1_e (Some root_demo) particle_demo)))
         2.

(** ** The first pass of [scipy.optimize.brentq]

    What [scipy/optimize/Zeros/brentq.c] does once the entry test has
    accepted the bracket, with the default tolerances of
    [scipy.optimize.brentq]: the current point is the end at which [f]
    is smaller in absolute value (the upper end on a tie), and it is
    returned when half the width of the bracket is below
    [(xtol + rtol * |xcur|) / 2]; the passes that follow are the
    parameter [rest].  Energies are in joules, of the order of [1e-19],
    so a bracket of energies is always narrower than [xtol]. *)
Definition xtol : R := 2e-12.
Definition rtol : R := 8.881784197001252e-16.

Definition brentq_first_pass (rest : (R -> result R) -> R -> R -> result R)
    (f : R -> result R) (xa xb : R) : result R :=
  fpre <- f xa ;;
  fcur <- f xb ;;
  let '(xcur, xblk) :=
    if Rlt_dec (Rabs fpre) (Rabs fcur) then (xa, xb) else (xb, xa) in
  let delta := (xtol + rtol * Rabs xcur) / 2 in
  let sbis := (xblk - xcur) / 2 in
  if Rlt_dec (Rabs sbis) delta then Ok xcur else rest f xa xb.

(** The example particle with a thinner shell, of width [PI / 3]: at the
    top of the default range its residual is the smaller one in absolute
    value, so [brentq] returns the upper end of the bracket, which is
    not 0. *)
Definition w_thin : R := PI / 3 / n_.
Definition particle_thin : CoreShellParticle :=
  __init__ core_demo shell_demo w_demo w_thin.
Definition T3 : R := tan (PI / 3) / (PI / 3).
Definition y0_thin : R := residual_value T0 1 (3 * (PI / 4)) (PI / 3) (4 / 5).
Definition y1_thin : R := residual_value T1 T3 (3 * (PI / 4)) (PI / 3) (4 / 5).
Definition root_thin : R := 5 * ue particle_thin.
Definition heap_thin : heap :=
  mkHeap (with_energies_valid true
            (with_s1_h (Some root_thin) (with_s1_e (Some root_thin) particle_thin)))
         2.

(** * Properties *)

Close Scope method_scope.
Close Scope result_scope.

(** ** Deciding comparisons of reals *)

Lemma Rlt_dec_true (x y : R) (A : Type) (u v : A) :
  x < y -> (if Rlt_dec x y then u else v) = u.
Proof. intros H. destruct (Rlt_dec x y); [reflexivity | contradiction]. Qed.

Lemma Rlt_dec_false (x y : R) (A : Type) (u v : A) :
  ~ x < y -> (if Rlt_dec x y then u else v) = v.
Proof. intros H. destruct (Rlt_dec x y); [contradiction | reflexivity]. Qed.

Lemma Req_dec_true (x y : R) (A : Type) (u v : A) :
  x = y -> (if Req_dec_T x y then u else v) = u.
Proof. intros H. destruct (Req_dec_T x y); [reflexivity | contradiction]. Qed.

Lemma Req_dec_false (x y : R) (A : Type) (u v : A) :
  x <> y -> (if Req_dec_T x y then u else v) = v.
Proof. intros H. destruct (Req_dec_T x y); [contradiction | reflexivity]. Qed.

Lemma float_lt_true (x y : R) : x < y -> float_lt x y = true.
Proof. intros H. unfold float_lt. now rewrite Rlt_dec_true. Qed.

Lemma float_lt_false (x y : R) : ~ x < y -> float_lt x y = false.
Proof. intros H. unfold float_lt. now rewrite Rlt_dec_false. Qed.

Lemma float_lt_iff (x y : R) : float_lt x y = true <-> x < y.
Proof.
  unfold float_lt. destruct (Rlt_dec x y); split; intros; auto; discriminate.
Qed.

Lemma hbar_pos : 0 < hbar.
Proof. unfold hbar. lra. Qed.

Lemma e_pos : 0 < e.
Proof. unfold e. lra. Qed.

Lemma m_e_pos : 0 < m_e.
Proof. unfold m_e. lra. Qed.

Lemma eps0_pos : 0 < eps0.
Proof. unfold eps0. lra. Qed.

Lemma n__pos : 0 < n_.
Proof. unfold n_. lra. Qed.

(** ** The stabilised ratio tan(x)/x *)

Lemma PI_gt_3 : 3 < PI.
Proof. pose proof PI2_3_2. lra. Qed.

Lemma tan_small_pos : 0 < tan 1e-6.
Proof. apply tan_gt_0; pose proof PI_gt_3; lra. Qed.

Lemma Cabs_0 : Cabs (RtoC 0) = 0.
Proof.
  unfold Cabs, RtoC; simpl. replace (0 * 0 + 0 * 0) with 0 by ring.
  apply sqrt_0.
Qed.

(** C7. [_tanxdivx x] is [1 - x^2/2] when [|x| < 1e-13] and [tan x / x]
    otherwise, at both dtypes (float and complex), and [tanxdivx] applies
    it to each element; hence it is 1 at 0, and at [x = 1e-6] its
    distance to [tan x / x] is below [1e-9] times the magnitude of
    [tan x / x]. *)
Theorem tanxdivx_branches :
  (forall (x : R) (l : list R),
     tanxdivx (float64 (x :: l)) = Ok (float64 (map _tanxdivx (x :: l))))
  /\ (forall (z : C) (l : list C),
        tanxdivx (complex128 (z :: l)) = Ok (complex128 (map _tanxdivx (z :: l))))
  /\ (forall x : R,
     _tanxdivx x = if Rlt_dec (Rabs x) 1e-13 then 1 - x * x / 2 else tan x / x)
  /\ (forall z : C,
        _tanxdivx z =
        if Rlt_dec (Cabs z) 1e-13
        then Csub (RtoC 1) (Cdiv (Cmul z z) (RtoC 2))
        else Cdiv (Ctan z) z)
  /\ _tanxdivx 0 = 1
  /\ _tanxdivx (RtoC 0) = RtoC 1
  /\ Rabs (_tanxdivx 1e-6 - tan 1e-6 / 1e-6) < 1e-9 * Rabs (tan 1e-6 / 1e-6).
Proof.
  split; [reflexivity | split; [reflexivity | ]].
  split; [reflexivity | split; [reflexivity | ]].
  split; [ | split].
  - unfold _tanxdivx; simpl. rewrite Rabs_R0, Rlt_dec_true by lra. lra.
  - unfold _tanxdivx; simpl. rewrite Cabs_0, Rlt_dec_true by lra.
    unfold Csub, Cdiv, Cmul, RtoC; simpl. f_equal; field.
  - unfold _tanxdivx; simpl.
    rewrite (Rabs_pos_eq 1e-6), Rlt_dec_false by lra.
    replace (tan 1e-6 / 1e-6 - tan 1e-6 / 1e-6) with 0 by ring.
    rewrite Rabs_R0. apply Rmult_lt_0_compat; [lra | ].
    apply Rabs_pos_lt. pose proof tan_small_pos.
    apply Rgt_not_eq. apply Rdiv_lt_0_compat; lra.
Qed.

(** ** The wavenumber of a carrier *)

Lemma csqrt_singleton (x : R) :
  csqrt [x] = if Rlt_dec x 0 then complex128 [mkC 0 (sqrt (- x))]
              else float64 [sqrt x].
Proof.
  unfold csqrt, Csqrt_real; simpl.
  destruct (Rlt_dec x 0); reflexivity.
Qed.

Lemma wavenumber_from_energy_scalar (energy mass potential_offset : R) :
  wavenumber_from_energy [energy] mass potential_offset =
  let x := 2 * mass * m_e * (energy - potential_offset) in
  if Rlt_dec x 0 then complex128 [mkC 0 (sqrt (- x) / hbar)]
  else float64 [sqrt x / hbar].
Proof.
  unfold wavenumber_from_energy; cbv zeta. simpl map.
  rewrite csqrt_singleton.
  destruct (Rlt_dec _ 0); simpl; [ | reflexivity].
  unfold Cdiv, RtoC; simpl. pose proof hbar_pos.
  do 3 f_equal; field; lra.
Qed.

(** C6, as amended.  At one energy, [wavenumber_from_energy] is the
    principal square root of [2 * mass * m_e * (energy - potential_offset)]
    divided by [hbar]: its square is that quotient and its real part is
    not negative; at [energy = potential_offset] it is the float 0; for a
    mass ratio that is not negative and [energy >= potential_offset] it
    is a float, that is, real. *)
Theorem wavenumber_from_energy_principal (energy mass potential_offset : R) :
  (exists k : C,
     astype_complex (wavenumber_from_energy [energy] mass potential_offset) = [k]
     /\ Cmul k k = RtoC (2 * mass * m_e * (energy - potential_offset) / (hbar * hbar))
     /\ 0 <= Re k
     /\ (Re k = 0 -> 0 <= Im k))
  /\ wavenumber_from_energy [potential_offset] mass potential_offset = float64 [0]
  /\ (0 <= mass -> potential_offset <= energy ->
      wavenumber_from_energy [energy] mass potential_offset =
      float64 [sqrt (2 * mass * m_e * (energy - potential_offset)) / hbar]).
Proof.
  pose proof hbar_pos as Hh. pose proof m_e_pos as Hme.
  rewrite !wavenumber_from_energy_scalar; cbv zeta.
  split; [ | split].
  - set (x := 2 * mass * m_e * (energy - potential_offset)).
    destruct (Rlt_dec x 0) as [Hx | Hx]; simpl.
    + exists (mkC 0 (sqrt (- x) / hbar)). split; [reflexivity | ].
      assert (Hs : sqrt (- x) * sqrt (- x) = - x) by (apply sqrt_sqrt; lra).
      repeat split; simpl.
      * unfold Cmul, RtoC; simpl. f_equal; [ | ring].
        replace (0 * 0 - sqrt (- x) / hbar * (sqrt (- x) / hbar))
          with (- (sqrt (- x) * sqrt (- x)) / (hbar * hbar)) by (field; lra).
        rewrite Hs. field; lra.
      * lra.
      * intros _. apply Rmult_le_pos; [apply sqrt_pos | ].
        left. apply Rinv_0_lt_compat; lra.
    + exists (mkC (sqrt x / hbar) 0). split; [reflexivity | ].
      assert (Hs : sqrt x * sqrt x = x) by (apply sqrt_sqrt; lra).
      repeat split; simpl.
      * unfold Cmul, RtoC; simpl. f_equal; [ | ring].
        replace (sqrt x / hbar * (sqrt x / hbar) - 0 * 0)
          with (sqrt x * sqrt x / (hbar * hbar)) by (field; lra).
        now rewrite Hs.
      * apply Rmult_le_pos; [apply sqrt_pos | ].
        left. apply Rinv_0_lt_compat; lra.
      * lra.
  - replace (2 * mass * m_e * (potential_offset - potential_offset)) with 0 by ring.
    rewrite Rlt_dec_false by lra. rewrite sqrt_0.
    do 2 f_equal. field; lra.
  - intros Hm HE. rewrite Rlt_dec_false; [reflexivity | ].
    apply Rle_not_lt. apply Rmult_le_pos; [ | lra].
    apply Rmult_le_pos; [lra | lra].
Qed.

Lemma wavenumber_from_energy_principal_witness :
  0 <= 0.07 /\ 1 <= 2
  /\ wavenumber_from_energy [2] 0.07 1 =
     float64 [sqrt (2 * 0.07 * m_e * (2 - 1)) / hbar].
Proof.
  split; [lra | split; [lra | ]].
  apply (proj2 (proj2 (wavenumber_from_energy_principal 2 0.07 1))); lra.
Defined.

(** C6, as stated, fails for a negative mass ratio: above the potential
    offset the wavenumber is then imaginary, not real. *)
Lemma wavenumber_negative_mass_not_real :
  0 <= 1
  /\ exists k : C,
       wavenumber_from_energy [1] (-1) 0 = complex128 [k] /\ Im k <> 0.
Proof.
  split; [lra | ].
  rewrite wavenumber_from_energy_scalar; cbv zeta.
  pose proof m_e_pos. pose proof hbar_pos.
  rewrite Rlt_dec_true by lra.
  eexists; split; [reflexivity | ]. simpl.
  apply Rgt_not_eq. apply Rdiv_lt_0_compat; [ | lra].
  apply sqrt_lt_R0. lra.
Qed.

(** ** Band alignment *)

Lemma h_e_init (core shell : Material.t) (cw sw : R) :
  h_e (__init__ core shell cw sw) =
  float_gt (Material.vbe core) (Material.vbe shell)
  && float_gt (Material.cbe core) (Material.cbe shell).
Proof. reflexivity. Qed.

Lemma e_h_init (core shell : Material.t) (cw sw : R) :
  e_h (__init__ core shell cw sw) =
  float_lt (Material.vbe core) (Material.vbe shell)
  && float_lt (Material.cbe core) (Material.cbe shell).
Proof. reflexivity. Qed.

Lemma type_two_init (core shell : Material.t) (cw sw : R) :
  type_two (__init__ core shell cw sw) =
  h_e (__init__ core shell cw sw) || e_h (__init__ core shell cw sw).
Proof. reflexivity. Qed.

(** C8. A core whose valence band edge is strictly above the shell's and
    whose conduction band edge is strictly below the shell's gives a
    particle classified type one, and none of the type-two flags is set. *)
Theorem type_one_classification (core shell : Material.t) (cw sw : R) :
  Material.vbe core > Material.vbe shell ->
  Material.cbe core < Material.cbe shell ->
  type_one (__init__ core shell cw sw) = true
  /\ type_two (__init__ core shell cw sw) = false
  /\ h_e (__init__ core shell cw sw) = false
  /\ e_h (__init__ core shell cw sw) = false.
Proof.
  intros Hv Hc.
  assert (Hh : h_e (__init__ core shell cw sw) = false).
  { rewrite h_e_init. unfold float_gt.
    rewrite (float_lt_false (Material.cbe shell)) by lra.
    apply andb_false_r. }
  assert (He : e_h (__init__ core shell cw sw) = false).
  { rewrite e_h_init. now rewrite float_lt_false by lra. }
  repeat split; auto.
  - unfold __init__, _is_type_one, float_gt; simpl.
    now rewrite !float_lt_true by lra.
  - rewrite type_two_init, Hh, He. reflexivity.
Qed.

Lemma type_one_classification_witness :
  type_one (__init__ narrow_gap_core wide_gap_shell 1.23 1.05) = true
  /\ type_two (__init__ narrow_gap_core wide_gap_shell 1.23 1.05) = false
  /\ h_e (__init__ narrow_gap_core wide_gap_shell 1.23 1.05) = false
  /\ e_h (__init__ narrow_gap_core wide_gap_shell 1.23 1.05) = false.
Proof.
  apply (type_one_classification narrow_gap_core wide_gap_shell 1.23 1.05);
    simpl; lra.
Defined.

(** ** The Coulomb screening operator *)

Lemma heaviside_half_is_step (x : R) : _heaviside x 0.5 = step x.
Proof.
  unfold _heaviside, step.
  destruct (Rlt_dec 0 x) as [Hp | Hp].
  - rewrite Rlt_dec_false by lra. reflexivity.
  - destruct (Req_dec_T x 0) as [Hz | Hz].
    + rewrite Rlt_dec_false by lra. lra.
    + rewrite Rlt_dec_true by lra. reflexivity.
Qed.

Lemma float_div_ok (x y : R) : y <> 0 -> float_div x y = Ok (x / y).
Proof. intros H. unfold float_div. now rewrite Req_dec_false. Qed.

Lemma coulomb_screening_operator_value (p : CoreShellParticle) (r_a r_b : R) :
  0 < r_a -> 0 < r_b ->
  Material.eps (cmat p) <> 0 -> Material.eps (smat p) <> 0 ->
  make_coulomb_screening_operator p r_a r_b =
  Ok (coulomb_screening_amended (core_width p / n_)
        (Material.eps (cmat p)) (Material.eps (smat p)) r_a r_b).
Proof.
  intros Ha Hb Hc Hs. pose proof eps0_pos as H0.
  assert (Hm : 0 < Rmax r_a r_b).
  { apply Rlt_le_trans with r_a; [assumption | apply Rmax_l]. }
  unfold make_coulomb_screening_operator, coulomb_screening_amended; cbv zeta.
  rewrite !heaviside_half_is_step.
  rewrite float_div_ok.
  2:{ apply Rmult_integral_contrapositive_currified; [ | lra].
      apply Rmult_integral_contrapositive_currified; [lra | assumption]. }
  simpl. rewrite float_div_ok.
  2:{ apply Rmult_integral_contrapositive_currified; [ | lra].
      apply Rmult_integral_contrapositive_currified; [ | assumption].
      lra. }
  simpl. reflexivity.
Qed.

(** C9, as amended.  For radii [r_a, r_b > 0] and dielectric constants
    that are not zero, the operator of a particle is
    [- step(core - r_a) * step(core - r_b) / (max r_a r_b * core_eps * eps0)
     - (step(r_a - core) + step(r_b - core)) / (2 * max r_a r_b * shell_eps * eps0)],
    multiplied by [e] and divided by [n_], where [step 0 = 1/2] and
    [core] is the core width divided by [n_]. *)
Theorem coulomb_screening_operator_formula (p : CoreShellParticle) (r_a r_b : R) :
  0 < r_a -> 0 < r_b ->
  Material.eps (cmat p) <> 0 -> Material.eps (smat p) <> 0 ->
  make_coulomb_screening_operator p r_a r_b =
  Ok (coulomb_screening_amended (core_width p / n_)
        (Material.eps (cmat p)) (Material.eps (smat p)) r_a r_b)
  /\ step 0 = 1 / 2.
Proof.
  intros Ha Hb Hc Hs. split.
  - now apply coulomb_screening_operator_value.
  - unfold step. rewrite Rlt_dec_false by lra. now rewrite Rlt_dec_false by lra.
Qed.

Lemma step_pos (x : R) : 0 < x -> step x = 1.
Proof.
  intros H. unfold step. rewrite Rlt_dec_false by lra. now rewrite Rlt_dec_true.
Qed.

Lemma step_neg (x : R) : x < 0 -> step x = 0.
Proof. intros H. unfold step. now rewrite Rlt_dec_true. Qed.

Lemma coulomb_screening_operator_formula_witness :
  make_coulomb_screening_operator particle_II 1 2 =
  Ok (coulomb_screening_amended (core_width particle_II / n_) 9.6 5.3 1 2)
  /\ step 0 = 1 / 2.
Proof.
  apply (coulomb_screening_operator_formula particle_II 1 2); simpl; lra.
Defined.

(** C9, as stated, fails: with both radii inside the core the operator
    of the code carries the factor [1 / eps0] the stated formula lacks. *)
Lemma coulomb_screening_stated_fails :
  0 < 1
  /\ make_coulomb_screening_operator particle_II 1 1 <>
     Ok (coulomb_screening_stated (core_width particle_II / n_)
           (Material.eps (cmat particle_II)) (Material.eps (smat particle_II)) 1 1).
Proof.
  split; [lra | ].
  rewrite coulomb_screening_operator_value by (simpl; lra).
  intros H. injection H as H. revert H.
  unfold coulomb_screening_amended, coulomb_screening_stated; simpl.
  assert (Hc : 1.23 * n_ / n_ = 1.23) by (unfold n_; lra).
  rewrite Hc.
  rewrite !(step_pos (1.23 - 1)) by lra.
  rewrite !(step_neg (1 - 1.23)) by lra.
  rewrite Rmax_left by lra.
  unfold e, n_, eps0. lra.
Qed.

(** ** Geometry mutators *)

Lemma init_radius (core shell : Material.t) (cw sw : R) :
  radius (__init__ core shell cw sw) =
  core_width (__init__ core shell cw sw) + shell_width (__init__ core shell cw sw).
Proof. unfold __init__; simpl. ring. Qed.

Lemma mutators_invalidate (x : R) (self : CoreShellParticle) :
  energies_valid (set_core_width x self) = false
  /\ energies_valid (set_shell_width x self) = false.
Proof. split; reflexivity. Qed.

Lemma mutators_keep_radius (x : R) (self : CoreShellParticle) :
  radius (set_core_width x self) = radius self
  /\ radius (set_shell_width x self) = radius self.
Proof. split; reflexivity. Qed.

(** C4. The mutators mark the energies stale but leave [radius] as the
    constructor computed it: after [set_core_width 2] on a particle built
    with widths 1.23 and 1.05, [radius] is still [2.28 n_] while
    [core_width + shell_width] is [3.05 n_]. *)
Theorem set_core_width_leaves_radius_stale :
  radius (set_core_width 2 particle_II) = 2.28 * n_
  /\ core_width (set_core_width 2 particle_II)
     + shell_width (set_core_width 2 particle_II) = 3.05 * n_
  /\ radius (set_core_width 2 particle_II) <>
     core_width (set_core_width 2 particle_II)
     + shell_width (set_core_width 2 particle_II)
  /\ energies_valid (set_core_width 2 particle_II) = false.
Proof.
  simpl. pose proof n__pos. repeat split; try lra.
Qed.

(** ** The hole equation *)

Lemma ue_particle_II : ue particle_II = 0.39 * e.
Proof. simpl. rewrite Rabs_pos_eq by lra. lra. Qed.

Lemma uh_particle_II : uh particle_II = 1.25 * e.
Proof. simpl. rewrite Rabs_pos_eq by lra. lra. Qed.

Lemma wavenumber_real (energy mass potential_offset : R) :
  0 <= 2 * mass * m_e * (energy - potential_offset) ->
  wavenumber_from_energy [energy] mass potential_offset =
  float64 [sqrt (2 * mass * m_e * (energy - potential_offset)) / hbar].
Proof.
  intros H. rewrite wavenumber_from_energy_scalar; cbv zeta.
  now rewrite Rlt_dec_false by lra.
Qed.

Lemma sqrt_over_hbar_inj (x y : R) :
  0 <= x -> 0 <= y -> sqrt x / hbar = sqrt y / hbar -> x = y.
Proof.
  intros Hx Hy Heq. apply sqrt_inj; auto. pose proof hbar_pos.
  apply (Rmult_eq_reg_r (/ hbar)); [exact Heq | ].
  apply Rinv_neq_0_compat. lra.
Qed.

(** C1. The wavevectors of the hole equation are those of the electron
    equation: they are computed from [cmat.m_e], [smat.m_e] and [ue].  On
    the type-two particle [particle_II] at 2 eV, the core wavevector of
    [hole_eigenvalue_residual] differs from the one that
    [calculate_wavenumbers] derives from [cmat.m_h], and the shell one
    from the one derived from [smat.m_h] and [uh]; only the factor
    [mass_ratio] uses the hole masses, and the residual of the hole is
    the same whatever [uh] is. *)
Theorem hole_residual_uses_electron_parameters :
  (forall energy p, hole_wavevectors energy p = electron_wavevectors energy p)
  /\ (forall energy p v,
        hole_eigenvalue_residual energy
          (mkParticle (cmat p) (smat p) (core_width p) (shell_width p) (radius p)
             (type_one p) (type_two p) (h_e p) (e_h p) (energies_valid p)
             (s1_e p) (s1_h p) (ue p) v)
        = hole_eigenvalue_residual energy p)
  /\ hole_wavevectors [2 * e] particle_II =
     (Some (wavenumber_from_energy [2 * e] (Material.m_e core_II) (ue particle_II)),
      Some (wavenumber_from_energy [2 * e] (Material.m_e shell_II) 0))
  /\ fst (hole_wavevectors [2 * e] particle_II) <>
     Some (wavenumber_from_energy [2 * e] (Material.m_h core_II) 0)
  /\ snd (hole_wavevectors [2 * e] particle_II) <>
     Some (wavenumber_from_energy [2 * e] (Material.m_h shell_II) (uh particle_II)).
Proof.
  split; [reflexivity | ]. split; [reflexivity | ].
  assert (Hh : h_e particle_II = true).
  { unfold particle_II. rewrite h_e_init. unfold float_gt.
    rewrite !float_lt_true; simpl; auto; lra. }
  assert (He : e_h particle_II = false).
  { unfold particle_II. rewrite e_h_init.
    rewrite float_lt_false; simpl; auto; lra. }
  assert (Hw : hole_wavevectors [2 * e] particle_II =
     (Some (wavenumber_from_energy [2 * e] (Material.m_e core_II) (ue particle_II)),
      Some (wavenumber_from_energy [2 * e] (Material.m_e shell_II) 0))).
  { unfold hole_wavevectors. rewrite He, Hh. reflexivity. }
  split; [exact Hw | ].
  rewrite Hw, ue_particle_II, uh_particle_II. cbn [fst snd Material.m_e Material.m_h core_II shell_II].
  pose proof e_pos as Hpe. pose proof m_e_pos as Hpm.
  rewrite !wavenumber_real by nra.
  split; intros H; injection H as H;
    apply sqrt_over_hbar_inj in H; nra.
Qed.

(** ** The bracket scan *)

Lemma rising_iff (a b : R) :
  rising a b <-> (a < 0 /\ 0 <= b) \/ (a <= 0 /\ 0 < b).
Proof.
  unfold rising, np_sign.
  destruct (Rlt_dec a 0), (Rlt_dec 0 a), (Rlt_dec b 0), (Rlt_dec 0 b);
    split; intros H; try lra.
Qed.

Lemma np_diff_cons (a b : R) (t : list R) :
  np_diff (a :: b :: t) = (b - a) :: np_diff (b :: t).
Proof. reflexivity. Qed.

Lemma first_neg2pos_cons (a b : R) (t : list R) :
  first_neg2pos (a :: b :: t) =
  if Rlt_dec 0.5 (np_sign b - np_sign a) then Some O
  else option_map S (first_neg2pos (b :: t)).
Proof. reflexivity. Qed.

Lemma argwhere_from_first (k : nat) (y : list R) :
  hd_error (argwhere_from k (where_gt 0.5 (np_diff (map np_sign y)))) =
  option_map (Nat.add k) (first_neg2pos y).
Proof.
  revert k. induction y as [ | a t IH]; intros k; [reflexivity | ].
  destruct t as [ | b t']; [reflexivity | ].
  rewrite first_neg2pos_cons.
  change (map np_sign (a :: b :: t'))
    with (np_sign a :: np_sign b :: map np_sign t').
  rewrite np_diff_cons.
  change (np_sign b :: map np_sign t') with (map np_sign (b :: t')).
  unfold where_gt in *. rewrite map_cons.
  destruct (Rlt_dec 0.5 (np_sign b - np_sign a)).
  - simpl. f_equal. lia.
  - cbn [argwhere_from Nat.eqb]. rewrite (IH (S k)).
    destruct (first_neg2pos (b :: t')); cbn [option_map];
      [f_equal; lia | reflexivity].
Qed.

Lemma getitem_hd {A} (a : list A) :
  getitem a 0 = match hd_error a with Some v => Ok v | None => Raise IndexError end.
Proof. destruct a; reflexivity. Qed.

Lemma neg2pos_at_cons (a : R) (t : list R) (i : nat) :
  neg2pos_at (a :: t) (S i) <-> neg2pos_at t i.
Proof. unfold neg2pos_at; simpl. tauto. Qed.

Lemma first_neg2pos_some (y : list R) (i : nat) :
  first_neg2pos y = Some i <->
  neg2pos_at y i /\ forall j, (j < i)%nat -> ~ neg2pos_at y j.
Proof.
  revert i. induction y as [ | a t IH]; intros i.
  - simpl. split; [discriminate | ].
    intros [(x & b & H & _) _]. destruct i; discriminate.
  - destruct t as [ | b t'].
    + simpl. split; [discriminate | ].
      intros [(x & c & _ & H & _) _]. destruct i; discriminate.
    + rewrite first_neg2pos_cons.
      destruct (Rlt_dec 0.5 (np_sign b - np_sign a)) as [Hr | Hr].
      * split.
        -- intros [= <-]. split; [ | intros j Hj; lia].
           exists a, b. repeat split; auto.
        -- intros [Hi Hmin]. destruct i as [ | i]; [reflexivity | ].
           exfalso. apply (Hmin O); [lia | ].
           exists a, b. repeat split; auto.
      * destruct i as [ | i].
        -- split.
           ++ destruct (first_neg2pos (b :: t')); discriminate.
           ++ intros [(x & c & Hx & Hc & Hxc) _]. simpl in Hx, Hc.
              injection Hx as <-. injection Hc as <-. contradiction.
        -- rewrite neg2pos_at_cons. specialize (IH i).
           split.
           ++ intros H. destruct (first_neg2pos (b :: t')) as [k | ] eqn:Hk;
                [ | discriminate].
              injection H as ->. destruct IH as [IH _].
              destruct (IH eq_refl) as [Hat Hmin]. split; [assumption | ].
              intros [ | j] Hj.
              ** intros (x & c & Hx & Hc & Hxc). simpl in Hx, Hc.
                 injection Hx as <-. injection Hc as <-. contradiction.
              ** rewrite neg2pos_at_cons. apply Hmin. lia.
           ++ intros [Hat Hmin]. destruct IH as [_ IH].
              rewrite IH; [reflexivity | ]. split; [assumption | ].
              intros j Hj. rewrite <- (neg2pos_at_cons a). apply Hmin. lia.
Qed.

Lemma first_neg2pos_none (y : list R) :
  first_neg2pos y = None <-> forall i, ~ neg2pos_at y i.
Proof.
  induction y as [ | a t IH].
  - simpl. split; [ | reflexivity].
    intros _ i (x & b & H & _). destruct i; discriminate.
  - destruct t as [ | b t'].
    + simpl. split; [ | reflexivity].
      intros _ i (x & c & _ & H & _). destruct i; discriminate.
    + rewrite first_neg2pos_cons.
      destruct (Rlt_dec 0.5 (np_sign b - np_sign a)) as [Hr | Hr].
      * split; [discriminate | ]. intros H. exfalso. apply (H O).
        exists a, b. repeat split; auto.
      * split.
        -- intros H. destruct (first_neg2pos (b :: t')); [discriminate | ].
           destruct IH as [IH _]. specialize (IH eq_refl).
           intros [ | i].
           ++ intros (x & c & Hx & Hc & Hxc). simpl in Hx, Hc.
              injection Hx as <-. injection Hc as <-. contradiction.
           ++ rewrite neg2pos_at_cons. apply IH.
        -- intros H. destruct IH as [_ IH]. rewrite IH; [reflexivity | ].
           intros i. rewrite <- (neg2pos_at_cons a). apply H.
Qed.

Lemma linspace_length (start stop : R) (num : nat) :
  length (linspace start stop num) = num.
Proof.
  destruct num as [ | [ | n]]; try reflexivity.
  unfold linspace. now rewrite length_map, length_seq.
Qed.

Lemma linspace_nth (start stop : R) (num i : nat) :
  (2 <= num)%nat -> (i < num)%nat ->
  nth_error (linspace start stop num) i = Some (sample start stop num i).
Proof.
  intros Hn Hi. destruct num as [ | [ | n]]; try lia.
  unfold linspace, sample.
  rewrite nth_error_map, nth_error_seq.
  replace (i <? S (S n))%nat with true by (symmetry; apply Nat.ltb_lt; exact Hi).
  simpl option_map. replace (S (S n) - 1)%nat with (S n) by lia.
  reflexivity.
Qed.

Lemma sample_first (start stop : R) (num : nat) : sample start stop num 0 = start.
Proof. unfold sample. simpl. ring. Qed.

Lemma sample_last (start stop : R) (num : nat) :
  (2 <= num)%nat -> sample start stop num (num - 1) = stop.
Proof.
  intros Hn. unfold sample. field.
  apply not_0_INR. lia.
Qed.

Lemma neg2pos_at_length (y : list R) (i : nat) :
  neg2pos_at y i -> (S i < length y)%nat.
Proof.
  intros (a & b & _ & Hb & _). apply nth_error_Some. now rewrite Hb.
Qed.

Lemma scan_and_bracket_selects (f : list R -> result (list R))
    (lower_bound upper_bound : R) (resolution : nat) (y : list R) (i : nat) :
  f (linspace lower_bound upper_bound resolution) = Ok y ->
  length y = resolution ->
  first_neg2pos y = Some i ->
  scan_and_bracket f lower_bound upper_bound resolution =
  Ok (sample lower_bound upper_bound resolution i,
      sample lower_bound upper_bound resolution (S i)).
Proof.
  intros Hf Hlen Hi. unfold scan_and_bracket; cbv zeta.
  rewrite Hf. cbn [rbind].
  rewrite getitem_hd, (argwhere_from_first 0), Hi. cbn [option_map rbind Nat.add].
  apply first_neg2pos_some in Hi as [Hat _].
  apply neg2pos_at_length in Hat. rewrite Hlen in Hat.
  replace (i + 1)%nat with (S i) by lia.
  unfold getitem. rewrite !linspace_nth by lia. reflexivity.
Qed.

Lemma scan_and_bracket_nothing (f : list R -> result (list R))
    (lower_bound upper_bound : R) (resolution : nat) (y : list R) :
  f (linspace lower_bound upper_bound resolution) = Ok y ->
  first_neg2pos y = None ->
  scan_and_bracket f lower_bound upper_bound resolution = Raise IndexError.
Proof.
  intros Hf Hnone. unfold scan_and_bracket; cbv zeta.
  rewrite Hf. cbn [rbind].
  rewrite getitem_hd, (argwhere_from_first 0), Hnone. reflexivity.
Qed.

Lemma scan_and_bracket_propagates (f : list R -> result (list R))
    (lower_bound upper_bound : R) (resolution : nat) (x : exn) :
  f (linspace lower_bound upper_bound resolution) = Raise x ->
  scan_and_bracket f lower_bound upper_bound resolution = Raise x.
Proof. intros Hf. unfold scan_and_bracket; cbv zeta. now rewrite Hf. Qed.

(** ** The energy query *)

Section EnergyQuery.

Variable brentq_iterate : (R -> result R) -> R -> R -> result R.

Lemma calculate_s1_energies_cached bounds resolution as_ev self n :
  energies_valid self = true ->
  calculate_s1_energies brentq_iterate bounds resolution as_ev (mkHeap self n) =
  (Ok (s1_e self, s1_h self), mkHeap self n).
Proof.
  intros Hv. unfold calculate_s1_energies, mbind, get_self.
  cbn [self_]. rewrite Hv. reflexivity.
Qed.

Lemma calculate_s1_energies_fresh bounds resolution as_ev self n :
  energies_valid self = false ->
  calculate_s1_energies brentq_iterate bounds resolution as_ev (mkHeap self n) =
  match scan_and_bracket (fun x => electron_eigenvalue_residual x self)
          (fst (limits_e bounds self)) (snd (limits_e bounds self)) resolution with
  | Raise x => (Raise x, mkHeap self (S n))
  | Ok bracket_e =>
    match brentq brentq_iterate (at_scalar (fun x => electron_eigenvalue_residual x self))
            (fst bracket_e) (snd bracket_e) with
    | Raise x => (Raise x, mkHeap self (S n))
    | Ok root_e =>
      let self1 := with_s1_e (Some root_e) self in
      match scan_and_bracket (fun x => hole_eigenvalue_residual x self1)
              (fst (limits_h bounds self)) (snd (limits_h bounds self)) resolution with
      | Raise x => (Raise x, mkHeap self1 (S (S n)))
      | Ok bracket_h =>
        match brentq brentq_iterate (at_scalar (fun x => hole_eigenvalue_residual x self1))
                (fst bracket_h) (snd bracket_h) with
        | Raise x => (Raise x, mkHeap self1 (S (S n)))
        | Ok root_h =>
            (Ok (Some (in_unit as_ev root_e), Some (in_unit as_ev root_h)),
             mkHeap (with_energies_valid true (with_s1_h (Some root_h) self1))
                    (S (S n)))
        end
      end
    end
  end.
Proof.
  intros Hv. unfold calculate_s1_energies, mbind, get_self.
  cbn [self_]. rewrite Hv.
  unfold limits_e, limits_h.
  destruct bounds as [[[[a b] c] d] | ]; cbn [fst snd];
    unfold count_scan, lift, assign, mret; cbn [self_ scan_calls];
    (destruct (scan_and_bracket _ _ _ resolution) as [bracket_e | x];
       [ | reflexivity]);
    (destruct (brentq _ _ (fst bracket_e) (snd bracket_e)) as [root_e | x];
       [ | reflexivity]);
    cbv zeta;
    (destruct (scan_and_bracket _ _ _ resolution) as [bracket_h | x];
       [ | reflexivity]);
    (destruct (brentq _ _ (fst bracket_h) (snd bracket_h)) as [root_h | x];
       [ | reflexivity]);
    destruct as_ev; reflexivity.
Qed.

End EnergyQuery.

(** ** Residuals: failure without an ordering flag, shape of the result *)

Lemma electron_residual_no_ordering (energy : list R) (p : CoreShellParticle) :
  e_h p = false -> h_e p = false ->
  electron_eigenvalue_residual energy p = Raise TypeError.
Proof.
  intros He Hh. unfold electron_eigenvalue_residual, electron_wavevectors.
  now rewrite He, Hh.
Qed.

Lemma hole_residual_no_ordering (energy : list R) (p : CoreShellParticle) :
  e_h p = false -> h_e p = false ->
  hole_eigenvalue_residual energy p = Raise TypeError.
Proof.
  intros He Hh. unfold hole_eigenvalue_residual, hole_wavevectors.
  now rewrite He, Hh.
Qed.

Lemma size_nd_map f (a : ndarray) : size (nd_map f a) = size a.
Proof. destruct a; simpl; apply length_map. Qed.

Lemma size_csqrt (a : list R) : size (csqrt a) = length a.
Proof. unfold csqrt. destruct (existsb _ a); simpl; apply length_map. Qed.

Lemma size_wavenumber (energy : list R) (mass potential_offset : R) :
  size (wavenumber_from_energy energy mass potential_offset) = length energy.
Proof.
  unfold wavenumber_from_energy. now rewrite size_nd_map, size_csqrt, length_map.
Qed.

Lemma length_zip_with {A B D} (f : A -> B -> D) (l : list A) (l' : list B) :
  length l = length l' -> length (zip_with f l l') = length l.
Proof.
  revert l'. induction l as [ | a t IH]; intros [ | b t'] H; simpl in *;
    try discriminate; auto.
Qed.

Lemma length_astype_complex (a : ndarray) : length (astype_complex a) = size a.
Proof. destruct a; simpl; [apply length_map | reflexivity]. Qed.

Lemma length_np_real_nd_map2 f (a b : ndarray) :
  size a = size b -> length (np_real (nd_map2 f a b)) = size a.
Proof.
  intros H. destruct a as [l | l], b as [l' | l']; simpl in *;
    rewrite ?length_map.
  - now apply length_zip_with.
  - rewrite length_zip_with; rewrite !length_map; auto.
  - rewrite length_zip_with; rewrite ?length_map; auto.
  - now apply length_zip_with.
Qed.

Lemma tanxdivx_ok (x : ndarray) :
  size x <> O -> tanxdivx x = Ok (nd_map (@_tanxdivx) x).
Proof. unfold tanxdivx. destruct (size x); [contradiction | reflexivity]. Qed.

Lemma _residual_length (core_x shell_x : ndarray) (cw sw mr : R) (y : list R) :
  size core_x = size shell_x ->
  _residual core_x shell_x cw sw mr = Ok y -> length y = size core_x.
Proof.
  intros Hs. unfold _residual, tanxdivx.
  destruct (size core_x) eqn:Hc; [discriminate | ].
  rewrite <- Hs. cbn [rbind].
  intros [= <-]. rewrite length_np_real_nd_map2; rewrite !size_nd_map; congruence.
Qed.

Lemma times_width_size (k : option ndarray) (w : R) (a : ndarray) :
  times_width k w = Ok a -> exists k', k = Some k' /\ size a = size k'.
Proof.
  destruct k as [k' | ]; [ | discriminate].
  intros [= <-]. exists k'. split; [reflexivity | apply size_nd_map].
Qed.

Lemma electron_residual_length (energy y : list R) (p : CoreShellParticle) :
  electron_eigenvalue_residual energy p = Ok y -> length y = length energy.
Proof.
  unfold electron_eigenvalue_residual.
  destruct (electron_wavevectors energy p) as [k q] eqn:Hw.
  destruct (times_width k (core_width p)) as [core_x | ] eqn:Hk; [ | discriminate].
  destruct (times_width q (shell_width p)) as [shell_x | ] eqn:Hq; [ | discriminate].
  cbn [rbind]. destruct (float_div _ _) as [mr | ]; [ | discriminate]. cbn [rbind].
  apply times_width_size in Hk as (k' & -> & Hk).
  apply times_width_size in Hq as (q' & -> & Hq).
  assert (size k' = length energy /\ size q' = length energy) as [Hk' Hq'].
  { unfold electron_wavevectors in Hw.
    destruct (e_h p); [ | destruct (h_e p); [ | discriminate]];
      injection Hw as <- <-; split; apply size_wavenumber. }
  intros H. apply _residual_length in H; congruence.
Qed.

Lemma hole_residual_length (energy y : list R) (p : CoreShellParticle) :
  hole_eigenvalue_residual energy p = Ok y -> length y = length energy.
Proof.
  unfold hole_eigenvalue_residual.
  destruct (hole_wavevectors energy p) as [k q] eqn:Hw.
  destruct (times_width k (core_width p)) as [core_x | ] eqn:Hk; [ | discriminate].
  destruct (times_width q (shell_width p)) as [shell_x | ] eqn:Hq; [ | discriminate].
  cbn [rbind]. destruct (float_div _ _) as [mr | ]; [ | discriminate]. cbn [rbind].
  apply times_width_size in Hk as (k' & -> & Hk).
  apply times_width_size in Hq as (q' & -> & Hq).
  assert (size k' = length energy /\ size q' = length energy) as [Hk' Hq'].
  { unfold hole_wavevectors in Hw.
    destruct (e_h p); [ | destruct (h_e p); [ | discriminate]];
      injection Hw as <- <-; split; apply size_wavenumber. }
  intros H. apply _residual_length in H; congruence.
Qed.

(** ** Energy queries on a particle without a type-two ordering *)

Section NoOrdering.

Variable brentq_iterate : (R -> result R) -> R -> R -> result R.

Lemma query_no_ordering bounds resolution as_ev (p : CoreShellParticle) (n : nat) :
  e_h p = false -> h_e p = false -> energies_valid p = false ->
  calculate_s1_energies brentq_iterate bounds resolution as_ev (mkHeap p n) =
  (Raise TypeError, mkHeap p (S n)).
Proof.
  intros He Hh Hv. rewrite calculate_s1_energies_fresh by assumption.
  rewrite scan_and_bracket_propagates with (x := TypeError); [reflexivity | ].
  now apply electron_residual_no_ordering.
Qed.

Lemma reachable_no_ordering (p0 p : CoreShellParticle) :
  e_h p0 = false -> h_e p0 = false -> energies_valid p0 = false ->
  reachable brentq_iterate p0 p ->
  e_h p = false /\ h_e p = false /\ energies_valid p = false.
Proof.
  intros He Hh Hv Hr. induction Hr as [ | x p Hr IH | x p Hr IH | b r a p n Hr IH].
  - auto.
  - destruct IH as (IH1 & IH2 & IH3). repeat split; assumption.
  - destruct IH as (IH1 & IH2 & IH3). repeat split; assumption.
  - destruct IH as (IH1 & IH2 & IH3).
    rewrite query_no_ordering by assumption. cbn [snd self_]. auto.
Qed.

(** C10. On a particle constructed with both type-two flags false,
    whatever widths are set and whatever queries were attempted before,
    both residual functions leave their wavevectors [None] and raise the
    [TypeError] of the arithmetic on [None]; [calculate_s1_energies]
    raises it during the first scan and nothing is stored; so a query
    that returns energies implies one of the two flags. *)
Theorem energy_query_needs_type_two (core shell : Material.t) (cw sw : R)
    (p : CoreShellParticle) bounds resolution as_ev (n : nat) :
  e_h (__init__ core shell cw sw) = false ->
  h_e (__init__ core shell cw sw) = false ->
  reachable brentq_iterate (__init__ core shell cw sw) p ->
  (forall energy,
     electron_wavevectors energy p = (None, None)
     /\ hole_wavevectors energy p = (None, None)
     /\ electron_eigenvalue_residual energy p = Raise TypeError
     /\ hole_eigenvalue_residual energy p = Raise TypeError)
  /\ calculate_s1_energies brentq_iterate bounds resolution as_ev (mkHeap p n) =
     (Raise TypeError, mkHeap p (S n))
  /\ energies_valid p = false.
Proof.
  intros He Hh Hr.
  destruct (reachable_no_ordering _ p He Hh eq_refl Hr) as (He' & Hh' & Hv').
  split.
  - intros energy. unfold electron_wavevectors, hole_wavevectors.
    rewrite He', Hh'. repeat split.
    + now apply electron_residual_no_ordering.
    + now apply hole_residual_no_ordering.
  - split; [now apply query_no_ordering | assumption].
Qed.

End NoOrdering.

Lemma energy_query_needs_type_two_witness :
  calculate_s1_energies (fun _ a b => Ok ((a + b) / 2)) None 1000 true
    (mkHeap (set_shell_width 2 (__init__ narrow_gap_core wide_gap_shell 1.23 1.05)) 0)
  = (Raise TypeError,
     mkHeap (set_shell_width 2 (__init__ narrow_gap_core wide_gap_shell 1.23 1.05)) 1).
Proof.
  apply (energy_query_needs_type_two (fun _ a b => Ok ((a + b) / 2))
           narrow_gap_core wide_gap_shell 1.23 1.05).
  - rewrite e_h_init. rewrite float_lt_false; [reflexivity | simpl; lra].
  - rewrite h_e_init. unfold float_gt.
    rewrite (float_lt_false (Material.cbe wide_gap_shell)); [ | simpl; lra].
    apply andb_false_r.
  - apply reach_set_shell_width, reach_init.
Defined.

(** ** A scan that finds no transition *)

Lemma neg2pos_at_positive (y : list R) (i : nat) :
  Forall (fun v => 0 < v) y -> ~ neg2pos_at y i.
Proof.
  intros Hall (a & b & Ha & Hb & Hr).
  apply nth_error_In in Ha, Hb. rewrite Forall_forall in Hall.
  apply Hall in Ha, Hb. apply rising_iff in Hr. lra.
Qed.

Section ScanFailure.

Variable brentq_iterate : (R -> result R) -> R -> R -> result R.

(** C3, as amended.  When the sign of the samples steps up nowhere, the
    scan raises [IndexError], the error of indexing the empty array of
    matches; the energy query has no handler, so whatever a scan raises
    reaches its caller: from the scan of the electron with nothing stored,
    from the scan of the hole with the electron energy stored, and in
    both cases the energies stay invalid. *)
Theorem scan_without_transition_raises :
  (forall f lower_bound upper_bound resolution y,
     f (linspace lower_bound upper_bound resolution) = Ok y ->
     (forall i, ~ neg2pos_at y i) ->
     scan_and_bracket f lower_bound upper_bound resolution = Raise IndexError)
  /\ (forall bounds resolution as_ev self n x,
        energies_valid self = false ->
        scan_and_bracket (fun en => electron_eigenvalue_residual en self)
          (fst (limits_e bounds self)) (snd (limits_e bounds self)) resolution
        = Raise x ->
        calculate_s1_energies brentq_iterate bounds resolution as_ev (mkHeap self n)
        = (Raise x, mkHeap self (S n)))
  /\ (forall bounds resolution as_ev self n bracket_e root_e x,
        energies_valid self = false ->
        scan_and_bracket (fun en => electron_eigenvalue_residual en self)
          (fst (limits_e bounds self)) (snd (limits_e bounds self)) resolution
        = Ok bracket_e ->
        brentq brentq_iterate
          (at_scalar (fun en => electron_eigenvalue_residual en self))
          (fst bracket_e) (snd bracket_e) = Ok root_e ->
        scan_and_bracket (fun en => hole_eigenvalue_residual en self)
          (fst (limits_h bounds self)) (snd (limits_h bounds self)) resolution
        = Raise x ->
        calculate_s1_energies brentq_iterate bounds resolution as_ev (mkHeap self n)
        = (Raise x, mkHeap (with_s1_e (Some root_e) self) (S (S n)))
        /\ energies_valid (with_s1_e (Some root_e) self) = false).
Proof.
  split; [ | split].
  - intros f lo hi res y Hf Hno.
    apply scan_and_bracket_nothing with y; [assumption | ].
    now apply first_neg2pos_none.
  - intros bounds res as_ev self n x Hv Hscan.
    rewrite calculate_s1_energies_fresh by assumption.
    now rewrite Hscan.
  - intros bounds res as_ev self n be re x Hv Hse Hbe Hsh.
    split; [ | exact Hv].
    rewrite calculate_s1_energies_fresh by assumption.
    rewrite Hse, Hbe. cbv zeta.
    change (fun x => hole_eigenvalue_residual x (with_s1_e (Some re) self))
      with (fun x => hole_eigenvalue_residual x self).
    now rewrite Hsh.
Qed.

End ScanFailure.

(** C3, as stated, fails: on samples that are all positive the scan
    raises [IndexError], not [NoBoundStateFound]. *)
Lemma scan_failure_is_not_NoBoundStateFound :
  (forall i, ~ neg2pos_at [1; 1; 1] i)
  /\ scan_and_bracket (fun _ => Ok [1; 1; 1]) 0 1 3 = Raise IndexError
  /\ scan_and_bracket (fun _ => Ok [1; 1; 1]) 0 1 3 <> Raise NoBoundStateFound.
Proof.
  assert (Hno : forall i, ~ neg2pos_at [1; 1; 1] i).
  { intros i. apply neg2pos_at_positive. repeat constructor; lra. }
  assert (Hs : scan_and_bracket (fun _ => Ok [1; 1; 1]) 0 1 3 = Raise IndexError).
  { apply scan_and_bracket_nothing with [1; 1; 1]; [reflexivity | ].
    now apply first_neg2pos_none. }
  repeat split; [assumption | assumption | ].
  rewrite Hs. discriminate.
Qed.

Lemma electron_residual_defined (energy : list R) (p : CoreShellParticle) :
  e_h p = true \/ h_e p = true ->
  Material.m_e (cmat p) <> 0 ->
  energy <> [] ->
  exists y, electron_eigenvalue_residual energy p = Ok y.
Proof.
  intros Hflag Hm Hne.
  assert (Hlen : length energy <> O) by (destruct energy; [contradiction | discriminate]).
  unfold electron_eigenvalue_residual, electron_wavevectors.
  assert (Hres : forall k q : ndarray,
            size k = length energy -> size q = length energy ->
            exists y,
              rbind (times_width (Some k) (core_width p)) (fun core_x =>
              rbind (times_width (Some q) (shell_width p)) (fun shell_x =>
              rbind (float_div (Material.m_e (smat p)) (Material.m_e (cmat p)))
                (fun mass_ratio =>
                   _residual core_x shell_x (core_width p) (shell_width p) mass_ratio)))
              = Ok y).
  { intros k q Hk Hq. cbn [times_width rbind].
    rewrite float_div_ok by assumption. cbn [rbind].
    unfold _residual. rewrite !tanxdivx_ok by (rewrite size_nd_map; congruence).
    cbn [rbind]. eexists; reflexivity. }
  destruct (e_h p).
  - apply Hres; apply size_wavenumber.
  - destruct (h_e p).
    + apply Hres; apply size_wavenumber.
    + destruct Hflag; discriminate.
Qed.

Lemma neg2pos_at_single (v : R) (i : nat) : ~ neg2pos_at [v] i.
Proof. intros H. apply neg2pos_at_length in H. simpl in H. lia. Qed.

Lemma h_e_particle_II : h_e particle_II = true.
Proof.
  unfold particle_II. rewrite h_e_init. unfold float_gt.
  rewrite !float_lt_true; simpl; auto; lra.
Qed.

Lemma scan_without_transition_raises_witness :
  scan_and_bracket (fun _ => Ok [1; 1; 1]) 0 1 3 = Raise IndexError
  /\ calculate_s1_energies (fun _ a b => Ok ((a + b) / 2)) None 1 true
       (mkHeap particle_II 0)
     = (Raise IndexError, mkHeap particle_II 1).
Proof.
  split.
  - apply (proj1 (scan_without_transition_raises (fun _ a b => Ok ((a + b) / 2))))
      with (y := [1; 1; 1]); [reflexivity | ].
    intros i. apply neg2pos_at_positive. repeat constructor; lra.
  - apply (proj1 (proj2 (scan_without_transition_raises
                           (fun _ a b => Ok ((a + b) / 2)))));
      [reflexivity | ].
    destruct (electron_residual_defined [0] particle_II) as [y Hy].
    + right. apply h_e_particle_II.
    + simpl. lra.
    + discriminate.
    + apply (proj1 (scan_without_transition_raises (fun _ a b => Ok ((a + b) / 2))))
        with (y := y); [exact Hy | ].
      pose proof (electron_residual_length _ _ _ Hy) as Hlen.
      destruct y as [ | v [ | ? ?]]; try discriminate.
      apply neg2pos_at_single.
Defined.

(** ** Selection of the bracket and refinement *)

Lemma hole_residual_ignores_s1_e (energy : list R) (v : option R)
    (p : CoreShellParticle) :
  hole_eigenvalue_residual energy (with_s1_e v p) = hole_eigenvalue_residual energy p.
Proof. reflexivity. Qed.

Section Refinement.

Variable brentq_iterate : (R -> result R) -> R -> R -> result R.

Lemma brentq_opposite_signs (f : R -> result R) (a b r : R) :
  brentq brentq_iterate f a b = Ok r ->
  exists fa fb, f a = Ok fa /\ f b = Ok fb /\ fa * fb <= 0.
Proof.
  unfold brentq. destruct (f a) as [fa | ]; [ | discriminate].
  destruct (f b) as [fb | ]; [ | discriminate]. cbn [rbind].
  intros H. exists fa, fb. repeat split.
  destruct (Req_dec_T fa 0) as [-> | Ha]; [lra | ].
  destruct (Req_dec_T fb 0) as [-> | Hb]; [lra | ].
  destruct (Rlt_dec 0 (fa * fb)); [discriminate | lra].
Qed.

Lemma calculate_s1_energies_success resolution as_ev self n
    bracket_e root_e bracket_h root_h :
  energies_valid self = false ->
  scan_and_bracket (fun en => electron_eigenvalue_residual en self)
    0 (5 * ue self) resolution = Ok bracket_e ->
  brentq brentq_iterate
    (at_scalar (fun en => electron_eigenvalue_residual en self))
    (fst bracket_e) (snd bracket_e) = Ok root_e ->
  scan_and_bracket (fun en => hole_eigenvalue_residual en self)
    0 (5 * uh self) resolution = Ok bracket_h ->
  brentq brentq_iterate
    (at_scalar (fun en => hole_eigenvalue_residual en self))
    (fst bracket_h) (snd bracket_h) = Ok root_h ->
  calculate_s1_energies brentq_iterate None resolution as_ev (mkHeap self n) =
  (Ok (Some (in_unit as_ev root_e), Some (in_unit as_ev root_h)),
   mkHeap (with_energies_valid true
             (with_s1_h (Some root_h) (with_s1_e (Some root_e) self)))
          (S (S n))).
Proof.
  intros Hv Hse Hbe Hsh Hbh.
  rewrite calculate_s1_energies_fresh by assumption.
  cbn [limits_e limits_h fst snd].
  rewrite Hse, Hbe. cbv zeta.
  change (fun x => hole_eigenvalue_residual x (with_s1_e (Some root_e) self))
    with (fun x => hole_eigenvalue_residual x self).
  now rewrite Hsh, Hbh.
Qed.

(** C5, as amended.  The scan evaluates the residual at [resolution]
    equally spaced points and returns the pair [(x_i, x_(i+1))] of the
    first [i] at which the sign of the samples steps up, that is
    [y_i < 0 <= y_(i+1)] or [y_i = 0 < y_(i+1)]; a step down is never
    selected.  With no [bounds] argument the energy query scans
    [[0, 5 * ue]] for the electron and [[0, 5 * uh]] for the hole and
    hands each bracket to [brentq], which accepts it only when the
    residuals at its two ends do not have the same sign. *)
Theorem neg2pos_bracket_is_refined :
  (forall f lower_bound upper_bound resolution y i,
     f (linspace lower_bound upper_bound resolution) = Ok y ->
     length y = resolution ->
     neg2pos_at y i ->
     (forall j, (j < i)%nat -> ~ neg2pos_at y j) ->
     scan_and_bracket f lower_bound upper_bound resolution =
     Ok (sample lower_bound upper_bound resolution i,
         sample lower_bound upper_bound resolution (S i)))
  /\ (forall lower_bound upper_bound resolution i,
        (2 <= resolution)%nat -> (S i < resolution)%nat ->
        nth_error (linspace lower_bound upper_bound resolution) i
        = Some (sample lower_bound upper_bound resolution i)
        /\ sample lower_bound upper_bound resolution (S i)
           - sample lower_bound upper_bound resolution i
           = (upper_bound - lower_bound) / INR (resolution - 1))
  /\ (forall a b, rising a b <-> (a < 0 /\ 0 <= b) \/ (a <= 0 /\ 0 < b))
  /\ (forall resolution as_ev self n bracket_e root_e bracket_h root_h,
        energies_valid self = false ->
        scan_and_bracket (fun en => electron_eigenvalue_residual en self)
          0 (5 * ue self) resolution = Ok bracket_e ->
        brentq brentq_iterate
          (at_scalar (fun en => electron_eigenvalue_residual en self))
          (fst bracket_e) (snd bracket_e) = Ok root_e ->
        scan_and_bracket (fun en => hole_eigenvalue_residual en self)
          0 (5 * uh self) resolution = Ok bracket_h ->
        brentq brentq_iterate
          (at_scalar (fun en => hole_eigenvalue_residual en self))
          (fst bracket_h) (snd bracket_h) = Ok root_h ->
        calculate_s1_energies brentq_iterate None resolution as_ev (mkHeap self n) =
        (Ok (Some (in_unit as_ev root_e), Some (in_unit as_ev root_h)),
         mkHeap (with_energies_valid true
                   (with_s1_h (Some root_h) (with_s1_e (Some root_e) self)))
                (S (S n))))
  /\ (forall f a b r,
        brentq brentq_iterate f a b = Ok r ->
        exists fa fb, f a = Ok fa /\ f b = Ok fb /\ fa * fb <= 0).
Proof.
  split; [ | split; [ | split; [ | split]]].
  - intros f lo hi res y i Hf Hlen Hat Hmin.
    apply scan_and_bracket_selects with y; auto.
    apply first_neg2pos_some. split; assumption.
  - intros lo hi res i Hres Hi. split; [apply linspace_nth; lia | ].
    unfold sample. rewrite S_INR. field. apply not_0_INR. lia.
  - apply rising_iff.
  - intros res as_ev self n be re bh rh. apply calculate_s1_energies_success.
  - apply brentq_opposite_signs.
Qed.

(** C2. The first query on stale energies returns them in electron-volts
    and stores them in joules; the second query scans nothing and returns
    the stored joules, [e] times the first result, which is another
    value as soon as the energy is not 0. *)
Theorem cached_energies_lose_unit bounds resolution self n r h :
  energies_valid self = false ->
  calculate_s1_energies brentq_iterate bounds resolution true (mkHeap self n)
  = (Ok r, h) ->
  exists joule_e joule_h,
    r = (Some (joule_e / e), Some (joule_h / e))
    /\ calculate_s1_energies brentq_iterate bounds resolution true h
       = (Ok (Some joule_e, Some joule_h), h)
    /\ scan_calls h = S (S n)
    /\ (joule_e <> 0 -> Some joule_e <> Some (joule_e / e)).
Proof.
  intros Hv. rewrite calculate_s1_energies_fresh by assumption.
  destruct (scan_and_bracket _ _ _ resolution) as [be | ]; [ | discriminate].
  destruct (brentq _ _ (fst be) (snd be)) as [re | ]; [ | discriminate].
  cbv zeta.
  destruct (scan_and_bracket _ _ _ resolution) as [bh | ]; [ | discriminate].
  destruct (brentq _ _ (fst bh) (snd bh)) as [rh | ]; [ | discriminate].
  intros [= <- <-]. exists re, rh.
  split; [reflexivity | ].
  split; [now rewrite calculate_s1_energies_cached | ].
  split; [reflexivity | ].
  intros Hne [= H]. pose proof e_pos as He.
  assert (H1 : re * e = re).
  { rewrite H at 1. field. lra. }
  assert (H2 : re * (e - 1) = 0) by lra.
  apply Rmult_integral in H2. unfold e in H2. lra.
Qed.

End Refinement.

(** ** A run of the energy query in closed form *)

Lemma d_demo_pos : 0 < d_demo.
Proof.
  unfold d_demo. pose proof hbar_pos. pose proof m_e_pos. pose proof e_pos.
  apply Rdiv_lt_0_compat; nra.
Qed.

Lemma ue_demo : ue particle_demo = hbar * hbar / (8 * m_e).
Proof.
  simpl. pose proof d_demo_pos. rewrite Rminus_0_r, Rabs_pos_eq by lra.
  unfold d_demo. pose proof m_e_pos. pose proof e_pos. field. lra.
Qed.

Lemma uh_demo : uh particle_demo = hbar * hbar / (8 * m_e).
Proof.
  simpl. pose proof d_demo_pos. rewrite Rminus_0_r, Rabs_pos_eq by lra.
  unfold d_demo. pose proof m_e_pos. pose proof e_pos. field. lra.
Qed.

Lemma width_demo : w_demo * n_ = 3 * (PI / 4).
Proof. unfold w_demo. pose proof n__pos. field. lra. Qed.

Lemma h_e_demo : h_e particle_demo = true.
Proof.
  unfold particle_demo. rewrite h_e_init. unfold float_gt. pose proof d_demo_pos.
  rewrite !float_lt_true; simpl; auto.
Qed.

Lemma e_h_demo : e_h particle_demo = false.
Proof.
  unfold particle_demo. rewrite e_h_init. pose proof d_demo_pos.
  rewrite float_lt_false; simpl; auto. lra.
Qed.

(** *** Complex arithmetic on embedded reals *)

Lemma Cdiv_RtoC (a b : R) : b <> 0 -> Cdiv (RtoC a) (RtoC b) = RtoC (a / b).
Proof. intros H. unfold Cdiv, RtoC; simpl. f_equal; field; assumption. Qed.

Lemma Cmul_RtoC (a b : R) : Cmul (RtoC a) (RtoC b) = RtoC (a * b).
Proof. unfold Cmul, RtoC; simpl. f_equal; ring. Qed.

Lemma Csub_RtoC (a b : R) : Csub (RtoC a) (RtoC b) = RtoC (a - b).
Proof. unfold Csub, RtoC; simpl. f_equal; ring. Qed.

Lemma Cabs_RtoC (a : R) : Cabs (RtoC a) = Rabs a.
Proof.
  unfold Cabs, RtoC; simpl. replace (a * a + 0 * 0) with (Rsqr a) by (unfold Rsqr; ring).
  apply sqrt_Rsqr_abs.
Qed.

Lemma Cabs_imaginary (y : R) : Cabs (mkC 0 y) = Rabs y.
Proof.
  unfold Cabs; simpl. replace (0 * 0 + y * y) with (Rsqr y) by (unfold Rsqr; ring).
  apply sqrt_Rsqr_abs.
Qed.

Lemma cosh_pos (y : R) : 0 < cosh y.
Proof. unfold cosh. pose proof (exp_pos y). pose proof (exp_pos (- y)). lra. Qed.

Lemma Ctan_RtoC (a : R) : cos a <> 0 -> Ctan (RtoC a) = RtoC (tan a).
Proof.
  intros H. unfold Ctan, Csin, Ccos, Cdiv, RtoC, tan; simpl.
  rewrite cosh_0, sinh_0. f_equal; field; assumption.
Qed.

Lemma Ctan_imaginary (y : R) : Ctan (mkC 0 y) = mkC 0 (sinh y / cosh y).
Proof.
  unfold Ctan, Csin, Ccos, Cdiv; simpl. rewrite sin_0, cos_0.
  pose proof (cosh_pos y). f_equal; field; lra.
Qed.

Lemma tanxdivx_RtoC (a : R) :
  1e-13 <= Rabs a -> cos a <> 0 -> _tanxdivx (RtoC a) = RtoC (tan a / a).
Proof.
  intros Ha Hc. unfold _tanxdivx; simpl. rewrite Cabs_RtoC.
  rewrite Rlt_dec_false by lra. rewrite Ctan_RtoC by assumption.
  apply Cdiv_RtoC. intros ->. rewrite Rabs_R0 in Ha. lra.
Qed.

Lemma tanxdivx_imaginary (y : R) :
  1e-13 <= Rabs y -> _tanxdivx (mkC 0 y) = RtoC (sinh y / cosh y / y).
Proof.
  intros Hy. unfold _tanxdivx; simpl. rewrite Cabs_imaginary.
  rewrite Rlt_dec_false by lra. rewrite Ctan_imaginary.
  assert (y <> 0) by (intros ->; rewrite Rabs_R0 in Hy; lra).
  unfold Cdiv, RtoC; simpl. pose proof (cosh_pos y). f_equal; field; lra.
Qed.

Lemma tanxdivx_float (a : R) :
  1e-13 <= Rabs a -> _tanxdivx a = tan a / a.
Proof. intros Ha. unfold _tanxdivx; simpl. now rewrite Rlt_dec_false by lra. Qed.

Lemma tanxdivx_float_0 : _tanxdivx 0 = 1.
Proof. unfold _tanxdivx; simpl. rewrite Rabs_R0, Rlt_dec_true by lra. lra. Qed.

Lemma tan_3PI4 : tan (3 * (PI / 4)) = -1.
Proof.
  unfold tan. rewrite sin_3PI4, cos_3PI4. pose proof Rlt_sqrt2_0. field. lra.
Qed.

Lemma cos_3PI4_neq : cos (3 * (PI / 4)) <> 0.
Proof.
  rewrite cos_3PI4. pose proof Rlt_sqrt2_0.
  assert (0 < 1 / sqrt 2) by (apply Rdiv_lt_0_compat; lra).
  unfold Rdiv in *. lra.
Qed.

Lemma csqrt_pair_mixed (a b : R) :
  a < 0 -> 0 <= b -> csqrt [a; b] = complex128 [mkC 0 (sqrt (- a)); mkC (sqrt b) 0].
Proof.
  intros Ha Hb. unfold csqrt, Csqrt_real; simpl.
  rewrite (Rlt_dec_true a 0) by assumption. simpl.
  rewrite (Rlt_dec_true a 0) by assumption.
  rewrite (Rlt_dec_false b 0) by lra. reflexivity.
Qed.

Lemma csqrt_pair_nonneg (a b : R) :
  0 <= a -> 0 <= b -> csqrt [a; b] = float64 [sqrt a; sqrt b].
Proof.
  intros Ha Hb. unfold csqrt; simpl.
  rewrite (Rlt_dec_false a 0) by lra. rewrite (Rlt_dec_false b 0) by lra.
  reflexivity.
Qed.

Lemma sqrt_hbar2 : sqrt (hbar * hbar) = hbar.
Proof. apply sqrt_square. pose proof hbar_pos. lra. Qed.

Lemma sqrt_hbar2_4 : sqrt (hbar * hbar / 4) = hbar / 2.
Proof.
  replace (hbar * hbar / 4) with (hbar / 2 * (hbar / 2)) by field.
  apply sqrt_square. pose proof hbar_pos. lra.
Qed.

(** *** The example particle at the two default samples *)

Lemma core_wavenumber_demo_pair :
  wavenumber_from_energy [0; 5 * ue particle_demo] 1 (ue particle_demo) =
  complex128 [mkC 0 (1 / 2); RtoC 1].
Proof.
  rewrite ue_demo. unfold wavenumber_from_energy. pose proof m_e_pos. pose proof hbar_pos.
  cbn [map].
  replace (2 * 1 * m_e * (0 - hbar * hbar / (8 * m_e))) with (- (hbar * hbar / 4)) by (field; lra).
  replace (2 * 1 * m_e * (5 * (hbar * hbar / (8 * m_e)) - hbar * hbar / (8 * m_e)))
    with (hbar * hbar) by (field; lra).
  rewrite csqrt_pair_mixed by nra.
  rewrite Ropp_involutive, sqrt_hbar2, sqrt_hbar2_4.
  unfold nd_map; cbn [map]. unfold ndiv, of_float; cbn. unfold Cdiv, RtoC; simpl.
  do 2 f_equal; [ f_equal; field; lra | f_equal; f_equal; field; lra ].
Qed.

Lemma shell_wavenumber_demo_pair :
  wavenumber_from_energy [0; 5 * ue particle_demo] (4 / 5) 0 = float64 [0; 1].
Proof.
  rewrite ue_demo. unfold wavenumber_from_energy. pose proof m_e_pos. pose proof hbar_pos.
  cbn [map].
  replace (2 * (4 / 5) * m_e * (0 - 0)) with 0 by ring.
  replace (2 * (4 / 5) * m_e * (5 * (hbar * hbar / (8 * m_e)) - 0))
    with (hbar * hbar) by (field; lra).
  rewrite csqrt_pair_nonneg by nra.
  rewrite sqrt_0, sqrt_hbar2.
  unfold nd_map; cbn [map]. unfold ndiv, of_float; cbn.
  do 2 f_equal; [ field; lra | f_equal; field; lra ].
Qed.

Lemma Cmul_imaginary_RtoC (y a : R) : Cmul (mkC 0 y) (RtoC a) = mkC 0 (y * a).
Proof. unfold Cmul, RtoC; simpl. f_equal; ring. Qed.

Lemma T0_pos : 0 < T0.
Proof.
  unfold T0. pose proof PI_gt_3.
  assert (0 < sinh (3 * (PI / 8))).
  { rewrite <- sinh_0. apply sinh_lt. lra. }
  pose proof (cosh_pos (3 * (PI / 8))).
  apply Rdiv_lt_0_compat; [apply Rdiv_lt_0_compat; assumption | lra].
Qed.

Lemma T1_value : T1 = - (4 / (3 * PI)).
Proof. unfold T1. rewrite tan_3PI4. pose proof PI_gt_3. field. lra. Qed.

Lemma T1_neg : T1 < 0.
Proof.
  rewrite T1_value. pose proof PI_gt_3.
  assert (0 < 4 / (3 * PI)) by (apply Rdiv_lt_0_compat; lra). lra.
Qed.

Lemma tanxdivx_demo_imaginary : _tanxdivx (mkC 0 (3 * (PI / 8))) = RtoC T0.
Proof.
  apply tanxdivx_imaginary. pose proof PI_gt_3. rewrite Rabs_pos_eq; lra.
Qed.

Lemma tanxdivx_demo_complex : _tanxdivx (RtoC (3 * (PI / 4))) = RtoC T1.
Proof.
  apply tanxdivx_RtoC; [ | apply cos_3PI4_neq].
  pose proof PI_gt_3. rewrite Rabs_pos_eq; lra.
Qed.

Lemma tanxdivx_demo_float : _tanxdivx (3 * (PI / 4)) = T1.
Proof.
  apply tanxdivx_float. pose proof PI_gt_3. rewrite Rabs_pos_eq; lra.
Qed.

Lemma residual_demo_pair :
  electron_eigenvalue_residual [0; 5 * ue particle_demo] particle_demo =
  Ok [y0_demo; y1_demo].
Proof.
  unfold electron_eigenvalue_residual, electron_wavevectors.
  rewrite e_h_demo, h_e_demo.
  change (Material.m_e (cmat particle_demo)) with 1.
  change (Material.m_e (smat particle_demo)) with (4 / 5).
  rewrite core_wavenumber_demo_pair, shell_wavenumber_demo_pair.
  change (core_width particle_demo) with (w_demo * n_).
  change (shell_width particle_demo) with (w_demo * n_).
  rewrite width_demo.
  cbn [times_width rbind nd_map map].
  rewrite float_div_ok by lra. cbn [rbind].
  unfold _residual. rewrite !tanxdivx_ok by (simpl; discriminate).
  cbn [rbind nd_map map nd_map2 astype_complex zip_with np_real].
  cbn [nmul nsub ndiv of_float complex_Number float_Number].
  rewrite Cmul_imaginary_RtoC, Cmul_RtoC, Rmult_0_l, !Rmult_1_l.
  replace (1 / 2 * (3 * (PI / 4))) with (3 * (PI / 8)) by field.
  rewrite tanxdivx_demo_imaginary, tanxdivx_demo_complex, tanxdivx_demo_float,
    tanxdivx_float_0.
  pose proof T0_pos. pose proof T1_neg. pose proof PI_gt_3.
  rewrite !Cdiv_RtoC by lra.
  rewrite !Csub_RtoC, !Cmul_RtoC, !Csub_RtoC.
  cbn [Re RtoC].
  unfold y0_demo, y1_demo, residual_value.
  do 2 f_equal; [field; lra | f_equal; field; lra].
Qed.

Lemma y0_demo_neg : y0_demo < 0.
Proof.
  unfold y0_demo, residual_value. pose proof T0_pos as HT. pose proof PI_gt_3.
  assert (H1 : 0 < 1 / T0) by (apply Rdiv_lt_0_compat; lra).
  replace (1 / 1 * (3 * (PI / 4)) / (3 * (PI / 4))) with 1 by (field; lra).
  lra.
Qed.

Lemma y1_demo_pos : 0 < y1_demo.
Proof.
  unfold y1_demo, residual_value. rewrite T1_value. pose proof PI_gt_3.
  replace (1 / - (4 / (3 * PI))) with (- (3 * PI / 4)) by (field; lra).
  replace (- (3 * PI / 4) * (3 * (PI / 4)) / (3 * (PI / 4))) with (- (3 * PI / 4))
    by (field; lra).
  lra.
Qed.

Lemma residual_demo_at_0 :
  electron_eigenvalue_residual [0] particle_demo = Ok [y0_demo].
Proof.
  unfold electron_eigenvalue_residual, electron_wavevectors.
  rewrite e_h_demo, h_e_demo.
  change (Material.m_e (cmat particle_demo)) with 1.
  change (Material.m_e (smat particle_demo)) with (4 / 5).
  rewrite !wavenumber_from_energy_scalar. cbv zeta.
  rewrite ue_demo. pose proof m_e_pos. pose proof hbar_pos.
  replace (2 * 1 * m_e * (0 - hbar * hbar / (8 * m_e))) with (- (hbar * hbar / 4)) by (field; lra).
  replace (2 * (4 / 5) * m_e * (0 - 0)) with 0 by ring.
  rewrite Rlt_dec_true by nra. rewrite Rlt_dec_false by lra.
  rewrite Ropp_involutive, sqrt_hbar2_4, sqrt_0.
  replace (hbar / 2 / hbar) with (1 / 2) by (field; lra).
  replace (0 / hbar) with 0 by (field; lra).
  change (core_width particle_demo) with (w_demo * n_).
  change (shell_width particle_demo) with (w_demo * n_).
  rewrite width_demo.
  cbn [times_width rbind nd_map map].
  rewrite float_div_ok by lra. cbn [rbind].
  unfold _residual. rewrite !tanxdivx_ok by (simpl; discriminate).
  cbn [rbind nd_map map nd_map2 astype_complex zip_with np_real].
  cbn [nmul nsub ndiv of_float complex_Number float_Number].
  rewrite Cmul_imaginary_RtoC, Rmult_0_l.
  replace (1 / 2 * (3 * (PI / 4))) with (3 * (PI / 8)) by field.
  rewrite tanxdivx_demo_imaginary, tanxdivx_float_0.
  pose proof T0_pos. pose proof PI_gt_3.
  rewrite !Cdiv_RtoC by lra.
  rewrite !Csub_RtoC, !Cmul_RtoC, !Csub_RtoC.
  cbn [Re RtoC].
  unfold y0_demo, residual_value.
  do 2 f_equal; field; lra.
Qed.

Lemma residual_demo_at_top :
  electron_eigenvalue_residual [5 * ue particle_demo] particle_demo = Ok [y1_demo].
Proof.
  unfold electron_eigenvalue_residual, electron_wavevectors.
  rewrite e_h_demo, h_e_demo.
  change (Material.m_e (cmat particle_demo)) with 1.
  change (Material.m_e (smat particle_demo)) with (4 / 5).
  rewrite !wavenumber_from_energy_scalar. cbv zeta.
  rewrite ue_demo. pose proof m_e_pos. pose proof hbar_pos.
  replace (2 * 1 * m_e * (5 * (hbar * hbar / (8 * m_e)) - hbar * hbar / (8 * m_e)))
    with (hbar * hbar) by (field; lra).
  replace (2 * (4 / 5) * m_e * (5 * (hbar * hbar / (8 * m_e)) - 0))
    with (hbar * hbar) by (field; lra).
  rewrite !Rlt_dec_false by nra.
  rewrite sqrt_hbar2.
  replace (hbar / hbar) with 1 by (field; lra).
  change (core_width particle_demo) with (w_demo * n_).
  change (shell_width particle_demo) with (w_demo * n_).
  rewrite width_demo.
  cbn [times_width rbind nd_map map].
  rewrite float_div_ok by lra. cbn [rbind].
  unfold _residual. rewrite !tanxdivx_ok by (simpl; discriminate).
  cbn [rbind nd_map map nd_map2 astype_complex zip_with np_real].
  cbn [nmul nsub ndiv of_float complex_Number float_Number].
  rewrite !Rmult_1_l, tanxdivx_demo_float.
  pose proof T1_neg. pose proof PI_gt_3.
  unfold y1_demo, residual_value.
  do 2 f_equal; field; lra.
Qed.

Lemma linspace_two (start stop : R) : linspace start stop 2 = [start; stop].
Proof.
  unfold linspace. cbn [seq map INR]. f_equal; [ring | f_equal; field].
Qed.

Lemma hole_residual_demo (energy : list R) :
  hole_eigenvalue_residual energy particle_demo =
  electron_eigenvalue_residual energy particle_demo.
Proof. reflexivity. Qed.

Lemma first_neg2pos_demo : first_neg2pos [y0_demo; y1_demo] = Some O.
Proof.
  rewrite first_neg2pos_cons. pose proof y0_demo_neg. pose proof y1_demo_pos.
  apply Rlt_dec_true. unfold np_sign.
  rewrite (Rlt_dec_false y1_demo 0), (Rlt_dec_true 0 y1_demo) by lra.
  rewrite (Rlt_dec_true y0_demo 0) by lra. lra.
Qed.

Lemma scan_demo :
  scan_and_bracket (fun en => electron_eigenvalue_residual en particle_demo)
    0 (5 * ue particle_demo) 2 = Ok (0, 5 * ue particle_demo).
Proof.
  rewrite scan_and_bracket_selects with (y := [y0_demo; y1_demo]) (i := O).
  - f_equal. f_equal; [apply sample_first | ].
    apply (sample_last 0 (5 * ue particle_demo) 2). lia.
  - rewrite linspace_two. apply residual_demo_pair.
  - reflexivity.
  - apply first_neg2pos_demo.
Qed.

Lemma brentq_demo :
  brentq bisect (at_scalar (fun en => electron_eigenvalue_residual en particle_demo))
    0 (5 * ue particle_demo) = Ok ((0 + 5 * ue particle_demo) / 2).
Proof.
  unfold brentq, at_scalar. rewrite residual_demo_at_0, residual_demo_at_top.
  cbn [rbind]. pose proof y0_demo_neg. pose proof y1_demo_pos.
  rewrite !Req_dec_false by lra.
  rewrite Rlt_dec_false by nra. reflexivity.
Qed.

Lemma root_demo_pos : 0 < root_demo.
Proof.
  unfold root_demo. rewrite ue_demo. pose proof hbar_pos. pose proof m_e_pos.
  assert (0 < hbar * hbar / (8 * m_e)) by (apply Rdiv_lt_0_compat; nra). lra.
Qed.

Lemma query_demo (as_ev : bool) (n : nat) :
  calculate_s1_energies bisect None 2 as_ev (mkHeap particle_demo n) =
  (Ok (Some (in_unit as_ev root_demo), Some (in_unit as_ev root_demo)),
   mkHeap (with_energies_valid true
             (with_s1_h (Some root_demo) (with_s1_e (Some root_demo) particle_demo)))
          (S (S n))).
Proof.
  apply calculate_s1_energies_success
    with (bracket_e := (0, 5 * ue particle_demo))
         (bracket_h := (0, 5 * uh particle_demo)).
  - reflexivity.
  - apply scan_demo.
  - apply brentq_demo.
  - rewrite uh_demo, <- ue_demo. apply scan_demo.
  - rewrite uh_demo, <- ue_demo. apply brentq_demo.
Qed.

Lemma neg2pos_at_demo : neg2pos_at [y0_demo; y1_demo] 0.
Proof.
  exists y0_demo, y1_demo. repeat split.
  apply rising_iff. pose proof y0_demo_neg. pose proof y1_demo_pos. lra.
Qed.

Lemma neg2pos_bracket_is_refined_witness :
  scan_and_bracket (fun en => electron_eigenvalue_residual en particle_demo)
    0 (5 * ue particle_demo) 2
  = Ok (sample 0 (5 * ue particle_demo) 2 0, sample 0 (5 * ue particle_demo) 2 1)
  /\ calculate_s1_energies bisect None 2 true (mkHeap particle_demo 0)
     = (Ok (Some (in_unit true root_demo), Some (in_unit true root_demo)), heap_demo)
  /\ exists fa fb,
       at_scalar (fun en => electron_eigenvalue_residual en particle_demo) 0 = Ok fa
       /\ at_scalar (fun en => electron_eigenvalue_residual en particle_demo)
            (5 * ue particle_demo) = Ok fb
       /\ fa * fb <= 0.
Proof.
  split; [ | split].
  - apply (proj1 (neg2pos_bracket_is_refined bisect)) with (y := [y0_demo; y1_demo]).
    + rewrite linspace_two. apply residual_demo_pair.
    + reflexivity.
    + apply neg2pos_at_demo.
    + intros j Hj. lia.
  - apply (proj1 (proj2 (proj2 (proj2 (neg2pos_bracket_is_refined bisect)))))
      with (bracket_e := (0, 5 * ue particle_demo))
           (bracket_h := (0, 5 * uh particle_demo)).
    + reflexivity.
    + apply scan_demo.
    + apply brentq_demo.
    + rewrite uh_demo, <- ue_demo. apply scan_demo.
    + rewrite uh_demo, <- ue_demo. apply brentq_demo.
  - apply (proj2 (proj2 (proj2 (proj2 (neg2pos_bracket_is_refined bisect)))))
      with (r := root_demo).
    apply brentq_demo.
Defined.

Lemma scan_zero_sample :
  scan_and_bracket (fun _ => Ok [0; 1; -1; 1]) 0 3 4 = Ok (0, 1).
Proof.
  rewrite scan_and_bracket_selects with (y := [0; 1; -1; 1]) (i := O);
    try reflexivity.
  - unfold sample. cbn [INR Nat.sub]. do 2 f_equal; field.
  - rewrite first_neg2pos_cons. apply Rlt_dec_true. unfold np_sign.
    rewrite (Rlt_dec_false 1 0), (Rlt_dec_true 0 1) by lra.
    rewrite (Rlt_dec_false 0 0), (Rlt_dec_false 0 0) by lra. lra.
Qed.

Lemma residual_demo_top_pair :
  electron_eigenvalue_residual [5 * ue particle_demo; 5 * ue particle_demo]
    particle_demo = Ok [y1_demo; y1_demo].
Proof.
  unfold electron_eigenvalue_residual, electron_wavevectors.
  rewrite e_h_demo, h_e_demo.
  change (Material.m_e (cmat particle_demo)) with 1.
  change (Material.m_e (smat particle_demo)) with (4 / 5).
  unfold wavenumber_from_energy. cbn [map].
  rewrite ue_demo. pose proof m_e_pos. pose proof hbar_pos.
  replace (2 * 1 * m_e * (5 * (hbar * hbar / (8 * m_e)) - hbar * hbar / (8 * m_e)))
    with (hbar * hbar) by (field; lra).
  replace (2 * (4 / 5) * m_e * (5 * (hbar * hbar / (8 * m_e)) - 0))
    with (hbar * hbar) by (field; lra).
  rewrite csqrt_pair_nonneg by nra.
  rewrite sqrt_hbar2.
  cbn [nd_map map ndiv of_float float_Number].
  replace (hbar / hbar) with 1 by (field; lra).
  change (core_width particle_demo) with (w_demo * n_).
  change (shell_width particle_demo) with (w_demo * n_).
  rewrite width_demo.
  cbn [times_width rbind nd_map map].
  rewrite float_div_ok by lra. cbn [rbind].
  unfold _residual. rewrite !tanxdivx_ok by (simpl; discriminate).
  cbn [rbind nd_map map nd_map2 astype_complex zip_with np_real].
  cbn [nmul nsub ndiv of_float complex_Number float_Number].
  rewrite !Rmult_1_l, tanxdivx_demo_float.
  pose proof T1_neg. pose proof PI_gt_3.
  unfold y1_demo, residual_value.
  do 2 f_equal; [field; lra | f_equal; field; lra].
Qed.

Lemma query_with_bounds_demo :
  calculate_s1_energies bisect bounds_demo 2 true (mkHeap particle_demo 0)
  = (Raise IndexError, mkHeap particle_demo 1).
Proof.
  rewrite calculate_s1_energies_fresh by reflexivity.
  cbn [bounds_demo limits_e limits_h fst snd].
  rewrite scan_and_bracket_nothing with (y := [y1_demo; y1_demo]).
  - reflexivity.
  - rewrite linspace_two. apply residual_demo_top_pair.
  - rewrite first_neg2pos_cons. rewrite Rlt_dec_false; [reflexivity | lra].
Qed.

(** C5, as stated, fails in two ways.  A sample that is exactly zero
    ends a transition: on the samples [0, 1, -1, 1] the first negative
    sample followed by a positive one is at position 2, yet the scan
    returns the pair of positions 0 and 1, where the sign steps from 0 to
    1.  And the range is [[0, 5 * ue]] only by default: with [bounds] the
    electron scan of [particle_demo] samples [5 * ue] twice and raises,
    while the scan of the default range finds the bracket [(0, 5 * ue)]. *)
Lemma scan_selects_zero_to_positive :
  strictly_neg2pos_at [0; 1; -1; 1] 2
  /\ (forall j, (j < 2)%nat -> ~ strictly_neg2pos_at [0; 1; -1; 1] j)
  /\ scan_and_bracket (fun _ => Ok [0; 1; -1; 1]) 0 3 4 = Ok (0, 1)
  /\ scan_and_bracket (fun _ => Ok [0; 1; -1; 1]) 0 3 4
     <> Ok (sample 0 3 4 2, sample 0 3 4 3)
  /\ calculate_s1_energies bisect bounds_demo 2 true (mkHeap particle_demo 0)
     = (Raise IndexError, mkHeap particle_demo 1)
  /\ scan_and_bracket (fun en => electron_eigenvalue_residual en particle_demo)
       0 (5 * ue particle_demo) 2 = Ok (0, 5 * ue particle_demo).
Proof.
  split; [ | split; [ | split; [ | split; [ | split]]]].
  - exists (-1), 1. repeat split; lra.
  - intros [ | [ | j]] Hj (a & b & Ha & Hb & Hab); simpl in Ha, Hb; try lia.
    + injection Ha as <-. lra.
    + injection Hb as <-. lra.
  - exact scan_zero_sample.
  - rewrite scan_zero_sample. unfold sample. cbn [INR Nat.sub].
    intros [= H _]. lra.
  - exact query_with_bounds_demo.
  - exact scan_demo.
Qed.

(** * Further properties of the code *)

(** ** Step function and pairwise operators *)

(** X1. With the value 0.5 at zero that both operators pass, the weights
    "inside the core" and "outside the core" of a radius always add up to
    one, and each lies between 0 and 1. *)
Theorem heaviside_inside_outside_complement (r_c r : R) :
  _heaviside (r_c - r) 0.5 + _heaviside (r - r_c) 0.5 = 1
  /\ 0 <= _heaviside (r_c - r) 0.5 <= 1.
Proof.
  rewrite !heaviside_half_is_step.
  destruct (Rtotal_order r r_c) as [H | [H | H]].
  - rewrite step_pos, step_neg by lra. lra.
  - subst. replace (r_c - r_c) with 0 by ring.
    unfold step. rewrite !Rlt_dec_false by lra. lra.
  - rewrite step_neg, step_pos by lra. lra.
Qed.

Lemma float_div_comm_arg (x x' y y' : R) :
  x = x' -> y = y' -> float_div x y = float_div x' y'.
Proof. now intros -> ->. Qed.

(** X2. The Coulomb screening operator is symmetric in its two radii,
    errors included. *)
Theorem coulomb_screening_operator_symmetric (p : CoreShellParticle) (r_a r_b : R) :
  make_coulomb_screening_operator p r_a r_b =
  make_coulomb_screening_operator p r_b r_a.
Proof.
  unfold make_coulomb_screening_operator; cbv zeta.
  rewrite (Rmax_comm r_b r_a).
  rewrite (float_div_comm_arg
             (- _heaviside (core_width p / n_ - r_b) 0.5
              * _heaviside (core_width p / n_ - r_a) 0.5)
             (- _heaviside (core_width p / n_ - r_a) 0.5
              * _heaviside (core_width p / n_ - r_b) 0.5)
             (Rmax r_a r_b * Material.eps (cmat p) * eps0)
             (Rmax r_a r_b * Material.eps (cmat p) * eps0)) by (auto; ring).
  rewrite (float_div_comm_arg
             (_heaviside (r_b - core_width p / n_) 0.5
              + _heaviside (r_a - core_width p / n_) 0.5)
             (_heaviside (r_a - core_width p / n_) 0.5
              + _heaviside (r_b - core_width p / n_) 0.5)
             (2 * Rmax r_a r_b * Material.eps (smat p) * eps0)
             (2 * Rmax r_a r_b * Material.eps (smat p) * eps0)) by (auto; ring).
  reflexivity.
Qed.

Lemma Rmax_pos (a b : R) : 0 < a -> 0 < Rmax a b.
Proof. intros H. apply Rlt_le_trans with a; [assumption | apply Rmax_l]. Qed.

Lemma step_range (x : R) : 0 <= step x <= 1.
Proof.
  unfold step. destruct (Rlt_dec x 0); [lra | ].
  destruct (Rlt_dec 0 x); lra.
Qed.

Lemma step_complement (x : R) : step x + step (- x) = 1.
Proof.
  destruct (Rtotal_order x 0) as [H | [H | H]].
  - rewrite step_neg, step_pos by lra. lra.
  - subst. rewrite Ropp_0. unfold step. rewrite !Rlt_dec_false by lra. lra.
  - rewrite step_pos, step_neg by lra. lra.
Qed.

(** X3. For positive radii and positive dielectric constants the Coulomb
    screening operator returns a strictly negative value; with both radii
    inside the core it is [-e / (n_ eps0 core_eps max(r_a, r_b))], with
    both outside the same with [shell_eps], and with one inside and one
    outside half of the latter. *)
Theorem coulomb_screening_operator_regions (p : CoreShellParticle) (r_a r_b : R) :
  0 < r_a -> 0 < r_b ->
  0 < Material.eps (cmat p) -> 0 < Material.eps (smat p) ->
  (exists v, make_coulomb_screening_operator p r_a r_b = Ok v /\ v < 0)
  /\ (r_a < core_width p / n_ -> r_b < core_width p / n_ ->
      make_coulomb_screening_operator p r_a r_b =
      Ok (- e / (n_ * eps0 * Material.eps (cmat p) * Rmax r_a r_b)))
  /\ (core_width p / n_ < r_a -> core_width p / n_ < r_b ->
      make_coulomb_screening_operator p r_a r_b =
      Ok (- e / (n_ * eps0 * Material.eps (smat p) * Rmax r_a r_b)))
  /\ (r_a < core_width p / n_ -> core_width p / n_ < r_b ->
      make_coulomb_screening_operator p r_a r_b =
      Ok (- e / (2 * n_ * eps0 * Material.eps (smat p) * r_b))).
Proof.
  intros Ha Hb Hc Hs.
  pose proof eps0_pos as H0. pose proof e_pos as He. pose proof n__pos as Hn.
  pose proof (Rmax_pos r_a r_b Ha) as Hm.
  rewrite coulomb_screening_operator_value by lra.
  unfold coulomb_screening_amended.
  set (rc := core_width p / n_). set (ec := Material.eps (cmat p)) in *.
  set (es := Material.eps (smat p)) in *. set (m := Rmax r_a r_b) in *.
  split; [ | split; [ | split]].
  - eexists; split; [reflexivity | ].
    pose proof (step_range (rc - r_a)) as [Ha0 Ha1].
    pose proof (step_range (rc - r_b)) as [Hb0 Hb1].
    pose proof (step_complement (rc - r_a)) as Hca.
    pose proof (step_complement (rc - r_b)) as Hcb.
    replace (- (rc - r_a)) with (r_a - rc) in Hca by ring.
    replace (- (rc - r_b)) with (r_b - rc) in Hcb by ring.
    set (sa := step (rc - r_a)) in *. set (sb := step (rc - r_b)) in *.
    replace (step (r_a - rc)) with (1 - sa) by lra.
    replace (step (r_b - rc)) with (1 - sb) by lra.
    assert (Hd1 : 0 < / (m * ec * eps0)).
    { apply Rinv_0_lt_compat.
      apply Rmult_lt_0_compat; [apply Rmult_lt_0_compat | ]; assumption. }
    assert (Hd2 : 0 < / (2 * m * es * eps0)).
    { apply Rinv_0_lt_compat.
      apply Rmult_lt_0_compat; [apply Rmult_lt_0_compat | ]; try assumption.
      lra. }
    assert (Hscale : 0 < e / n_) by (apply Rdiv_lt_0_compat; assumption).
    assert (Hneg : - sa * sb / (m * ec * eps0)
                   - (1 - sa + (1 - sb)) / (2 * m * es * eps0) < 0).
    { unfold Rdiv.
      destruct (Rle_lt_dec (sa + sb) 1) as [Hle | Hgt].
      - assert (0 <= sa * sb * / (m * ec * eps0)).
        { apply Rmult_le_pos; [apply Rmult_le_pos; lra | lra]. }
        assert (0 < (1 - sa + (1 - sb)) * / (2 * m * es * eps0)).
        { apply Rmult_lt_0_compat; lra. }
        lra.
      - assert (0 < sa * sb * / (m * ec * eps0)).
        { apply Rmult_lt_0_compat; [ | lra]. nra. }
        assert (0 <= (1 - sa + (1 - sb)) * / (2 * m * es * eps0)).
        { apply Rmult_le_pos; lra. }
        lra. }
    unfold Rdiv at 1. rewrite Rmult_assoc. fold (e / n_).
    rewrite <- (Rmult_0_l (e / n_)).
    apply Rmult_lt_compat_r; assumption.
  - intros Hia Hib.
    rewrite !(step_pos (rc - _)), !(step_neg (_ - rc)) by lra.
    f_equal. field. repeat split; lra.
  - intros Hoa Hob.
    rewrite !(step_neg (rc - _)), !(step_pos (_ - rc)) by lra.
    f_equal. field. repeat split; lra.
  - intros Hia Hob.
    rewrite (step_pos (rc - r_a)), (step_neg (rc - r_b)),
      (step_neg (r_a - rc)), (step_pos (r_b - rc)) by lra.
    unfold m. rewrite Rmax_right by lra.
    f_equal. field. repeat split; lra.
Qed.

Lemma core_radius_particle_II : core_width particle_II / n_ = 1.23.
Proof. simpl. unfold n_. lra. Qed.

Lemma coulomb_screening_operator_regions_witness :
  make_coulomb_screening_operator particle_II 1 2 =
  Ok (- e / (2 * n_ * eps0 * Material.eps (smat particle_II) * 2)).
Proof.
  apply (coulomb_screening_operator_regions particle_II 1 2);
    try (simpl; lra); rewrite core_radius_particle_II; lra.
Defined.

Lemma step_scale (s x : R) : 0 < s -> step (s * x) = step x.
Proof.
  intros Hs. destruct (Rtotal_order x 0) as [H | [H | H]].
  - rewrite !step_neg; auto. nra.
  - subst. now rewrite Rmult_0_r.
  - rewrite !step_pos; auto. nra.
Qed.

Lemma step_same_side (c r c' r' : R) :
  (r < c /\ r' < c') \/ (r = c /\ r' = c') \/ (c < r /\ c' < r') ->
  step (c - r) = step (c' - r') /\ step (r - c) = step (r' - c').
Proof.
  intros [[H H'] | [[H H'] | [H H']]].
  - rewrite !step_pos, !step_neg by lra. split; reflexivity.
  - subst. replace (c - c) with 0 by ring. replace (c' - c') with 0 by ring.
    split; reflexivity.
  - rewrite !step_neg, !step_pos by lra. split; reflexivity.
Qed.

(** X4. The Coulomb screening operator depends on the core radius only
    through the side of the interface on which each radius lies, and
    follows an inverse-distance law: for two particles with the same
    dielectric constants, when [r_a] and [s * r_a] (and [r_b] and
    [s * r_b]), [s > 0], compare in the same way with the core radius
    [core_width / n_] of their particle, the value at
    [(s * r_a, s * r_b)] on the second is the value at [(r_a, r_b)] on
    the first divided by [s]. *)
Theorem coulomb_screening_operator_scaling (p p' : CoreShellParticle)
    (s r_a r_b : R) :
  0 < s -> 0 < r_a -> 0 < r_b ->
  Material.eps (cmat p) <> 0 -> Material.eps (smat p) <> 0 ->
  Material.eps (cmat p') = Material.eps (cmat p) ->
  Material.eps (smat p') = Material.eps (smat p) ->
  (r_a < core_width p / n_ /\ s * r_a < core_width p' / n_)
  \/ (r_a = core_width p / n_ /\ s * r_a = core_width p' / n_)
  \/ (core_width p / n_ < r_a /\ core_width p' / n_ < s * r_a) ->
  (r_b < core_width p / n_ /\ s * r_b < core_width p' / n_)
  \/ (r_b = core_width p / n_ /\ s * r_b = core_width p' / n_)
  \/ (core_width p / n_ < r_b /\ core_width p' / n_ < s * r_b) ->
  exists v,
    make_coulomb_screening_operator p r_a r_b = Ok v
    /\ make_coulomb_screening_operator p' (s * r_a) (s * r_b) = Ok (v / s).
Proof.
  intros Hs Ha Hb Hc Hsh Hc' Hsh' Hsa Hsb.
  pose proof eps0_pos as H0. pose proof n__pos as Hn.
  pose proof (Rmax_pos r_a r_b Ha) as Hm.
  rewrite !coulomb_screening_operator_value
    by first [assumption | congruence | nra].
  eexists; split; [reflexivity | ]. f_equal.
  unfold coulomb_screening_amended. rewrite Hc', Hsh'.
  destruct (step_same_side _ _ _ _ Hsa) as [Ha1 Ha2].
  destruct (step_same_side _ _ _ _ Hsb) as [Hb1 Hb2].
  rewrite <- Ha1, <- Ha2, <- Hb1, <- Hb2.
  rewrite RmaxRmult by lra.
  field. repeat split; lra.
Qed.

Lemma coulomb_screening_operator_scaling_witness :
  exists v,
    make_coulomb_screening_operator particle_II 1 2 = Ok v
    /\ make_coulomb_screening_operator (set_core_width 3 particle_II)
         (2 * 1) (2 * 2) = Ok (v / 2).
Proof.
  assert (H3 : core_width (set_core_width 3 particle_II) / n_ = 3).
  { cbn [set_core_width with_energies_valid with_core_width core_width].
    pose proof n__pos. field. lra. }
  apply (coulomb_screening_operator_scaling particle_II
           (set_core_width 3 particle_II) 2 1 2);
    try reflexivity; try lra; try (cbn; lra);
    rewrite core_radius_particle_II, H3; [left | right; right]; lra.
Defined.

Lemma interface_polarization_operator_value (p : CoreShellParticle) (r_a r_b : R) :
  Material.eps (smat p) <> 0 ->
  core_width p / n_ * Material.eps (cmat p) <> 0 ->
  radius p / n_ <> 0 ->
  make_interface_polarization_operator p r_a r_b =
  Ok ((- step (core_width p / n_ - r_a) * step (core_width p / n_ - r_b)
       * (Material.eps (cmat p) / Material.eps (smat p) - 1)
       / (core_width p / n_ * Material.eps (cmat p))
       - (Material.eps (smat p) - 1) / (2 * (radius p / n_) * Material.eps (smat p)))
      * e / (n_ * eps0)).
Proof.
  intros Hs Hc Hr. unfold make_interface_polarization_operator; cbv zeta.
  rewrite !heaviside_half_is_step.
  rewrite (float_div_ok _ _ Hs). cbn [rbind].
  rewrite (float_div_ok _ _ Hc). cbn [rbind].
  rewrite float_div_ok; [reflexivity | ].
  apply Rmult_integral_contrapositive_currified; [ | assumption].
  apply Rmult_integral_contrapositive_currified; [lra | assumption].
Qed.

(** X5. The interface polarization operator is symmetric in its radii;
    it reads [radius], so [set_shell_width] does not change it; as soon
    as one radius lies outside the core it no longer depends on the
    radii, and when both dielectric constants are 1 it is 0. *)
Theorem interface_polarization_operator_properties (p : CoreShellParticle)
    (r_a r_b : R) :
  make_interface_polarization_operator p r_a r_b =
  make_interface_polarization_operator p r_b r_a
  /\ (forall x,
        make_interface_polarization_operator (set_shell_width x p) r_a r_b =
        make_interface_polarization_operator p r_a r_b)
  /\ (Material.eps (smat p) <> 0 ->
      core_width p / n_ * Material.eps (cmat p) <> 0 ->
      radius p / n_ <> 0 ->
      core_width p / n_ < r_a ->
      make_interface_polarization_operator p r_a r_b =
      Ok (- (Material.eps (smat p) - 1)
          / (2 * (radius p / n_) * Material.eps (smat p))
          * e / (n_ * eps0)))
  /\ (Material.eps (cmat p) = 1 -> Material.eps (smat p) = 1 ->
      core_width p / n_ <> 0 -> radius p / n_ <> 0 ->
      make_interface_polarization_operator p r_a r_b = Ok 0).
Proof.
  pose proof eps0_pos as H0. pose proof n__pos as Hn.
  split; [ | split; [reflexivity | split]].
  - unfold make_interface_polarization_operator; cbv zeta.
    destruct (float_div (Material.eps (cmat p)) (Material.eps (smat p)))
      as [ratio | x]; [ | reflexivity].
    cbn [rbind].
    rewrite (float_div_comm_arg
               (- _heaviside (core_width p / n_ - r_b) 0.5
                * _heaviside (core_width p / n_ - r_a) 0.5 * (ratio - 1))
               (- _heaviside (core_width p / n_ - r_a) 0.5
                * _heaviside (core_width p / n_ - r_b) 0.5 * (ratio - 1))
               (core_width p / n_ * Material.eps (cmat p))
               (core_width p / n_ * Material.eps (cmat p))) by (auto; ring).
    reflexivity.
  - intros Hs Hc Hr Hout.
    rewrite interface_polarization_operator_value by assumption.
    rewrite (step_neg (core_width p / n_ - r_a)) by lra.
    f_equal. field. repeat split; try lra.
    + intros Hz. apply Hr. rewrite Hz. field. lra.
    + intros Hz. apply Hc. rewrite Hz. ring.
    + intros Hz. apply Hc. unfold Rdiv. rewrite Hz. ring.
  - intros Hc Hs Hrc Hr.
    rewrite interface_polarization_operator_value; rewrite ?Hc, ?Hs; try lra.
    f_equal. field. repeat split; try lra.
    + intros Hz. apply Hr. rewrite Hz. field. lra.
    + intros Hz. apply Hrc. rewrite Hz. field. lra.
Qed.

Lemma interface_polarization_operator_properties_witness :
  make_interface_polarization_operator particle_II 2 1 =
  Ok (- (Material.eps (smat particle_II) - 1)
      / (2 * (radius particle_II / n_) * Material.eps (smat particle_II))
      * e / (n_ * eps0)).
Proof.
  apply (interface_polarization_operator_properties particle_II 2 1);
    try rewrite core_radius_particle_II; simpl; unfold n_; lra.
Defined.

(** ** The stabilised ratio is even *)

Lemma sinh_neg (x : R) : sinh (- x) = - sinh x.
Proof. unfold sinh. rewrite Ropp_involutive. lra. Qed.

Lemma cosh_neg (x : R) : cosh (- x) = cosh x.
Proof. unfold cosh. rewrite Ropp_involutive. lra. Qed.

Lemma Copp_components (z : C) : Copp z = mkC (- Re z) (- Im z).
Proof. unfold Copp, Csub, RtoC; simpl. f_equal; ring. Qed.

Lemma Ctan_Copp (z : C) : Ctan (Copp z) = Copp (Ctan z).
Proof.
  rewrite !Copp_components. unfold Ctan, Csin, Ccos, Cdiv; cbn [Re Im].
  rewrite sin_neg, cos_neg, sinh_neg, cosh_neg.
  replace (- sin (Re z) * - sinh (Im z)) with (sin (Re z) * sinh (Im z)) by ring.
  unfold Rdiv. f_equal; ring.
Qed.

Lemma tanxdivx_even_float (x : R) : _tanxdivx (- x) = _tanxdivx x.
Proof.
  unfold _tanxdivx.
  cbn [nabs nmul nsub ndiv ntan of_float float_Number].
  rewrite Rabs_Ropp. destruct (Rlt_dec (Rabs x) 1e-13) as [Hs | Hb].
  - field.
  - rewrite tan_neg. field. intros ->. rewrite Rabs_R0 in Hb. lra.
Qed.

Lemma tanxdivx_even_complex (z : C) : _tanxdivx (Copp z) = _tanxdivx z.
Proof.
  unfold _tanxdivx.
  cbn [nabs nmul nsub ndiv ntan of_float complex_Number].
  assert (Habs : Cabs (Copp z) = Cabs z).
  { rewrite Copp_components. unfold Cabs; cbn [Re Im]. f_equal. ring. }
  rewrite Habs. destruct (Rlt_dec (Cabs z) 1e-13).
  - rewrite Copp_components. unfold Csub, Cdiv, Cmul, RtoC; cbn [Re Im].
    unfold Rdiv. f_equal; ring.
  - rewrite Ctan_Copp, !Copp_components. unfold Cdiv; cbn [Re Im].
    replace (- Re z * - Re z + - Im z * - Im z)
      with (Re z * Re z + Im z * Im z) by ring.
    unfold Rdiv. f_equal; ring.
Qed.

(** X6. [_tanxdivx] is an even function at both dtypes: it takes the
    same value at [x] and [-x], so it does not depend on which of the two
    square roots a wavevector is. *)
Theorem tanxdivx_even :
  (forall x : R, _tanxdivx (- x) = _tanxdivx x)
  /\ (forall z : C, _tanxdivx (Copp z) = _tanxdivx z).
Proof. split; [exact tanxdivx_even_float | exact tanxdivx_even_complex]. Qed.

(** X7. [_x_residual_function] raises [ZeroDivisionError] for a zero core
    mass; otherwise it is even in [x], equals the mass ratio
    [mass_in_shell / mass_in_core] at [x = 0], and on
    [1e-13 <= |x| < PI / 2] it is [x / tan x + mass ratio - 1]. *)
Theorem x_residual_function_properties (x mass_in_core mass_in_shell : R) :
  _x_residual_function x 0 mass_in_shell = Raise ZeroDivisionError
  /\ _x_residual_function (- x) mass_in_core mass_in_shell =
     _x_residual_function x mass_in_core mass_in_shell
  /\ (mass_in_core <> 0 ->
      _x_residual_function 0 mass_in_core mass_in_shell =
      Ok (mass_in_shell / mass_in_core))
  /\ (mass_in_core <> 0 -> 1e-13 <= Rabs x -> Rabs x < PI / 2 ->
      _x_residual_function x mass_in_core mass_in_shell =
      Ok (x / tan x + mass_in_shell / mass_in_core - 1)).
Proof.
  split; [ | split; [ | split]].
  - unfold _x_residual_function, float_div. now rewrite Req_dec_true.
  - unfold _x_residual_function.
    destruct (float_div mass_in_shell mass_in_core) as [m | ]; [ | reflexivity].
    cbn [rbind]. rewrite Rabs_Ropp, tanxdivx_even_float.
    destruct (Rlt_dec (Rabs x) 1e-13); [ | reflexivity].
    f_equal. field.
  - intros Hm. unfold _x_residual_function.
    rewrite float_div_ok by assumption. cbn [rbind].
    rewrite Rabs_R0, Rlt_dec_true by lra. f_equal. field. assumption.
  - intros Hm Hlo Hhi. unfold _x_residual_function.
    rewrite float_div_ok by assumption. cbn [rbind].
    rewrite Rlt_dec_false by lra.
    assert (Hx : x <> 0) by (intros ->; rewrite Rabs_R0 in Hlo; lra).
    assert (Ht : tan x <> 0).
    { destruct (Rtotal_order x 0) as [H | [H | H]]; [ | contradiction | ].
      - apply Rlt_not_eq. apply tan_lt_0; [ | assumption].
        rewrite Rabs_left in Hhi by assumption. lra.
      - apply Rgt_not_eq. apply tan_gt_0; [assumption | ].
        rewrite Rabs_pos_eq in Hhi by lra. assumption. }
    assert (Hv : _tanxdivx x = tan x / x).
    { unfold _tanxdivx. cbn [nabs nmul nsub ndiv ntan of_float float_Number].
      now rewrite Rlt_dec_false by lra. }
    rewrite Hv, float_div_ok.
    + cbn [rbind]. f_equal. field. repeat split; assumption.
    + intros Hz. apply Ht.
      apply (Rmult_eq_reg_r (/ x)); [ | now apply Rinv_neq_0_compat].
      rewrite Rmult_0_l. exact Hz.
Qed.

Lemma x_residual_function_properties_witness :
  _x_residual_function 0 0.07 0.21 = Ok (0.21 / 0.07)
  /\ _x_residual_function 1 0.07 0.21 = Ok (1 / tan 1 + 0.21 / 0.07 - 1).
Proof.
  pose proof PI2_1.
  split.
  - apply (x_residual_function_properties 0 0.07 0.21). lra.
  - apply (x_residual_function_properties 1 0.07 0.21);
      try rewrite Rabs_pos_eq; lra.
Defined.

(** ** The radial wavefunction *)

Lemma float_le_true (x y : R) : x <= y -> float_le x y = true.
Proof. intros H. unfold float_le. destruct (Rle_dec x y); [reflexivity | contradiction]. Qed.

Lemma float_le_false (x y : R) : ~ x <= y -> float_le x y = false.
Proof. intros H. unfold float_le. destruct (Rle_dec x y); [contradiction | reflexivity]. Qed.

Lemma wavefunction_outside {T} `{Trig T} (x : R) (k q : T) (cw sw : R) :
  0 <= cw -> 0 <= sw -> x < 0 \/ cw + sw <= x ->
  _wavefunction x k q cw sw = Ok (of_float 0).
Proof.
  intros Hc Hs [Hx | Hx]; unfold _wavefunction; cbv zeta.
  - rewrite (float_le_false 0 x), (float_le_false cw x) by lra. reflexivity.
  - rewrite (float_lt_false x cw), (float_lt_false x (cw + sw)) by lra.
    rewrite !andb_false_r. reflexivity.
Qed.

Lemma wavefunction_in_core {T} `{Trig T} (x : R) (k q : T) (cw sw : R) :
  0 <= x -> x < cw ->
  _wavefunction x k q cw sw = _unnormalized_core_wavefunction x k cw.
Proof.
  intros Hlo Hhi. unfold _wavefunction; cbv zeta.
  now rewrite float_le_true, float_lt_true.
Qed.

Lemma wavefunction_in_shell {T} `{Trig T} (x : R) (k q : T) (cw sw : R) :
  cw <= x -> x < cw + sw ->
  _wavefunction x k q cw sw = _unnormalized_shell_wavefunction x q cw sw.
Proof.
  intros Hlo Hhi. unfold _wavefunction; cbv zeta.
  rewrite (float_lt_false x cw) by lra. rewrite andb_false_r.
  now rewrite float_le_true, float_lt_true.
Qed.

Lemma nzero_float (x : R) : nzero x = false <-> x <> 0.
Proof.
  cbn. destruct (Req_dec_T x 0); split; intros; auto; try discriminate; contradiction.
Qed.

Lemma nzero_complex (z : C) : nzero z = false <-> Re z * Re z + Im z * Im z <> 0.
Proof.
  cbn. destruct (Req_dec_T (Re z) 0) as [Hr | Hr].
  - destruct (Req_dec_T (Im z) 0) as [Hi | Hi].
    + split; [discriminate | ]. intros H. exfalso. apply H. rewrite Hr, Hi. ring.
    + split; [ | reflexivity]. intros _. rewrite Hr. nra.
  - split; [ | reflexivity]. intros _. nra.
Qed.

Lemma checked_div_ok {T} `{Trig T} (a b : T) :
  nzero b = false -> checked_div a b = Ok (ndiv a b).
Proof. intros Hb. unfold checked_div. now rewrite Hb. Qed.

(** X8. The wavefunction is 0 outside [[0, core_width + shell_width)];
    within [1e-8] of the origin the series is used, so nothing is divided
    by [x] and a value is returned whenever [sin (core_width k)] is not
    zero; at the origin this value is [k / sin (core_width k)], for a
    real and for a complex wavevector. *)
Theorem wavefunction_support_and_origin :
  (forall (T : Type) (N : Number T) (Tr : Trig T) (x : R) (k q : T) (cw sw : R),
     0 <= cw -> 0 <= sw -> x < 0 \/ cw + sw <= x ->
     _wavefunction x k q cw sw = Ok (of_float 0))
  /\ (forall (T : Type) (N : Number T) (Tr : Trig T) (x : R) (k q : T) (cw sw : R),
        0 <= x -> x < 1e-8 -> x < cw ->
        nzero (nsin (nmul (of_float cw) k)) = false ->
        exists v, _wavefunction x k q cw sw = Ok v)
  /\ (forall (k q : R) (cw sw : R),
        0 < cw -> sin (cw * k) <> 0 ->
        _wavefunction 0 k q cw sw = Ok (k / sin (cw * k)))
  /\ (forall (k q : C) (cw sw : R),
        0 < cw -> nzero (Csin (Cmul (RtoC cw) k)) = false ->
        _wavefunction 0 k q cw sw = Ok (Cdiv k (Csin (Cmul (RtoC cw) k)))).
Proof.
  split; [ | split; [ | split]].
  - intros. now apply wavefunction_outside.
  - intros T N Tr x k q cw sw Hx0 Hx1 Hxc Hd.
    rewrite wavefunction_in_core by assumption.
    unfold _unnormalized_core_wavefunction; cbv zeta.
    rewrite Rlt_dec_true by (rewrite Rabs_pos_eq; assumption).
    rewrite checked_div_ok by assumption. cbn [rbind]. eexists; reflexivity.
  - intros k q cw sw Hc Hd.
    rewrite wavefunction_in_core by lra.
    unfold _unnormalized_core_wavefunction; cbv zeta.
    rewrite Rlt_dec_true by (rewrite Rabs_R0; lra).
    rewrite checked_div_ok by (now apply nzero_float).
    cbn [rbind nmul nadd nsub ndiv of_float nsin float_Number float_Trig].
    f_equal. field. assumption.
  - intros k q cw sw Hc Hd.
    rewrite wavefunction_in_core by lra.
    unfold _unnormalized_core_wavefunction; cbv zeta.
    rewrite Rlt_dec_true by (rewrite Rabs_R0; lra).
    rewrite checked_div_ok by assumption.
    cbn [rbind nmul nadd nsub ndiv of_float nsin complex_Number complex_Trig].
    apply nzero_complex in Hd.
    set (d := Csin (Cmul (RtoC cw) k)) in *.
    f_equal. unfold Cdiv, Cmul, Cadd, Csub, RtoC; cbn [Re Im].
    f_equal; field; assumption.
Qed.

Lemma wavefunction_support_and_origin_witness :
  _wavefunction (- 1) 2 3 1 1 = Ok 0
  /\ _wavefunction 0 1 3 (PI / 2) 1 = Ok (1 / sin (PI / 2 * 1)).
Proof.
  split.
  - change (@Ok R 0) with (@Ok R (of_float 0)).
    apply (proj1 wavefunction_support_and_origin R _ _ (- 1) 2 3 1 1); lra.
  - apply (proj1 (proj2 (proj2 wavefunction_support_and_origin)) 1 3 (PI / 2) 1).
    + apply PI2_RGT_0.
    + rewrite Rmult_1_r, sin_PI2. lra.
Defined.

Lemma Cmul_RtoC_l_norm (c : R) (s : C) :
  c <> 0 -> Re s * Re s + Im s * Im s <> 0 ->
  Re (Cmul (RtoC c) s) * Re (Cmul (RtoC c) s)
  + Im (Cmul (RtoC c) s) * Im (Cmul (RtoC c) s) <> 0.
Proof.
  intros Hc Hs. unfold Cmul, RtoC; cbn [Re Im].
  replace ((c * Re s - 0 * Im s) * (c * Re s - 0 * Im s)
           + (c * Im s + 0 * Re s) * (c * Im s + 0 * Re s))
    with (c * c * (Re s * Re s + Im s * Im s)) by ring.
  apply Rmult_integral_contrapositive_currified; [ | assumption].
  apply Rmult_integral_contrapositive_currified; assumption.
Qed.

Lemma wavefunction_interface_float (x k q cw sw : R) :
  cw <= x -> x < cw + sw -> cw + sw - x = sw ->
  x <> 0 -> sin (q * sw) <> 0 ->
  _wavefunction x k q cw sw = Ok (1 / x).
Proof.
  intros Hlo Hhi Hsub Hx Hd.
  rewrite wavefunction_in_shell by assumption.
  unfold _unnormalized_shell_wavefunction.
  cbn [nmul of_float nsin float_Number float_Trig].
  rewrite Hsub.
  rewrite checked_div_ok.
  - cbn [ndiv float_Number]. f_equal. field. split; assumption.
  - apply nzero_float.
    apply Rmult_integral_contrapositive_currified; assumption.
Qed.

(** X9. Boundary values.  A point [x] of the shell piece at which the
    code's difference [core_width + shell_width - x] is [shell_width]
    is the interface (in binary floating point the difference taken at
    [x = core_width] can miss [shell_width] by one unit in the last
    place, and the statement then says nothing); there the wavefunction
    is [1 / x] whatever the wavevectors, real or complex, provided
    [sin (q shell_width)] is not zero, and the core kernel evaluated at
    [core_width] gives [1 / core_width] too: the two pieces agree.  At
    the outer surface [x = core_width + shell_width] the shell kernel
    is 0. *)
Theorem wavefunction_boundary_values :
  (forall (x k q : R) (cw sw : R),
     cw <= x -> x < cw + sw -> cw + sw - x = sw ->
     x <> 0 -> sin (q * sw) <> 0 ->
     _wavefunction x k q cw sw = Ok (1 / x))
  /\ (forall (x : R) (k q : C) (cw sw : R),
        cw <= x -> x < cw + sw -> cw + sw - x = sw ->
        x <> 0 -> nzero (Csin (Cmul q (RtoC sw))) = false ->
        _wavefunction x k q cw sw = Ok (RtoC (1 / x)))
  /\ (forall (k : R) (cw : R),
        1e-8 <= cw -> sin (cw * k) <> 0 ->
        _unnormalized_core_wavefunction cw k cw = Ok (1 / cw))
  /\ (forall (q : R) (cw sw : R),
        0 < cw + sw -> sin (q * sw) <> 0 ->
        _unnormalized_shell_wavefunction (cw + sw) q cw sw = Ok 0)
  /\ (forall (q : C) (cw sw : R),
        0 < cw + sw -> nzero (Csin (Cmul q (RtoC sw))) = false ->
        _unnormalized_shell_wavefunction (cw + sw) q cw sw = Ok (RtoC 0)).
Proof.
  split; [ | split; [ | split; [ | split]]].
  - intros x k q cw sw Hlo Hhi Hsub Hx Hd.
    now apply wavefunction_interface_float.
  - intros x k q cw sw Hlo Hhi Hsub Hx Hd.
    rewrite wavefunction_in_shell by assumption.
    unfold _unnormalized_shell_wavefunction.
    cbn [nmul of_float nsin complex_Number complex_Trig].
    rewrite Hsub.
    apply nzero_complex in Hd.
    set (s := Csin (Cmul q (RtoC sw))) in *.
    rewrite checked_div_ok.
    + cbn [ndiv complex_Number]. f_equal.
      assert (Hxx : x * x <> 0)
        by (apply Rmult_integral_contrapositive_currified; assumption).
      assert (Hn : x * Re s * (x * Re s) + x * Im s * (x * Im s) <> 0).
      { replace (x * Re s * (x * Re s) + x * Im s * (x * Im s))
          with (x * x * (Re s * Re s + Im s * Im s)) by ring.
        apply Rmult_integral_contrapositive_currified; assumption. }
      unfold Cdiv, Cmul, RtoC; cbn [Re Im].
      f_equal; field; repeat split; assumption.
    + apply nzero_complex. apply Cmul_RtoC_l_norm; assumption.
  - intros k cw Hc Hd.
    unfold _unnormalized_core_wavefunction; cbv zeta.
    rewrite Rlt_dec_false by (rewrite Rabs_pos_eq; lra).
    cbn [nmul of_float nsin float_Number float_Trig].
    rewrite checked_div_ok.
    + cbn [ndiv float_Number]. f_equal. rewrite (Rmult_comm k cw).
      field. split; first [assumption | lra].
    + apply nzero_float. apply Rmult_integral_contrapositive_currified; [lra | assumption].
  - intros q cw sw Hp Hd.
    unfold _unnormalized_shell_wavefunction.
    cbn [nmul of_float nsin float_Number float_Trig].
    replace (cw + sw - (cw + sw)) with 0 by ring.
    rewrite Rmult_0_r, sin_0.
    rewrite checked_div_ok.
    + cbn [ndiv float_Number]. f_equal. field. split; first [assumption | lra].
    + apply nzero_float. apply Rmult_integral_contrapositive_currified; [lra | assumption].
  - intros q cw sw Hp Hd.
    unfold _unnormalized_shell_wavefunction.
    cbn [nmul of_float nsin complex_Number complex_Trig].
    replace (cw + sw - (cw + sw)) with 0 by ring.
    apply nzero_complex in Hd.
    assert (Hz : Csin (Cmul q (RtoC 0)) = RtoC 0).
    { unfold Csin, Cmul, RtoC; cbn [Re Im].
      replace (Re q * 0 - Im q * 0) with 0 by ring.
      replace (Re q * 0 + Im q * 0) with 0 by ring.
      rewrite sin_0, sinh_0. f_equal; ring. }
    rewrite Hz.
    rewrite checked_div_ok.
    + cbn [ndiv complex_Number]. unfold Cdiv, RtoC; cbn [Re Im].
      unfold Rdiv. f_equal. f_equal; ring.
    + apply nzero_complex. apply Cmul_RtoC_l_norm; [lra | assumption].
Qed.

Lemma wavefunction_boundary_values_witness :
  _wavefunction 2 5 1 2 (PI / 2) = Ok (1 / 2)
  /\ _unnormalized_shell_wavefunction (2 + PI / 2) 1 2 (PI / 2) = Ok 0.
Proof.
  pose proof PI2_RGT_0.
  assert (Hs : sin (1 * (PI / 2)) <> 0) by (rewrite Rmult_1_l, sin_PI2; lra).
  split.
  - apply (proj1 wavefunction_boundary_values 2 5 1 2 (PI / 2));
      [lra | lra | lra | lra | exact Hs].
  - apply (proj1 (proj2 (proj2 (proj2 wavefunction_boundary_values))) 1 2 (PI / 2));
      [lra | exact Hs].
Defined.

Lemma Cabs_nonneg (z : C) : 0 <= Cabs z.
Proof. unfold Cabs. apply sqrt_pos. Qed.

(** X10. The radial density is never negative and is 0 outside
    [[0, core_width + shell_width)], for real and for complex
    wavevectors; at a point [x] of the shell piece at which the code's
    difference [core_width + shell_width - x] is [shell_width], the
    interface, it is [1 / x^2]. *)
Theorem densityfunction_properties :
  (forall (r k q cw sw v : R),
     _densityfunction r k q cw sw = Ok v -> 0 <= v)
  /\ (forall (r : R) (k q : C) (cw sw v : R),
        _densityfunction r k q cw sw = Ok v -> 0 <= v)
  /\ (forall (r k q cw sw : R),
        0 <= cw -> 0 <= sw -> r < 0 \/ cw + sw <= r ->
        _densityfunction r k q cw sw = Ok 0)
  /\ (forall (r : R) (k q : C) (cw sw : R),
        0 <= cw -> 0 <= sw -> r < 0 \/ cw + sw <= r ->
        _densityfunction r k q cw sw = Ok 0)
  /\ (forall (x k q cw sw : R),
        cw <= x -> x < cw + sw -> cw + sw - x = sw ->
        x <> 0 -> sin (q * sw) <> 0 ->
        _densityfunction x k q cw sw = Ok (1 / (x * x))).
Proof.
  split; [ | split; [ | split; [ | split]]].
  - intros r k q cw sw v. unfold _densityfunction.
    destruct (_wavefunction r k q cw sw) as [w | ]; [ | discriminate].
    cbn [rbind nabs float_Number]. intros [= <-].
    apply Rmult_le_pos; apply Rabs_pos.
  - intros r k q cw sw v. unfold _densityfunction.
    destruct (_wavefunction r k q cw sw) as [w | ]; [ | discriminate].
    cbn [rbind nabs complex_Number]. intros [= <-].
    apply Rmult_le_pos; apply Cabs_nonneg.
  - intros r k q cw sw Hc Hs Hout. unfold _densityfunction.
    rewrite wavefunction_outside by assumption.
    cbn [rbind nabs of_float float_Number]. rewrite Rabs_R0. f_equal. ring.
  - intros r k q cw sw Hc Hs Hout. unfold _densityfunction.
    rewrite wavefunction_outside by assumption.
    cbn [rbind nabs of_float complex_Number]. rewrite Cabs_0. f_equal. ring.
  - intros x k q cw sw Hlo Hhi Hsub Hx Hd. unfold _densityfunction.
    rewrite wavefunction_interface_float by assumption.
    cbn [rbind nabs float_Number]. f_equal.
    replace (Rabs (1 / x) * Rabs (1 / x)) with (Rsqr (Rabs (1 / x)))
      by reflexivity.
    rewrite <- Rsqr_abs. unfold Rsqr. field. assumption.
Qed.

Lemma densityfunction_properties_witness :
  _densityfunction (- 1) 2 3 1 1 = Ok 0
  /\ _densityfunction 2 5 1 2 (PI / 2) = Ok (1 / (2 * 2)).
Proof.
  pose proof PI2_RGT_0.
  split.
  - apply (proj1 (proj2 (proj2 densityfunction_properties)) (- 1) 2 3 1 1); lra.
  - apply (proj2 (proj2 (proj2 (proj2 densityfunction_properties)))
             2 5 1 2 (PI / 2));
      [lra | lra | lra | lra | rewrite Rmult_1_l, sin_PI2; lra].
Defined.

(** ** More on the bracket scan *)

Lemma getitem_ok {A} (a : list A) (i : nat) (v : A) :
  getitem a i = Ok v <-> nth_error a i = Some v.
Proof.
  unfold getitem. destruct (nth_error a i); split; intros H;
    try discriminate; congruence.
Qed.

Lemma scan_and_bracket_ok_inv (f : list R -> result (list R))
    (lower_bound upper_bound : R) (resolution : nat) (lo hi : R) :
  scan_and_bracket f lower_bound upper_bound resolution = Ok (lo, hi) ->
  exists y i,
    f (linspace lower_bound upper_bound resolution) = Ok y
    /\ first_neg2pos y = Some i
    /\ nth_error (linspace lower_bound upper_bound resolution) i = Some lo
    /\ nth_error (linspace lower_bound upper_bound resolution) (S i) = Some hi.
Proof.
  unfold scan_and_bracket; cbv zeta.
  destruct (f _) as [y | ] eqn:Hf; [ | discriminate]. cbn [rbind].
  rewrite getitem_hd, (argwhere_from_first 0).
  destruct (first_neg2pos y) as [i | ] eqn:Hi; [ | discriminate].
  cbn [option_map rbind Nat.add].
  destruct (getitem _ i) as [a | ] eqn:Ha; [ | discriminate]. cbn [rbind].
  replace (i + 1)%nat with (S i) by lia.
  destruct (getitem _ (S i)) as [b | ] eqn:Hb; [ | discriminate]. cbn [rbind].
  intros [= <- <-]. exists y, i.
  apply getitem_ok in Ha, Hb. repeat split; assumption.
Qed.

Lemma scan_and_bracket_grid (f : list R -> result (list R))
    (lower_bound upper_bound : R) (resolution : nat) (lo hi : R) :
  scan_and_bracket f lower_bound upper_bound resolution = Ok (lo, hi) ->
  exists y i,
    f (linspace lower_bound upper_bound resolution) = Ok y
    /\ first_neg2pos y = Some i
    /\ (S i < resolution)%nat
    /\ lo = sample lower_bound upper_bound resolution i
    /\ hi = sample lower_bound upper_bound resolution (S i).
Proof.
  intros H. apply scan_and_bracket_ok_inv in H as (y & i & Hf & Hi & Hlo & Hhi).
  assert (Hlt : (S i < resolution)%nat).
  { rewrite <- (linspace_length lower_bound upper_bound resolution).
    apply nth_error_Some. now rewrite Hhi. }
  rewrite linspace_nth in Hlo, Hhi by lia.
  exists y, i. repeat split; auto; congruence.
Qed.

(** X11. A bracket returned by the scan of [[lower, upper]] lies inside
    that range and is exactly one grid step wide:
    [lower <= lo <= hi <= upper] and
    [hi - lo = (upper - lower) / (resolution - 1)]; a bracket is only
    returned when there are at least two samples. *)
Theorem scan_bracket_within_bounds (f : list R -> result (list R))
    (lower_bound upper_bound : R) (resolution : nat) (lo hi : R) :
  lower_bound <= upper_bound ->
  scan_and_bracket f lower_bound upper_bound resolution = Ok (lo, hi) ->
  (2 <= resolution)%nat
  /\ lower_bound <= lo /\ lo <= hi /\ hi <= upper_bound
  /\ hi - lo = (upper_bound - lower_bound) / INR (resolution - 1).
Proof.
  intros Hb H. apply scan_and_bracket_grid in H as (y & i & _ & _ & Hi & -> & ->).
  assert (Hn : 0 < INR (resolution - 1)) by (apply lt_0_INR; lia).
  assert (Hstep : 0 <= (upper_bound - lower_bound) / INR (resolution - 1)).
  { apply Rmult_le_pos; [lra | ]. left. now apply Rinv_0_lt_compat. }
  assert (Hi0 : 0 <= INR i) by apply pos_INR.
  assert (Hi1 : INR (S i) <= INR (resolution - 1)) by (apply le_INR; lia).
  unfold sample. rewrite S_INR in *.
  set (d := (upper_bound - lower_bound) / INR (resolution - 1)) in *.
  assert (Hd : d * INR (resolution - 1) = upper_bound - lower_bound).
  { unfold d. field. lra. }
  split; [lia | ]. repeat split; try nra.
Qed.

Lemma scan_bracket_within_bounds_witness :
  (2 <= 4)%nat /\ 0 <= 0 /\ 0 <= 1 /\ 1 <= 3 /\ 1 - 0 = (3 - 0) / INR (4 - 1).
Proof.
  apply (scan_bracket_within_bounds (fun _ => Ok [0; 1; -1; 1]) 0 3 4 0 1);
    [lra | apply scan_zero_sample].
Defined.

Lemma first_neg2pos_signs (y : list R) (i : nat) (a b : R) :
  first_neg2pos y = Some i ->
  nth_error y i = Some a -> nth_error y (S i) = Some b ->
  a <= 0 <= b /\ (a < 0 \/ 0 < b).
Proof.
  intros Hi Ha Hb. apply first_neg2pos_some in Hi as [(a' & b' & Ha' & Hb' & Hr) _].
  rewrite Ha in Ha'. rewrite Hb in Hb'. injection Ha' as <-. injection Hb' as <-.
  apply rising_iff in Hr. lra.
Qed.

Section ScanThenRefine.

Variable brentq_iterate : (R -> result R) -> R -> R -> result R.

(** X12. For a callable that works element by element, the bracket the
    scan returns always passes the entry test of [brentq]: the values at
    its ends satisfy [g lo <= 0 <= g hi], not both zero, so [brentq]
    returns an end that is a root or goes on to iterate, and never
    refuses the bracket. *)
Theorem scan_bracket_accepted_by_brentq (g : R -> R)
    (lower_bound upper_bound : R) (resolution : nat) (lo hi : R) :
  scan_and_bracket (fun x => Ok (map g x)) lower_bound upper_bound resolution
  = Ok (lo, hi) ->
  g lo <= 0 <= g hi
  /\ (g lo < 0 \/ 0 < g hi)
  /\ brentq brentq_iterate (fun x => Ok (g x)) lo hi =
     (if Req_dec_T (g lo) 0 then Ok lo
      else if Req_dec_T (g hi) 0 then Ok hi
      else brentq_iterate (fun x => Ok (g x)) lo hi).
Proof.
  intros H. apply scan_and_bracket_ok_inv in H as (y & i & Hf & Hi & Hlo & Hhi).
  injection Hf as <-.
  assert (Hs : g lo <= 0 <= g hi /\ (g lo < 0 \/ 0 < g hi)).
  { apply (first_neg2pos_signs
             (map g (linspace lower_bound upper_bound resolution)) i);
      [exact Hi | | ]; rewrite nth_error_map; [rewrite Hlo | rewrite Hhi];
      reflexivity. }
  destruct Hs as [Hs1 Hs2]. split; [assumption | split; [assumption | ]].
  unfold brentq. cbn [rbind].
  destruct (Req_dec_T (g lo) 0); [reflexivity | ].
  destruct (Req_dec_T (g hi) 0); [reflexivity | ].
  rewrite Rlt_dec_false; [reflexivity | nra].
Qed.

End ScanThenRefine.

Lemma scan_bracket_accepted_by_brentq_witness :
  brentq bisect (fun x => Ok (x - 1)) 0 3 = bisect (fun x => Ok (x - 1)) 0 3.
Proof.
  assert (Hscan : scan_and_bracket (fun x => Ok (map (fun v => v - 1) x)) 0 3 2
                  = Ok (0, 3)).
  { rewrite scan_and_bracket_selects with (y := [0 - 1; 3 - 1]) (i := O).
    - f_equal. f_equal; [apply sample_first | apply (sample_last 0 3 2); lia].
    - now rewrite linspace_two.
    - reflexivity.
    - rewrite first_neg2pos_cons. apply Rlt_dec_true. unfold np_sign.
      rewrite (Rlt_dec_false (3 - 1) 0), (Rlt_dec_true 0 (3 - 1)) by lra.
      rewrite (Rlt_dec_true (0 - 1) 0) by lra. lra. }
  destruct (scan_bracket_accepted_by_brentq bisect (fun v => v - 1) 0 3 2 0 3 Hscan)
    as (_ & _ & Hb).
  rewrite Hb. rewrite !Req_dec_false by lra. reflexivity.
Defined.

Lemma scan_short_grid_never_ok (f : list R -> result (list R))
    (lower_bound upper_bound : R) (resolution : nat) (lo hi : R) :
  (resolution <= 1)%nat ->
  scan_and_bracket f lower_bound upper_bound resolution <> Ok (lo, hi).
Proof.
  intros Hres H. apply scan_and_bracket_grid in H as (y & i & _ & _ & Hi & _).
  lia.
Qed.

Lemma scan_short_grid (f : list R -> result (list R))
    (lower_bound upper_bound : R) (resolution : nat) (y : list R) :
  (resolution <= 1)%nat ->
  f (linspace lower_bound upper_bound resolution) = Ok y ->
  scan_and_bracket f lower_bound upper_bound resolution = Raise IndexError.
Proof.
  intros Hres Hf.
  destruct (scan_and_bracket f lower_bound upper_bound resolution)
    as [[lo hi] | x] eqn:Hs.
  - exfalso. now apply (scan_short_grid_never_ok f lower_bound upper_bound
                          resolution lo hi).
  - revert Hs. unfold scan_and_bracket; cbv zeta. rewrite Hf. cbn [rbind].
    unfold getitem.
    destruct (nth_error (argwhere _) 0) as [i | ]; cbn [rbind];
      [ | congruence].
    destruct (nth_error _ i); cbn [rbind]; [ | congruence].
    destruct (nth_error _ (i + 1)); cbn [rbind]; congruence.
Qed.

(** X13. With fewer than two samples the scan never returns a bracket:
    whatever the callable returns, the result is [IndexError], and an
    exception of the callable is passed on. *)
Theorem scan_needs_two_samples (f : list R -> result (list R))
    (lower_bound upper_bound : R) (resolution : nat) :
  (resolution <= 1)%nat ->
  (forall y, f (linspace lower_bound upper_bound resolution) = Ok y ->
             scan_and_bracket f lower_bound upper_bound resolution
             = Raise IndexError)
  /\ (forall x, f (linspace lower_bound upper_bound resolution) = Raise x ->
                scan_and_bracket f lower_bound upper_bound resolution = Raise x)
  /\ (forall lo hi, scan_and_bracket f lower_bound upper_bound resolution
                    <> Ok (lo, hi)).
Proof.
  intros Hres. split; [ | split].
  - intros y Hf. now apply scan_short_grid with y.
  - intros x Hf. now apply scan_and_bracket_propagates.
  - intros lo hi. now apply scan_short_grid_never_ok.
Qed.

Lemma scan_needs_two_samples_witness :
  scan_and_bracket (fun _ => Ok [-1; 1]) 0 1 1 = Raise IndexError.
Proof.
  apply (proj1 (scan_needs_two_samples (fun _ => Ok [-1; 1]) 0 1 1 (le_n 1))
           [-1; 1]).
  reflexivity.
Defined.

(** ** More on the energy query *)

Lemma electron_residual_empty (p : CoreShellParticle) :
  e_h p = true \/ h_e p = true ->
  Material.m_e (cmat p) <> 0 ->
  electron_eigenvalue_residual [] p = Raise ValueError.
Proof.
  intros Hflag Hm. unfold electron_eigenvalue_residual, electron_wavevectors.
  destruct (e_h p); [ | destruct (h_e p); [ | destruct Hflag; discriminate]];
    cbn [times_width rbind]; rewrite float_div_ok by assumption; reflexivity.
Qed.

Lemma electron_residual_zero_mass (energy : list R) (p : CoreShellParticle) :
  e_h p = true \/ h_e p = true ->
  Material.m_e (cmat p) = 0 ->
  electron_eigenvalue_residual energy p = Raise ZeroDivisionError.
Proof.
  intros Hflag Hm. unfold electron_eigenvalue_residual, electron_wavevectors.
  destruct (e_h p); [ | destruct (h_e p); [ | destruct Hflag; discriminate]];
    cbn [times_width rbind]; unfold float_div; rewrite Req_dec_true by assumption;
    reflexivity.
Qed.

Section QueryEdges.

Variable brentq_iterate : (R -> result R) -> R -> R -> result R.

(** X14. Edge inputs of the energy query on a type-two particle with
    stale energies: with [resolution = 0] it raises [ValueError] (the
    vectorised ratio refuses an empty array), with [resolution = 1]
    [IndexError], and with a zero electron mass in the core
    [ZeroDivisionError] whatever the resolution; each time during the
    first scan, the object being left as it was. *)
Theorem query_edge_inputs bounds as_ev (p : CoreShellParticle) (n : nat) :
  energies_valid p = false ->
  e_h p = true \/ h_e p = true ->
  (Material.m_e (cmat p) <> 0 ->
   calculate_s1_energies brentq_iterate bounds 0 as_ev (mkHeap p n)
   = (Raise ValueError, mkHeap p (S n))
   /\ calculate_s1_energies brentq_iterate bounds 1 as_ev (mkHeap p n)
      = (Raise IndexError, mkHeap p (S n)))
  /\ (Material.m_e (cmat p) = 0 ->
      forall resolution,
        calculate_s1_energies brentq_iterate bounds resolution as_ev (mkHeap p n)
        = (Raise ZeroDivisionError, mkHeap p (S n))).
Proof.
  intros Hv Hflag. split.
  - intros Hm. split.
    + rewrite calculate_s1_energies_fresh by assumption.
      rewrite scan_and_bracket_propagates with (x := ValueError); [reflexivity | ].
      cbn [linspace]. now apply electron_residual_empty.
    + rewrite calculate_s1_energies_fresh by assumption.
      destruct (electron_residual_defined
                  (linspace (fst (limits_e bounds p)) (snd (limits_e bounds p)) 1) p)
        as [y Hy]; [assumption | assumption | discriminate | ].
      rewrite scan_short_grid with (y := y); [reflexivity | lia | exact Hy].
  - intros Hm resolution.
    rewrite calculate_s1_energies_fresh by assumption.
    rewrite scan_and_bracket_propagates with (x := ZeroDivisionError);
      [reflexivity | ].
    now apply electron_residual_zero_mass.
Qed.

End QueryEdges.

Lemma query_edge_inputs_witness :
  calculate_s1_energies bisect None 0 true (mkHeap particle_II 0)
  = (Raise ValueError, mkHeap particle_II 1)
  /\ calculate_s1_energies bisect None 1 true (mkHeap particle_II 0)
     = (Raise IndexError, mkHeap particle_II 1).
Proof.
  apply (query_edge_inputs bisect None true particle_II 0).
  - reflexivity.
  - right. apply h_e_particle_II.
  - simpl. lra.
Defined.

Lemma same_frame_refl (p : CoreShellParticle) : same_frame p p.
Proof. unfold same_frame. repeat split. Qed.

Section QueryInvariants.

Variable brentq_iterate : (R -> result R) -> R -> R -> result R.

Lemma calculate_s1_energies_outcome bounds resolution as_ev self n :
  energies_valid self = false ->
  let out := calculate_s1_energies brentq_iterate bounds resolution as_ev
               (mkHeap self n) in
  (exists x, out = (Raise x, mkHeap self (S n)))
  \/ (exists x a, out = (Raise x, mkHeap (with_s1_e (Some a) self) (S (S n))))
  \/ (exists a b,
        out = (Ok (Some (in_unit as_ev a), Some (in_unit as_ev b)),
               mkHeap (with_energies_valid true
                         (with_s1_h (Some b) (with_s1_e (Some a) self)))
                      (S (S n)))).
Proof.
  intros Hv. cbv zeta. rewrite calculate_s1_energies_fresh by assumption.
  destruct (scan_and_bracket _ _ _ resolution) as [be | x];
    [ | left; now exists x].
  destruct (brentq _ _ (fst be) (snd be)) as [re | x]; [ | left; now exists x].
  cbv zeta.
  destruct (scan_and_bracket _ _ _ resolution) as [bh | x];
    [ | right; left; now exists x, re].
  destruct (brentq _ _ (fst bh) (snd bh)) as [rh | x];
    [ | right; left; now exists x, re].
  right; right. now exists re, rh.
Qed.

Lemma query_same_frame bounds resolution as_ev (h : heap) :
  same_frame (self_ h)
    (self_ (snd (calculate_s1_energies brentq_iterate bounds resolution as_ev h))).
Proof.
  destruct h as [self n]. cbn [self_].
  destruct (energies_valid self) eqn:Hv.
  - rewrite calculate_s1_energies_cached by assumption. apply same_frame_refl.
  - destruct (calculate_s1_energies_outcome bounds resolution as_ev self n Hv)
      as [(x & ->) | [(x & a & ->) | (a & b & ->)]]; cbn [snd self_];
      unfold same_frame; repeat split.
Qed.

(** X15. A query assigns nothing but [s1_e], [s1_h] and [energies_valid]:
    materials, widths, radius, classification and offsets are left as
    they were, whatever the outcome.  It runs no scan and changes nothing
    when the energies are valid, and runs one or two scans when they are
    stale. *)
Theorem query_frame_and_scans bounds resolution as_ev (h : heap) :
  same_frame (self_ h)
    (self_ (snd (calculate_s1_energies brentq_iterate bounds resolution as_ev h)))
  /\ (energies_valid (self_ h) = true ->
      snd (calculate_s1_energies brentq_iterate bounds resolution as_ev h) = h)
  /\ (energies_valid (self_ h) = false ->
      scan_calls (snd (calculate_s1_energies brentq_iterate bounds resolution
                         as_ev h)) = S (scan_calls h)
      \/ scan_calls (snd (calculate_s1_energies brentq_iterate bounds resolution
                            as_ev h)) = S (S (scan_calls h))).
Proof.
  split; [apply query_same_frame | ].
  destruct h as [self n]. cbn [self_ scan_calls].
  split; intros Hv.
  - now rewrite calculate_s1_energies_cached.
  - destruct (calculate_s1_energies_outcome bounds resolution as_ev self n Hv)
      as [(x & ->) | [(x & a & ->) | (a & b & ->)]]; cbn [snd scan_calls]; auto.
Qed.

Lemma reachable_energies_stored (p0 p : CoreShellParticle) :
  energies_valid p0 = false ->
  reachable brentq_iterate p0 p ->
  energies_valid p = true ->
  exists a b, s1_e p = Some a /\ s1_h p = Some b.
Proof.
  intros Hv0 Hr. induction Hr as [ | x p Hr IH | x p Hr IH | b r a p n Hr IH].
  - congruence.
  - discriminate.
  - discriminate.
  - destruct (energies_valid p) eqn:Hv.
    + rewrite calculate_s1_energies_cached by assumption. cbn [snd self_].
      intros _. now apply IH.
    + destruct (calculate_s1_energies_outcome b r a p n Hv)
        as [(x & ->) | [(x & u & ->) | (u & v & ->)]]; cbn [snd self_].
      * congruence.
      * cbn. congruence.
      * intros _. exists u, v. split; reflexivity.
Qed.

(** X16. On every object reachable from the constructor through width
    mutators and queries, valid energies are stored energies: when
    [energies_valid] holds, [s1_e] and [s1_h] are floats, so a query
    served from the cache returns two floats and never [None]. *)
Theorem valid_energies_are_stored (core shell : Material.t) (cw sw : R)
    (p : CoreShellParticle) bounds resolution as_ev (n : nat) :
  reachable brentq_iterate (__init__ core shell cw sw) p ->
  energies_valid p = true ->
  exists a b,
    s1_e p = Some a /\ s1_h p = Some b
    /\ calculate_s1_energies brentq_iterate bounds resolution as_ev (mkHeap p n)
       = (Ok (Some a, Some b), mkHeap p n).
Proof.
  intros Hr Hv.
  destruct (reachable_energies_stored (__init__ core shell cw sw) p eq_refl Hr Hv)
    as (a & b & Ha & Hb).
  exists a, b. repeat split; auto.
  rewrite calculate_s1_energies_cached by assumption. now rewrite Ha, Hb.
Qed.

Lemma reachable_frame (p0 p : CoreShellParticle) :
  reachable brentq_iterate p0 p ->
  cmat p = cmat p0 /\ smat p = smat p0 /\ radius p = radius p0
  /\ type_one p = type_one p0 /\ type_two p = type_two p0
  /\ h_e p = h_e p0 /\ e_h p = e_h p0
  /\ ue p = ue p0 /\ uh p = uh p0.
Proof.
  intros Hr. induction Hr as [ | x p Hr IH | x p Hr IH | b r a p n Hr IH].
  - repeat split.
  - exact IH.
  - exact IH.
  - pose proof (query_same_frame b r a (mkHeap p n)) as Hf.
    cbn [self_] in Hf. unfold same_frame in Hf.
    destruct Hf as (H1 & H2 & _ & _ & H5 & H6 & H7 & H8 & H9 & H10 & H11).
    destruct IH as (I1 & I2 & I5 & I6 & I7 & I8 & I9 & I10 & I11).
    repeat split; congruence.
Qed.

(** X17. Over every history of mutator calls and queries, the materials,
    the two offsets, the classification flags and [radius] stay those
    the constructor computed: no call recomputes them. *)
Theorem construction_time_fields_are_constant (core shell : Material.t)
    (cw sw : R) (p : CoreShellParticle) :
  reachable brentq_iterate (__init__ core shell cw sw) p ->
  cmat p = core /\ smat p = shell
  /\ radius p = (cw + sw) * n_
  /\ ue p = Rabs (Material.cbe core - Material.cbe shell) * e
  /\ uh p = Rabs (Material.vbe core - Material.vbe shell) * e
  /\ type_one p = _is_type_one core shell
  /\ (type_two p, h_e p, e_h p) = _is_type_two core shell.
Proof.
  intros Hr. apply reachable_frame in Hr.
  destruct Hr as (H1 & H2 & H3 & H4 & H5 & H6 & H7 & H8 & H9).
  rewrite H1, H2, H3, H4, H5, H6, H7, H8, H9. repeat split.
Qed.

(** X18. After a width mutator the next query is never served from the
    cache: at least one scan runs, on the new width, whatever energies
    were stored before. *)
Theorem mutation_forces_recomputation (x : R) (p : CoreShellParticle)
    bounds resolution as_ev (n : nat) :
  (S n <= scan_calls (snd (calculate_s1_energies brentq_iterate bounds resolution
                             as_ev (mkHeap (set_core_width x p) n))))%nat
  /\ core_width (self_ (snd (calculate_s1_energies brentq_iterate bounds
                               resolution as_ev (mkHeap (set_core_width x p) n))))
     = x * n_
  /\ (S n <= scan_calls (snd (calculate_s1_energies brentq_iterate bounds
                                resolution as_ev (mkHeap (set_shell_width x p) n))))%nat
  /\ shell_width (self_ (snd (calculate_s1_energies brentq_iterate bounds
                                resolution as_ev (mkHeap (set_shell_width x p) n))))
     = x * n_.
Proof.
  assert (Hgen : forall q : CoreShellParticle, energies_valid q = false ->
            (S n <= scan_calls (snd (calculate_s1_energies brentq_iterate bounds
                                       resolution as_ev (mkHeap q n))))%nat).
  { intros q Hv.
    destruct (calculate_s1_energies_outcome bounds resolution as_ev q n Hv)
      as [(y & ->) | [(y & a & ->) | (a & b & ->)]]; cbn [snd scan_calls]; lia. }
  split; [apply Hgen; reflexivity | ].
  split.
  { pose proof (query_same_frame bounds resolution as_ev
                  (mkHeap (set_core_width x p) n)) as Hf.
    unfold same_frame in Hf. cbn [self_] in Hf.
    destruct Hf as (_ & _ & Hc & _). now rewrite Hc. }
  split; [apply Hgen; reflexivity | ].
  pose proof (query_same_frame bounds resolution as_ev
                (mkHeap (set_shell_width x p) n)) as Hf.
  unfold same_frame in Hf. cbn [self_] in Hf.
  destruct Hf as (_ & _ & _ & Hs & _). now rewrite Hs.
Qed.

(** X19. Asked in joules ([as_ev = False]), the first successful query
    and every later one return the same pair, and the later ones, being
    served from the cache, ignore all their arguments: other bounds,
    another resolution or another unit change nothing. *)
Theorem joule_queries_are_idempotent bounds resolution self n r h :
  energies_valid self = false ->
  calculate_s1_energies brentq_iterate bounds resolution false (mkHeap self n)
  = (Ok r, h) ->
  forall bounds' resolution' as_ev',
    calculate_s1_energies brentq_iterate bounds' resolution' as_ev' h = (Ok r, h).
Proof.
  intros Hv Hq bounds' resolution' as_ev'.
  destruct (calculate_s1_energies_outcome bounds resolution false self n Hv)
    as [(x & Ho) | [(x & a & Ho) | (a & b & Ho)]]; cbv zeta in Ho;
    rewrite Ho in Hq; try discriminate.
  injection Hq as <- <-.
  now rewrite calculate_s1_energies_cached.
Qed.

End QueryInvariants.

Lemma joule_queries_are_idempotent_witness :
  calculate_s1_energies bisect bounds_demo 7 true heap_demo
  = (Ok (Some root_demo, Some root_demo), heap_demo).
Proof.
  apply (joule_queries_are_idempotent bisect None 2 particle_demo 0
           (Some root_demo, Some root_demo) heap_demo eq_refl
           (query_demo false 0)).
Defined.

Lemma reachable_demo :
  reachable bisect particle_demo (self_ heap_demo).
Proof.
  pose proof (reach_calculate_s1_energies bisect particle_demo None 2 true
                particle_demo 0 (reach_init bisect particle_demo)) as H.
  rewrite query_demo in H. exact H.
Qed.

Lemma valid_energies_are_stored_witness :
  exists a b,
    s1_e (self_ heap_demo) = Some a /\ s1_h (self_ heap_demo) = Some b
    /\ calculate_s1_energies bisect None 1000 true (mkHeap (self_ heap_demo) 5)
       = (Ok (Some a, Some b), mkHeap (self_ heap_demo) 5).
Proof.
  apply (valid_energies_are_stored bisect core_demo shell_demo w_demo w_demo
           (self_ heap_demo) None 1000 true 5).
  - exact reachable_demo.
  - reflexivity.
Defined.

Lemma construction_time_fields_are_constant_witness :
  radius (set_core_width 2 (self_ heap_demo)) = (w_demo + w_demo) * n_.
Proof.
  apply (construction_time_fields_are_constant bisect core_demo shell_demo
           w_demo w_demo (set_core_width 2 (self_ heap_demo))).
  apply reach_set_core_width. exact reachable_demo.
Defined.

(** ** Arrays and scalars: the two ways a residual is evaluated *)

Lemma Cdiv_RtoC_total (a b : R) : Cdiv (RtoC a) (RtoC b) = RtoC (a / b).
Proof.
  destruct (Req_dec b 0) as [-> | Hb]; [ | now apply Cdiv_RtoC].
  unfold Cdiv, RtoC; cbn [Re Im]. unfold Rdiv.
  replace (0 * 0 + 0 * 0) with 0 by ring. rewrite Rinv_0. f_equal; ring.
Qed.

Lemma Ctan_RtoC_total (a : R) : Ctan (RtoC a) = RtoC (tan a).
Proof.
  destruct (Req_dec (cos a) 0) as [Hc | Hc]; [ | now apply Ctan_RtoC].
  unfold Ctan, Csin, Ccos, Cdiv, RtoC, tan; cbn [Re Im].
  rewrite cosh_0, sinh_0, Hc. unfold Rdiv.
  replace (0 * 1 * (0 * 1) + - (sin a * 0) * - (sin a * 0)) with 0 by ring.
  rewrite Rinv_0. f_equal; ring.
Qed.

Lemma tanxdivx_RtoC_total (a : R) : _tanxdivx (RtoC a) = RtoC (_tanxdivx a).
Proof.
  unfold _tanxdivx.
  cbn [nabs nmul nsub ndiv ntan of_float complex_Number float_Number].
  rewrite Cabs_RtoC. destruct (Rlt_dec (Rabs a) 1e-13).
  - now rewrite Cmul_RtoC, Cdiv_RtoC_total, Csub_RtoC.
  - now rewrite Ctan_RtoC_total, Cdiv_RtoC_total.
Qed.

Lemma astype_complex_nd_map (f : forall T, Number T -> T -> T) (a : ndarray) :
  (forall x : R, f C _ (RtoC x) = RtoC (f R _ x)) ->
  astype_complex (nd_map f a) = map (f C _) (astype_complex a).
Proof.
  intros Hf. destruct a as [l | l]; cbn [nd_map astype_complex]; [ | reflexivity].
  rewrite !map_map. apply map_ext. intros x. symmetry. apply Hf.
Qed.

Lemma zip_with_map_RtoC (f : R -> R -> R) (g : C -> C -> C) (l l' : list R) :
  (forall x y : R, g (RtoC x) (RtoC y) = RtoC (f x y)) ->
  map RtoC (zip_with f l l') = zip_with g (map RtoC l) (map RtoC l').
Proof.
  intros H. revert l'. induction l as [ | a t IH]; intros [ | b t']; cbn;
    try reflexivity.
  now rewrite H, IH.
Qed.

Lemma astype_complex_nd_map2 (f : forall T, Number T -> T -> T -> T)
    (a b : ndarray) :
  (forall x y : R, f C _ (RtoC x) (RtoC y) = RtoC (f R _ x y)) ->
  astype_complex (nd_map2 f a b) =
  zip_with (f C _) (astype_complex a) (astype_complex b).
Proof.
  intros Hf. destruct a as [l | l], b as [l' | l'];
    cbn [nd_map2 astype_complex]; try reflexivity.
  now apply zip_with_map_RtoC.
Qed.

Lemma np_real_astype_complex (a : ndarray) :
  np_real a = map Re (astype_complex a).
Proof.
  destruct a as [l | l]; cbn [np_real astype_complex]; [ | reflexivity].
  rewrite map_map. cbn [RtoC Re]. symmetry. apply map_id.
Qed.

Lemma astype_complex_csqrt (xs : list R) :
  astype_complex (csqrt xs) = map Csqrt_real xs.
Proof.
  unfold csqrt.
  destruct (existsb _ xs) eqn:Hex; cbn [astype_complex]; [reflexivity | ].
  rewrite map_map. apply map_ext_in. intros x Hx.
  unfold Csqrt_real. destruct (Rlt_dec x 0) as [Hneg | ]; [ | reflexivity].
  exfalso. assert (Ht : existsb (fun x => if Rlt_dec x 0 then true else false) xs
                        = true).
  { apply existsb_exists. exists x. split; [assumption | ].
    now rewrite Rlt_dec_true. }
  congruence.
Qed.

Lemma zip_with_map_same {A B D E} (f : B -> D -> E) (g : A -> B) (h : A -> D)
    (l : list A) :
  zip_with f (map g l) (map h l) = map (fun x => f (g x) (h x)) l.
Proof. induction l as [ | a t IH]; cbn; [reflexivity | now rewrite IH]. Qed.

Lemma times_width_wavenumber (energy : list R) (mass V width : R) :
  exists a,
    times_width (Some (wavenumber_from_energy energy mass V)) width = Ok a
    /\ astype_complex a = map (fun E => wavevector_c E mass V width) energy.
Proof.
  eexists. split; [reflexivity | ].
  rewrite astype_complex_nd_map
    by (intros x; cbn [nmul of_float complex_Number float_Number];
        apply Cmul_RtoC).
  unfold wavenumber_from_energy.
  rewrite astype_complex_nd_map
    by (intros x; cbn [ndiv of_float complex_Number float_Number];
        apply Cdiv_RtoC_total).
  rewrite astype_complex_csqrt, !map_map. reflexivity.
Qed.

Lemma residual_values (core_x shell_x : ndarray) (cw sw mr : R) :
  size core_x <> O -> size shell_x <> O ->
  _residual core_x shell_x cw sw mr =
  Ok (zip_with (fun a b => residual_c a b cw sw mr)
        (astype_complex core_x) (astype_complex shell_x)).
Proof.
  intros Hc Hs. unfold _residual. rewrite !tanxdivx_ok by assumption.
  cbn [rbind]. f_equal. rewrite np_real_astype_complex.
  rewrite astype_complex_nd_map2
    by (intros x y; cbn [nsub complex_Number float_Number]; apply Csub_RtoC).
  rewrite astype_complex_nd_map.
  2:{ intros x. cbn [nsub nmul ndiv of_float complex_Number float_Number].
      now rewrite Cdiv_RtoC_total, Csub_RtoC, Cmul_RtoC, Csub_RtoC. }
  rewrite (astype_complex_nd_map _ (nd_map (@_tanxdivx) shell_x)).
  2:{ intros x. cbn [nsub nmul ndiv of_float complex_Number float_Number].
      now rewrite Cdiv_RtoC_total, Cmul_RtoC, Cdiv_RtoC_total. }
  rewrite !(astype_complex_nd_map (@_tanxdivx)) by apply tanxdivx_RtoC_total.
  generalize (astype_complex core_x) (astype_complex shell_x).
  intros l. induction l as [ | a t IH]; intros [ | b t']; cbn; try reflexivity.
  f_equal. apply IH.
Qed.

Lemma residual_pipeline (energy : list R) (mk Vk mq Vq cw sw mr : R) :
  energy <> [] ->
  rbind (times_width (Some (wavenumber_from_energy energy mk Vk)) cw)
    (fun core_x =>
       rbind (times_width (Some (wavenumber_from_energy energy mq Vq)) sw)
         (fun shell_x => _residual core_x shell_x cw sw mr))
  = Ok (map (fun E => residual_c (wavevector_c E mk Vk cw)
                        (wavevector_c E mq Vq sw) cw sw mr) energy).
Proof.
  intros Hne.
  assert (Hlen : length energy <> O)
    by (destruct energy; [contradiction | discriminate]).
  destruct (times_width_wavenumber energy mk Vk cw) as (a & Ha & Hac).
  destruct (times_width_wavenumber energy mq Vq sw) as (b & Hb & Hbc).
  rewrite Ha, Hb. cbn [rbind].
  assert (Hsa : size a = length energy).
  { rewrite <- length_astype_complex, Hac. apply length_map. }
  assert (Hsb : size b = length energy).
  { rewrite <- length_astype_complex, Hbc. apply length_map. }
  rewrite residual_values by congruence.
  rewrite Hac, Hbc. f_equal. apply zip_with_map_same.
Qed.

Lemma electron_residual_elementwise (energy : list R) (p : CoreShellParticle) :
  e_h p = true \/ h_e p = true ->
  Material.m_e (cmat p) <> 0 ->
  energy <> [] ->
  electron_eigenvalue_residual energy p = Ok (map (electron_residual_at p) energy).
Proof.
  intros Hflag Hm Hne.
  unfold electron_eigenvalue_residual, electron_wavevectors, electron_residual_at,
    offsets_e.
  destruct (e_h p).
  - cbn [fst snd].
    rewrite <- (residual_pipeline energy _ _ _ _ _ _ _ Hne).
    cbn [times_width rbind]. now rewrite float_div_ok.
  - destruct (h_e p); [ | destruct Hflag; discriminate].
    cbn [fst snd].
    rewrite <- (residual_pipeline energy _ _ _ _ _ _ _ Hne).
    cbn [times_width rbind]. now rewrite float_div_ok.
Qed.

Lemma hole_residual_elementwise (energy : list R) (p : CoreShellParticle) :
  e_h p = true \/ h_e p = true ->
  Material.m_h (cmat p) <> 0 ->
  energy <> [] ->
  hole_eigenvalue_residual energy p = Ok (map (hole_residual_at p) energy).
Proof.
  intros Hflag Hm Hne.
  unfold hole_eigenvalue_residual, hole_wavevectors, hole_residual_at, offsets_e.
  destruct (e_h p).
  - cbn [fst snd].
    rewrite <- (residual_pipeline energy _ _ _ _ _ _ _ Hne).
    cbn [times_width rbind]. now rewrite float_div_ok.
  - destruct (h_e p); [ | destruct Hflag; discriminate].
    cbn [fst snd].
    rewrite <- (residual_pipeline energy _ _ _ _ _ _ _ Hne).
    cbn [times_width rbind]. now rewrite float_div_ok.
Qed.

Lemma electron_residual_ok_inv (energy y : list R) (p : CoreShellParticle) :
  electron_eigenvalue_residual energy p = Ok y ->
  (e_h p = true \/ h_e p = true) /\ Material.m_e (cmat p) <> 0 /\ energy <> [].
Proof.
  intros H.
  assert (Hflag : e_h p = true \/ h_e p = true).
  { destruct (e_h p) eqn:He; [now left | ].
    destruct (h_e p) eqn:Hh; [now right | ].
    rewrite electron_residual_no_ordering in H by assumption. discriminate. }
  split; [assumption | ]. split.
  - intros Hm. rewrite electron_residual_zero_mass in H by assumption.
    discriminate.
  - intros ->. destruct (Req_dec (Material.m_e (cmat p)) 0) as [Hm | Hm].
    + rewrite electron_residual_zero_mass in H by assumption. discriminate.
    + rewrite electron_residual_empty in H by assumption. discriminate.
Qed.

Lemma hole_residual_ok_inv (energy y : list R) (p : CoreShellParticle) :
  hole_eigenvalue_residual energy p = Ok y ->
  (e_h p = true \/ h_e p = true) /\ Material.m_h (cmat p) <> 0 /\ energy <> [].
Proof.
  unfold hole_eigenvalue_residual, hole_wavevectors. intros H.
  assert (Hflag : e_h p = true \/ h_e p = true).
  { destruct (e_h p) eqn:He; [now left | ].
    destruct (h_e p) eqn:Hh; [now right | ]. discriminate. }
  split; [assumption | ].
  assert (Hgen : forall k q : ndarray,
            rbind (times_width (Some k) (core_width p)) (fun core_x =>
            rbind (times_width (Some q) (shell_width p)) (fun shell_x =>
            rbind (float_div (Material.m_h (smat p)) (Material.m_h (cmat p)))
              (fun mass_ratio =>
                 _residual core_x shell_x (core_width p) (shell_width p)
                   mass_ratio))) = Ok y ->
            Material.m_h (cmat p) <> 0 /\ size k <> O).
  { intros k q. cbn [times_width rbind]. unfold float_div.
    destruct (Req_dec_T (Material.m_h (cmat p)) 0); [discriminate | ].
    cbn [rbind]. unfold _residual, tanxdivx. rewrite size_nd_map.
    destruct (size k); [discriminate | ]. intros _. split; [assumption | lia]. }
  destruct (e_h p).
  - apply Hgen in H as [Hm Hs]. split; [assumption | ].
    rewrite size_wavenumber in Hs. intros ->. now apply Hs.
  - destruct (h_e p); [ | destruct Hflag; discriminate].
    apply Hgen in H as [Hm Hs]. split; [assumption | ].
    rewrite size_wavenumber in Hs. intros ->. now apply Hs.
Qed.

Lemma at_scalar_electron (p : CoreShellParticle) (E : R) :
  e_h p = true \/ h_e p = true ->
  Material.m_e (cmat p) <> 0 ->
  at_scalar (fun x => electron_eigenvalue_residual x p) E
  = Ok (electron_residual_at p E).
Proof.
  intros Hflag Hm. unfold at_scalar.
  rewrite electron_residual_elementwise by (auto; discriminate). reflexivity.
Qed.

Lemma at_scalar_hole (p : CoreShellParticle) (E : R) :
  e_h p = true \/ h_e p = true ->
  Material.m_h (cmat p) <> 0 ->
  at_scalar (fun x => hole_eigenvalue_residual x p) E
  = Ok (hole_residual_at p E).
Proof.
  intros Hflag Hm. unfold at_scalar.
  rewrite hole_residual_elementwise by (auto; discriminate). reflexivity.
Qed.

(** X20. Evaluating a residual on an array and evaluating it on each
    energy alone give the same values (in exact arithmetic), although
    one energy below the offset turns the whole array of wavevectors
    complex: the value the scan sees at index [i] is the value the root
    finder computes at [energy[i]]. *)
Theorem residual_array_matches_scalar (energy : list R) (p : CoreShellParticle)
    (i : nat) (E : R) :
  nth_error energy i = Some E ->
  (forall y, electron_eigenvalue_residual energy p = Ok y ->
     exists v, nth_error y i = Some v
       /\ at_scalar (fun x => electron_eigenvalue_residual x p) E = Ok v)
  /\ (forall y, hole_eigenvalue_residual energy p = Ok y ->
        exists v, nth_error y i = Some v
          /\ at_scalar (fun x => hole_eigenvalue_residual x p) E = Ok v).
Proof.
  intros Hi. split; intros y Hy.
  - destruct (electron_residual_ok_inv energy y p Hy) as (Hflag & Hm & Hne).
    rewrite electron_residual_elementwise in Hy by assumption.
    injection Hy as <-. exists (electron_residual_at p E). split.
    + now apply map_nth_error.
    + now apply at_scalar_electron.
  - destruct (hole_residual_ok_inv energy y p Hy) as (Hflag & Hm & Hne).
    rewrite hole_residual_elementwise in Hy by assumption.
    injection Hy as <-. exists (hole_residual_at p E). split.
    + now apply map_nth_error.
    + now apply at_scalar_hole.
Qed.

Lemma residual_array_matches_scalar_witness :
  exists v, nth_error [y0_demo; y1_demo] 1 = Some v
    /\ at_scalar (fun x => electron_eigenvalue_residual x particle_demo)
         (5 * ue particle_demo) = Ok v.
Proof.
  apply (proj1 (residual_array_matches_scalar [0; 5 * ue particle_demo]
                  particle_demo 1 (5 * ue particle_demo) eq_refl)).
  apply residual_demo_pair.
Defined.

(** ** A sufficient condition for the scan and for the query *)

Lemma rising_chain (a d b : R) : rising a b -> ~ rising a d -> rising d b.
Proof.
  unfold rising, np_sign.
  destruct (Rlt_dec a 0), (Rlt_dec 0 a), (Rlt_dec b 0), (Rlt_dec 0 b),
    (Rlt_dec d 0), (Rlt_dec 0 d); lra.
Qed.

Lemma rising_irrefl (a : R) : ~ rising a a.
Proof. unfold rising. lra. Qed.

Lemma first_neg2pos_exists (y : list R) (a b : R) :
  nth_error y 0 = Some a ->
  nth_error y (length y - 1) = Some b ->
  rising a b ->
  exists i, first_neg2pos y = Some i.
Proof.
  revert a. induction y as [ | c t IH]; intros a Ha Hb Hr; [discriminate | ].
  cbn in Ha. injection Ha as ->.
  destruct t as [ | d t'].
  - cbn in Hb. injection Hb as ->. now apply rising_irrefl in Hr.
  - rewrite first_neg2pos_cons.
    destruct (Rlt_dec 0.5 (np_sign d - np_sign a)) as [Hs | Hs];
      [now exists O | ].
    destruct (IH d eq_refl) as [i Hi].
    + cbn [length] in *. replace (S (S (length t')) - 1)%nat
        with (S (length t')) in Hb by lia.
      replace (S (length t') - 1)%nat with (length t') by lia. exact Hb.
    + now apply rising_chain with a.
    + exists (S i). now rewrite Hi.
Qed.

Lemma sample_range (lower_bound upper_bound : R) (resolution i : nat) :
  lower_bound <= upper_bound -> (S i < resolution)%nat ->
  lower_bound <= sample lower_bound upper_bound resolution i
  /\ sample lower_bound upper_bound resolution i
     <= sample lower_bound upper_bound resolution (S i)
  /\ sample lower_bound upper_bound resolution (S i) <= upper_bound.
Proof.
  intros Hb Hi.
  assert (Hn : 0 < INR (resolution - 1)) by (apply lt_0_INR; lia).
  assert (Hstep : 0 <= (upper_bound - lower_bound) / INR (resolution - 1)).
  { apply Rmult_le_pos; [lra | ]. left. now apply Rinv_0_lt_compat. }
  assert (Hi0 : 0 <= INR i) by apply pos_INR.
  assert (Hi1 : INR (S i) <= INR (resolution - 1)) by (apply le_INR; lia).
  unfold sample. rewrite S_INR in *.
  set (d := (upper_bound - lower_bound) / INR (resolution - 1)) in *.
  assert (Hd : d * INR (resolution - 1) = upper_bound - lower_bound).
  { unfold d. field. lra. }
  repeat split; nra.
Qed.

Lemma linspace_ends (lower_bound upper_bound : R) (resolution : nat) :
  (2 <= resolution)%nat ->
  nth_error (linspace lower_bound upper_bound resolution) 0 = Some lower_bound
  /\ nth_error (linspace lower_bound upper_bound resolution) (resolution - 1)
     = Some upper_bound.
Proof.
  intros Hn. rewrite !linspace_nth by lia.
  now rewrite sample_first, sample_last.
Qed.

Lemma linspace_nonempty (lower_bound upper_bound : R) (resolution : nat) :
  (2 <= resolution)%nat -> linspace lower_bound upper_bound resolution <> [].
Proof.
  intros Hn H. apply (f_equal (@length R)) in H.
  rewrite linspace_length in H. cbn in H. lia.
Qed.

(** The scan of a callable that works element by element. *)
Lemma scan_elementwise (f : list R -> result (list R)) (g : R -> R)
    (lower_bound upper_bound : R) (resolution : nat) :
  (forall x, x <> [] -> f x = Ok (map g x)) ->
  (2 <= resolution)%nat ->
  rising (g lower_bound) (g upper_bound) ->
  exists i,
    (S i < resolution)%nat
    /\ scan_and_bracket f lower_bound upper_bound resolution
       = Ok (sample lower_bound upper_bound resolution i,
             sample lower_bound upper_bound resolution (S i))
    /\ g (sample lower_bound upper_bound resolution i) <= 0
       <= g (sample lower_bound upper_bound resolution (S i))
    /\ (g (sample lower_bound upper_bound resolution i) < 0
        \/ 0 < g (sample lower_bound upper_bound resolution (S i))).
Proof.
  intros Hf Hn Hr.
  set (x := linspace lower_bound upper_bound resolution).
  assert (Hfx : f x = Ok (map g x)) by (apply Hf; now apply linspace_nonempty).
  assert (Hlen : length (map g x) = resolution).
  { rewrite length_map. apply linspace_length. }
  destruct (linspace_ends lower_bound upper_bound resolution Hn) as [H0 H1].
  destruct (first_neg2pos_exists (map g x) (g lower_bound) (g upper_bound))
    as [i Hi].
  - rewrite nth_error_map. fold x in H0. now rewrite H0.
  - rewrite Hlen, nth_error_map. fold x in H1. now rewrite H1.
  - exact Hr.
  - exists i.
    assert (Hlt : (S i < resolution)%nat).
    { apply first_neg2pos_some in Hi as [Hat _].
      apply neg2pos_at_length in Hat. now rewrite Hlen in Hat. }
    split; [exact Hlt | ]. split.
    + now apply scan_and_bracket_selects with (y := map g x).
    + apply (first_neg2pos_signs (map g x) i); [exact Hi | | ];
        rewrite nth_error_map; unfold x; rewrite linspace_nth by lia;
        reflexivity.
Qed.

Section ScanAndRefine.

Variable brentq_iterate : (R -> result R) -> R -> R -> result R.

Lemma brentq_accepts (f : R -> result R) (lo hi a b : R) :
  f lo = Ok a -> f hi = Ok b ->
  a <= 0 <= b -> a < 0 \/ 0 < b ->
  brentq brentq_iterate f lo hi =
  (if Req_dec_T a 0 then Ok lo
   else if Req_dec_T b 0 then Ok hi
   else brentq_iterate f lo hi).
Proof.
  intros Ha Hb Hs1 Hs2. unfold brentq. rewrite Ha, Hb. cbn [rbind].
  destruct (Req_dec_T a 0); [reflexivity | ].
  destruct (Req_dec_T b 0); [reflexivity | ].
  rewrite Rlt_dec_false; [reflexivity | nra].
Qed.

Lemma scan_ok_elementwise (f : list R -> result (list R)) (g : R -> R)
    (lower_bound upper_bound : R) (resolution : nat) (lo hi : R) :
  (forall x, x <> [] -> f x = Ok (map g x)) ->
  scan_and_bracket f lower_bound upper_bound resolution = Ok (lo, hi) ->
  g lo <= 0 <= g hi /\ (g lo < 0 \/ 0 < g hi).
Proof.
  intros Hf H. apply scan_and_bracket_ok_inv in H as (y & i & Hy & Hi & Hlo & Hhi).
  rewrite Hf in Hy by (intros Hx; rewrite Hx in Hlo; destruct i; discriminate).
  injection Hy as <-.
  apply (first_neg2pos_signs
           (map g (linspace lower_bound upper_bound resolution)) i);
    [exact Hi | | ]; rewrite nth_error_map; [rewrite Hlo | rewrite Hhi];
    reflexivity.
Qed.

(** X21. The bracket found by scanning a residual is never refused by
    the root finder: the residual at its ends, evaluated as [brentq]
    does on single energies, is [<= 0] at the lower and [>= 0] at the
    upper end, not both zero, so [brentq] returns an end that is a root
    or starts to iterate. *)
Theorem residual_bracket_accepted_by_brentq (p : CoreShellParticle)
    (lower_bound upper_bound : R) (resolution : nat) (lo hi : R) :
  (scan_and_bracket (fun x => electron_eigenvalue_residual x p)
     lower_bound upper_bound resolution = Ok (lo, hi) ->
   exists a b,
     at_scalar (fun x => electron_eigenvalue_residual x p) lo = Ok a
     /\ at_scalar (fun x => electron_eigenvalue_residual x p) hi = Ok b
     /\ a <= 0 <= b /\ (a < 0 \/ 0 < b)
     /\ brentq brentq_iterate
          (at_scalar (fun x => electron_eigenvalue_residual x p)) lo hi =
        (if Req_dec_T a 0 then Ok lo
         else if Req_dec_T b 0 then Ok hi
         else brentq_iterate
                (at_scalar (fun x => electron_eigenvalue_residual x p)) lo hi))
  /\ (scan_and_bracket (fun x => hole_eigenvalue_residual x p)
        lower_bound upper_bound resolution = Ok (lo, hi) ->
      exists a b,
        at_scalar (fun x => hole_eigenvalue_residual x p) lo = Ok a
        /\ at_scalar (fun x => hole_eigenvalue_residual x p) hi = Ok b
        /\ a <= 0 <= b /\ (a < 0 \/ 0 < b)
        /\ brentq brentq_iterate
             (at_scalar (fun x => hole_eigenvalue_residual x p)) lo hi =
           (if Req_dec_T a 0 then Ok lo
            else if Req_dec_T b 0 then Ok hi
            else brentq_iterate
                   (at_scalar (fun x => hole_eigenvalue_residual x p)) lo hi)).
Proof.
  split; intros H.
  - assert (Hinv : (e_h p = true \/ h_e p = true) /\ Material.m_e (cmat p) <> 0).
    { pose proof H as H'.
      apply scan_and_bracket_ok_inv in H' as (y & _ & Hy & _).
      apply electron_residual_ok_inv in Hy. tauto. }
    destruct Hinv as [Hflag Hm].
    destruct (scan_ok_elementwise _ (electron_residual_at p) _ _ _ _ _
                (fun x Hx => electron_residual_elementwise x p Hflag Hm Hx) H)
      as [Hs1 Hs2].
    exists (electron_residual_at p lo), (electron_residual_at p hi).
    assert (Ha := at_scalar_electron p lo Hflag Hm).
    assert (Hb := at_scalar_electron p hi Hflag Hm).
    repeat split; try assumption; try tauto.
    now apply brentq_accepts.
  - assert (Hinv : (e_h p = true \/ h_e p = true) /\ Material.m_h (cmat p) <> 0).
    { pose proof H as H'.
      apply scan_and_bracket_ok_inv in H' as (y & _ & Hy & _).
      apply hole_residual_ok_inv in Hy. tauto. }
    destruct Hinv as [Hflag Hm].
    destruct (scan_ok_elementwise _ (hole_residual_at p) _ _ _ _ _
                (fun x Hx => hole_residual_elementwise x p Hflag Hm Hx) H)
      as [Hs1 Hs2].
    exists (hole_residual_at p lo), (hole_residual_at p hi).
    assert (Ha := at_scalar_hole p lo Hflag Hm).
    assert (Hb := at_scalar_hole p hi Hflag Hm).
    repeat split; try assumption; try tauto.
    now apply brentq_accepts.
Qed.

End ScanAndRefine.

Lemma residual_bracket_accepted_by_brentq_witness :
  exists a b,
    at_scalar (fun x => electron_eigenvalue_residual x particle_demo) 0 = Ok a
    /\ at_scalar (fun x => electron_eigenvalue_residual x particle_demo)
         (5 * ue particle_demo) = Ok b
    /\ a <= 0 <= b /\ (a < 0 \/ 0 < b)
    /\ brentq bisect
         (at_scalar (fun x => electron_eigenvalue_residual x particle_demo))
         0 (5 * ue particle_demo) =
       (if Req_dec_T a 0 then Ok 0
        else if Req_dec_T b 0 then Ok (5 * ue particle_demo)
        else bisect
               (at_scalar (fun x => electron_eigenvalue_residual x particle_demo))
               0 (5 * ue particle_demo)).
Proof.
  apply (proj1 (residual_bracket_accepted_by_brentq bisect particle_demo
                  0 (5 * ue particle_demo) 2 0 (5 * ue particle_demo))).
  apply scan_demo.
Defined.

Section QuerySucceeds.

Variable brentq_iterate : (R -> result R) -> R -> R -> result R.

(** The iteration of the root finder returns a point of the bracket. *)
Hypothesis brentq_iterate_returns :
  forall f lo hi, lo <= hi ->
    exists r, brentq_iterate f lo hi = Ok r /\ lo <= r <= hi.

Lemma scan_then_brentq (f : list R -> result (list R)) (g : R -> R)
    (lower_bound upper_bound : R) (resolution : nat) :
  (forall x, x <> [] -> f x = Ok (map g x)) ->
  (2 <= resolution)%nat ->
  lower_bound <= upper_bound ->
  rising (g lower_bound) (g upper_bound) ->
  exists bracket r,
    scan_and_bracket f lower_bound upper_bound resolution = Ok bracket
    /\ brentq brentq_iterate (at_scalar f) (fst bracket) (snd bracket) = Ok r
    /\ lower_bound <= r <= upper_bound.
Proof.
  intros Hf Hn Hb Hr.
  destruct (scan_elementwise f g lower_bound upper_bound resolution Hf Hn Hr)
    as (i & Hi & Hscan & Hs1 & Hs2).
  destruct (sample_range lower_bound upper_bound resolution i Hb Hi)
    as (Hr1 & Hr2 & Hr3).
  exists (sample lower_bound upper_bound resolution i,
          sample lower_bound upper_bound resolution (S i)).
  cbn [fst snd].
  assert (Hat : forall E, at_scalar f E = Ok (g E)).
  { intros E. unfold at_scalar. rewrite Hf by discriminate. reflexivity. }
  rewrite (brentq_accepts brentq_iterate (at_scalar f) _ _ _ _
             (Hat _) (Hat _) Hs1 Hs2).
  destruct (Req_dec_T _ 0); [eexists; repeat split; [eassumption | lra | lra] | ].
  destruct (Req_dec_T _ 0); [eexists; repeat split; [eassumption | lra | lra] | ].
  destruct (brentq_iterate_returns (at_scalar f) _ _ Hr2) as (r & Hrr & Hrb).
  exists r. repeat split; [assumption | assumption | lra | lra].
Qed.

Lemma at_scalar_ok_inv (f : list R -> result (list R)) (E v : R) :
  at_scalar f E = Ok v -> f [E] = Ok [v].
Proof.
  unfold at_scalar. destruct (f [E]) as [y | ]; [ | discriminate]. cbn [rbind].
  destruct y as [ | a [ | b t]]; try discriminate. now intros [= ->].
Qed.

Lemma energy_query_returns bounds (resolution : nat) (as_ev : bool)
    (p : CoreShellParticle) (n : nat) :
  energies_valid p = false ->
  e_h p = true \/ h_e p = true ->
  Material.m_e (cmat p) <> 0 -> Material.m_h (cmat p) <> 0 ->
  (2 <= resolution)%nat ->
  fst (limits_e bounds p) <= snd (limits_e bounds p) ->
  fst (limits_h bounds p) <= snd (limits_h bounds p) ->
  rising (electron_residual_at p (fst (limits_e bounds p)))
         (electron_residual_at p (snd (limits_e bounds p))) ->
  rising (hole_residual_at p (fst (limits_h bounds p)))
         (hole_residual_at p (snd (limits_h bounds p))) ->
  exists root_e root_h,
    calculate_s1_energies brentq_iterate bounds resolution as_ev (mkHeap p n)
    = (Ok (Some (in_unit as_ev root_e), Some (in_unit as_ev root_h)),
       mkHeap (with_energies_valid true
                 (with_s1_h (Some root_h) (with_s1_e (Some root_e) p)))
              (S (S n)))
    /\ fst (limits_e bounds p) <= root_e <= snd (limits_e bounds p)
    /\ fst (limits_h bounds p) <= root_h <= snd (limits_h bounds p).
Proof.
  intros Hv Hflag Hme Hmh Hn Hle Hlh Hre Hrh.
  destruct (scan_then_brentq (fun x => electron_eigenvalue_residual x p)
              (electron_residual_at p) _ _ resolution
              (fun x Hx => electron_residual_elementwise x p Hflag Hme Hx)
              Hn Hle Hre) as (bracket_e & root_e & Hse & Hbre & Hroot_e).
  set (p1 := with_s1_e (Some root_e) p).
  assert (Hhole : forall x, x <> [] ->
            hole_eigenvalue_residual x p1 = Ok (map (hole_residual_at p) x)).
  { intros x Hx. unfold p1. rewrite hole_residual_ignores_s1_e.
    now apply hole_residual_elementwise. }
  destruct (scan_then_brentq (fun x => hole_eigenvalue_residual x p1)
              (hole_residual_at p) _ _ resolution Hhole Hn Hlh Hrh)
    as (bracket_h & root_h & Hsh & Hbrh & Hroot_h).
  exists root_e, root_h. split; [ | split; assumption].
  rewrite calculate_s1_energies_fresh by assumption.
  rewrite Hse, Hbre. cbv zeta. fold p1. rewrite Hsh, Hbrh. reflexivity.
Qed.

(** X22. A sufficient condition for a query to return energies: on a
    particle with stale energies and a shell of non-zero width (for a
    zero width numpy's division makes every sample infinite and no
    bracket is found), with at least two samples, when [np.sign]
    of each residual steps up from the lower to the upper search limit,
    and the iteration of the root finder returns a point of the bracket it
    is given, the query returns two energies in the unit asked for, each
    within its search limits, stores them in joules and marks them
    valid, after exactly two scans. *)
Theorem energy_query_succeeds bounds (resolution : nat) (as_ev : bool)
    (p : CoreShellParticle) (n : nat) (a_e b_e a_h b_h : R) :
  energies_valid p = false ->
  shell_width p <> 0 ->
  (2 <= resolution)%nat ->
  fst (limits_e bounds p) <= snd (limits_e bounds p) ->
  fst (limits_h bounds p) <= snd (limits_h bounds p) ->
  at_scalar (fun x => electron_eigenvalue_residual x p) (fst (limits_e bounds p))
  = Ok a_e ->
  at_scalar (fun x => electron_eigenvalue_residual x p) (snd (limits_e bounds p))
  = Ok b_e ->
  rising a_e b_e ->
  at_scalar (fun x => hole_eigenvalue_residual x p) (fst (limits_h bounds p))
  = Ok a_h ->
  at_scalar (fun x => hole_eigenvalue_residual x p) (snd (limits_h bounds p))
  = Ok b_h ->
  rising a_h b_h ->
  exists root_e root_h,
    calculate_s1_energies brentq_iterate bounds resolution as_ev (mkHeap p n)
    = (Ok (Some (in_unit as_ev root_e), Some (in_unit as_ev root_h)),
       mkHeap (with_energies_valid true
                 (with_s1_h (Some root_h) (with_s1_e (Some root_e) p)))
              (S (S n)))
    /\ fst (limits_e bounds p) <= root_e <= snd (limits_e bounds p)
    /\ fst (limits_h bounds p) <= root_h <= snd (limits_h bounds p).
Proof.
  intros Hv _ Hn Hle Hlh Hae Hbe Hre Hah Hbh Hrh.
  destruct (electron_residual_ok_inv _ _ _ (at_scalar_ok_inv _ _ _ Hae))
    as (Hflag & Hme & _).
  destruct (hole_residual_ok_inv _ _ _ (at_scalar_ok_inv _ _ _ Hah))
    as (_ & Hmh & _).
  rewrite at_scalar_electron in Hae, Hbe by assumption.
  rewrite at_scalar_hole in Hah, Hbh by assumption.
  injection Hae as <-. injection Hbe as <-.
  injection Hah as <-. injection Hbh as <-.
  now apply energy_query_returns.
Qed.

End QuerySucceeds.

Lemma bisect_returns (f : R -> result R) (lo hi : R) :
  lo <= hi -> exists r, bisect f lo hi = Ok r /\ lo <= r <= hi.
Proof. intros H. exists ((lo + hi) / 2). split; [reflexivity | lra]. Qed.

Lemma ue_demo_pos : 0 < ue particle_demo.
Proof. pose proof root_demo_pos. unfold root_demo in *. lra. Qed.

Lemma rising_demo : rising y0_demo y1_demo.
Proof.
  apply rising_iff. pose proof y0_demo_neg. pose proof y1_demo_pos. lra.
Qed.

Lemma at_scalar_demo_0 :
  at_scalar (fun x => electron_eigenvalue_residual x particle_demo) 0 = Ok y0_demo.
Proof. unfold at_scalar. now rewrite residual_demo_at_0. Qed.

Lemma at_scalar_demo_top :
  at_scalar (fun x => electron_eigenvalue_residual x particle_demo)
    (5 * ue particle_demo) = Ok y1_demo.
Proof. unfold at_scalar. now rewrite residual_demo_at_top. Qed.

Lemma residual_at_demo :
  electron_residual_at particle_demo 0 = y0_demo
  /\ electron_residual_at particle_demo (5 * ue particle_demo) = y1_demo
  /\ hole_residual_at particle_demo 0 = y0_demo
  /\ hole_residual_at particle_demo (5 * ue particle_demo) = y1_demo.
Proof.
  assert (Hflag : e_h particle_demo = true \/ h_e particle_demo = true)
    by (right; apply h_e_demo).
  assert (Hm : Material.m_e (cmat particle_demo) <> 0) by (cbn; lra).
  pose proof (at_scalar_electron particle_demo 0 Hflag Hm) as H0.
  pose proof (at_scalar_electron particle_demo (5 * ue particle_demo) Hflag Hm)
    as H1.
  rewrite at_scalar_demo_0 in H0. rewrite at_scalar_demo_top in H1.
  injection H0 as H0. injection H1 as H1.
  repeat split; symmetry; assumption.
Qed.

Lemma query_demo_any_resolution (resolution : nat) (as_ev : bool) (n : nat) :
  (2 <= resolution)%nat ->
  exists root_e root_h,
    calculate_s1_energies bisect None resolution as_ev (mkHeap particle_demo n)
    = (Ok (Some (in_unit as_ev root_e), Some (in_unit as_ev root_h)),
       mkHeap (with_energies_valid true
                 (with_s1_h (Some root_h) (with_s1_e (Some root_e) particle_demo)))
              (S (S n)))
    /\ 0 <= root_e <= 5 * ue particle_demo
    /\ 0 <= root_h <= 5 * uh particle_demo.
Proof.
  intros Hn. pose proof ue_demo_pos as Hu.
  assert (Huh : uh particle_demo = ue particle_demo)
    by now rewrite uh_demo, ue_demo.
  destruct residual_at_demo as (He0 & He1 & Hh0 & Hh1).
  apply (energy_query_returns bisect bisect_returns None resolution as_ev
           particle_demo n).
  - reflexivity.
  - right. apply h_e_demo.
  - cbn. lra.
  - cbn. lra.
  - exact Hn.
  - cbn [limits_e fst snd]. lra.
  - cbn [limits_h fst snd]. rewrite Huh. lra.
  - cbn [limits_e fst snd]. rewrite He0, He1. apply rising_demo.
  - cbn [limits_h fst snd]. rewrite Huh, Hh0, Hh1. apply rising_demo.
Qed.

Lemma energy_query_succeeds_witness :
  exists root_e root_h,
    calculate_s1_energies bisect None 1000 true (mkHeap particle_demo 0)
    = (Ok (Some (in_unit true root_e), Some (in_unit true root_h)),
       mkHeap (with_energies_valid true
                 (with_s1_h (Some root_h) (with_s1_e (Some root_e) particle_demo)))
              2)
    /\ fst (limits_e None particle_demo) <= root_e <= snd (limits_e None particle_demo)
    /\ fst (limits_h None particle_demo) <= root_h <= snd (limits_h None particle_demo).
Proof.
  pose proof ue_demo_pos as Hu.
  assert (Huh : uh particle_demo = ue particle_demo)
    by now rewrite uh_demo, ue_demo.
  apply (energy_query_succeeds bisect bisect_returns None 1000 true
           particle_demo 0 y0_demo y1_demo y0_demo y1_demo).
  - reflexivity.
  - change (shell_width particle_demo) with (w_demo * n_).
    rewrite width_demo. pose proof PI_gt_3. lra.
  - lia.
  - cbn [limits_e fst snd]. lra.
  - cbn [limits_h fst snd]. rewrite Huh. lra.
  - apply at_scalar_demo_0.
  - apply at_scalar_demo_top.
  - apply rising_demo.
  - apply at_scalar_demo_0.
  - cbn [limits_h fst snd]. rewrite Huh. apply at_scalar_demo_top.
  - apply rising_demo.
Defined.

(** X23. The scan finds a bracket whenever [np.sign] is higher at the
    last sample than at the first: some consecutive pair then steps up,
    and the first such pair is returned. *)
Theorem scan_finds_bracket (f : list R -> result (list R))
    (lower_bound upper_bound : R) (resolution : nat) (y : list R) (a b : R) :
  f (linspace lower_bound upper_bound resolution) = Ok y ->
  length y = resolution ->
  nth_error y 0 = Some a ->
  nth_error y (resolution - 1) = Some b ->
  rising a b ->
  exists i,
    (S i < resolution)%nat
    /\ first_neg2pos y = Some i
    /\ scan_and_bracket f lower_bound upper_bound resolution
       = Ok (sample lower_bound upper_bound resolution i,
             sample lower_bound upper_bound resolution (S i)).
Proof.
  intros Hf Hlen Ha Hb Hr.
  destruct (first_neg2pos_exists y a b) as [i Hi]; try assumption.
  - now rewrite Hlen.
  - exists i. split; [ | split; [assumption | ]].
    + apply first_neg2pos_some in Hi as [Hat _].
      apply neg2pos_at_length in Hat. now rewrite Hlen in Hat.
    + now apply scan_and_bracket_selects with (y := y).
Qed.

Lemma scan_finds_bracket_witness :
  exists i,
    (S i < 4)%nat
    /\ first_neg2pos [-1; -2; 3; 1] = Some i
    /\ scan_and_bracket (fun _ => Ok [-1; -2; 3; 1]) 0 3 4
       = Ok (sample 0 3 4 i, sample 0 3 4 (S i)).
Proof.
  apply (scan_finds_bracket (fun _ => Ok [-1; -2; 3; 1]) 0 3 4 [-1; -2; 3; 1]
           (-1) 1); try reflexivity.
  apply rising_iff. lra.
Defined.

(** ** Wavenumbers *)

Lemma Csqrt_real_square (x : R) :
  Cmul (Csqrt_real x) (Csqrt_real x) = RtoC x.
Proof.
  unfold Csqrt_real, Cmul, RtoC. destruct (Rlt_dec x 0); cbn [Re Im].
  - assert (H : sqrt (- x) * sqrt (- x) = - x) by (apply sqrt_sqrt; lra).
    f_equal; [ | ring]. lra.
  - assert (H : sqrt x * sqrt x = x) by (apply sqrt_sqrt; lra).
    f_equal; [ | ring]. lra.
Qed.

Lemma Cdiv_real_square (z : C) (c : R) :
  c <> 0 ->
  Cmul (Cdiv z (RtoC c)) (Cdiv z (RtoC c)) = Cdiv (Cmul z z) (RtoC (c * c)).
Proof.
  intros Hc. unfold Cmul, Cdiv, RtoC; cbn [Re Im]. f_equal; field; nra.
Qed.

Lemma wavenumber_astype_complex (energy : list R) (mass potential_offset : R) :
  astype_complex (wavenumber_from_energy energy mass potential_offset) =
  map (fun E => Cdiv (Csqrt_real (2 * mass * m_e * (E - potential_offset)))
                  (RtoC hbar)) energy.
Proof.
  unfold wavenumber_from_energy.
  rewrite astype_complex_nd_map
    by (intros x; cbn [ndiv of_float complex_Number float_Number];
        apply Cdiv_RtoC_total).
  rewrite astype_complex_csqrt, !map_map. reflexivity.
Qed.

Lemma wavenumber_square (energy : list R) (mass potential_offset : R) :
  map (fun k => Cmul k k)
    (astype_complex (wavenumber_from_energy energy mass potential_offset)) =
  map (fun E => RtoC (2 * mass * m_e * (E - potential_offset) / (hbar * hbar)))
    energy.
Proof.
  rewrite wavenumber_astype_complex, map_map. apply map_ext. intros E.
  pose proof hbar_pos.
  rewrite Cdiv_real_square by lra. rewrite Csqrt_real_square.
  apply Cdiv_RtoC. nra.
Qed.

(** X24. Round trip of [wavenumber_from_energy]: whatever the sign of
    the mass and of [energy - potential_offset], and whatever dtype the
    array takes, every wavenumber [k] satisfies
    [k * k = 2 * mass * m_e * (energy - potential_offset) / hbar ** 2],
    so with a non-zero mass the energy is recovered as
    [potential_offset + hbar ** 2 * k * k / (2 * mass * m_e)]. *)
Theorem wavenumber_round_trip (energy : list R) (mass potential_offset : R) :
  map (fun k => Cmul k k)
    (astype_complex (wavenumber_from_energy energy mass potential_offset)) =
  map (fun E => RtoC (2 * mass * m_e * (E - potential_offset) / (hbar * hbar)))
    energy
  /\ (mass <> 0 ->
      map (fun k => potential_offset
                    + hbar * hbar * Re (Cmul k k) / (2 * mass * m_e))
        (astype_complex (wavenumber_from_energy energy mass potential_offset))
      = energy).
Proof.
  split; [apply wavenumber_square | ].
  intros Hm.
  rewrite <- (map_map (fun k => Cmul k k)
                (fun z => potential_offset + hbar * hbar * Re z / (2 * mass * m_e))).
  rewrite wavenumber_square, map_map. rewrite <- (map_id energy) at 2.
  apply map_ext. intros E. cbn [RtoC Re].
  pose proof hbar_pos. pose proof m_e_pos. field. repeat split; lra.
Qed.

Lemma wavenumber_injective (E E' mass potential_offset : R) :
  mass <> 0 ->
  wavenumber_from_energy [E] mass potential_offset
  = wavenumber_from_energy [E'] mass potential_offset ->
  E = E'.
Proof.
  intros Hm H.
  pose proof (wavenumber_square [E] mass potential_offset) as H1.
  pose proof (wavenumber_square [E'] mass potential_offset) as H2.
  rewrite H, H2 in H1. cbn [map] in H1. injection H1 as H1.
  pose proof hbar_pos. pose proof m_e_pos.
  assert (Hh : 0 < hbar * hbar) by nra.
  assert (Hk : 2 * mass * m_e * (E' - potential_offset)
               = 2 * mass * m_e * (E - potential_offset)).
  { apply Rmult_eq_reg_r with (/ (hbar * hbar)); [exact H1 | ].
    apply Rinv_neq_0_compat. lra. }
  assert (Hc : 2 * mass * m_e <> 0).
  { destruct (Rtotal_order mass 0) as [Hneg | [Hz | Hpos]]; [ | contradiction | ];
      nra. }
  apply Rmult_eq_reg_l in Hk; [lra | assumption].
Qed.

Section Wavenumbers.

Variable brentq_iterate : (R -> result R) -> R -> R -> result R.

Lemma calculate_wavenumbers_after (h h' : heap) (a b : R) :
  calculate_s1_energies brentq_iterate None 1000 true h
  = (Ok (Some a, Some b), h') ->
  e_h (self_ h') = true \/ h_e (self_ h') = true ->
  calculate_wavenumbers brentq_iterate h
  = (Ok (Some (wavenumbers_of (self_ h') a b)), h').
Proof.
  intros Hq Hflag. unfold calculate_wavenumbers, mbind at 1. rewrite Hq.
  unfold mbind, get_self, wavenumbers_of.
  destruct (e_h (self_ h')); [reflexivity | ].
  destruct (h_e (self_ h')); [reflexivity | ].
  destruct Hflag; discriminate.
Qed.

Lemma calculate_wavenumbers_raise (h h' : heap) (x : exn) :
  calculate_s1_energies brentq_iterate None 1000 true h = (Raise x, h') ->
  calculate_wavenumbers brentq_iterate h = (Raise x, h').
Proof.
  intros Hq. unfold calculate_wavenumbers, mbind at 1. now rewrite Hq.
Qed.

Lemma calculate_wavenumbers_fresh_ok (p : CoreShellParticle) (n : nat)
    (r : option (list ndarray)) (h' : heap) :
  energies_valid p = false ->
  calculate_wavenumbers brentq_iterate (mkHeap p n) = (Ok r, h') ->
  exists a b,
    h' = mkHeap (with_energies_valid true
                   (with_s1_h (Some b) (with_s1_e (Some a) p))) (S (S n))
    /\ (e_h p = true \/ h_e p = true)
    /\ r = Some (wavenumbers_of p (a / e) (b / e)).
Proof.
  intros Hv H.
  assert (Hflag : e_h p = true \/ h_e p = true).
  { destruct (e_h p) eqn:He; [now left | ].
    destruct (h_e p) eqn:Hh; [now right | ].
    rewrite (calculate_wavenumbers_raise _ _ _
               (query_no_ordering brentq_iterate None 1000 true p n He Hh Hv)) in H.
    discriminate. }
  destruct (calculate_s1_energies_outcome brentq_iterate None 1000 true p n Hv)
    as [(x & Ho) | [(x & a & Ho) | (a & b & Ho)]]; cbv zeta in Ho.
  - rewrite (calculate_wavenumbers_raise _ _ _ Ho) in H. discriminate.
  - rewrite (calculate_wavenumbers_raise _ _ _ Ho) in H. discriminate.
  - rewrite (calculate_wavenumbers_after _ _ _ _ Ho) in H by exact Hflag.
    injection H as <- <-. exists a, b. repeat split. exact Hflag.
Qed.

(** X25. [calculate_wavenumbers] takes its energies from a query with the
    default [as_ev = True]: on stale energies the wavenumbers are those
    of the energies in electron-volts, although [wavenumber_from_energy]
    works in joules; called again, it takes the stored joules from the
    cache.  The two results differ as soon as the electron energy and
    the electron mass of the core are not zero. *)
Theorem wavenumbers_depend_on_cache (p : CoreShellParticle) (n : nat)
    (r : option (list ndarray)) (h' : heap) :
  energies_valid p = false ->
  calculate_wavenumbers brentq_iterate (mkHeap p n) = (Ok r, h') ->
  exists a b,
    s1_e (self_ h') = Some a /\ s1_h (self_ h') = Some b
    /\ r = Some (wavenumbers_of p (a / e) (b / e))
    /\ calculate_wavenumbers brentq_iterate h'
       = (Ok (Some (wavenumbers_of p a b)), h')
    /\ (a <> 0 -> Material.m_e (cmat p) <> 0 ->
        r <> Some (wavenumbers_of p a b)).
Proof.
  intros Hv H.
  destruct (calculate_wavenumbers_fresh_ok p n r h' Hv H)
    as (a & b & -> & Hflag & ->).
  exists a, b. cbn [self_ s1_e s1_h with_energies_valid with_s1_h with_s1_e].
  repeat split.
  - set (h' := mkHeap (with_energies_valid true
                         (with_s1_h (Some b) (with_s1_e (Some a) p))) (S (S n))).
    assert (Hc : calculate_wavenumbers brentq_iterate h'
                 = (Ok (Some (wavenumbers_of (self_ h') a b)), h')).
    { apply calculate_wavenumbers_after; [ | exact Hflag].
      unfold h'. now rewrite calculate_s1_energies_cached. }
    exact Hc.
  - intros Ha Hm Heq. injection Heq as Heq. unfold wavenumbers_of in Heq.
    assert (Hae : a / e = a).
    { destruct (e_h p); injection Heq as Heq _;
        now apply wavenumber_injective in Heq. }
    pose proof e_pos as He.
    assert (He1 : e < 1) by (unfold e; lra).
    apply Ha. apply (Rmult_eq_compat_r e) in Hae.
    unfold Rdiv in Hae. rewrite Rmult_assoc, Rinv_l, Rmult_1_r in Hae by lra.
    nra.
Qed.

Lemma reachable_valid_flag (p0 p : CoreShellParticle) :
  energies_valid p0 = false ->
  reachable brentq_iterate p0 p ->
  energies_valid p = true ->
  e_h p = true \/ h_e p = true.
Proof.
  intros Hv0 Hr Hv.
  destruct (e_h p) eqn:He; [now left | ].
  destruct (h_e p) eqn:Hh; [now right | ].
  destruct (reachable_frame brentq_iterate p0 p Hr)
    as (_ & _ & _ & _ & _ & Hh0 & He0 & _).
  rewrite Hh in Hh0. rewrite He in He0.
  destruct (reachable_no_ordering brentq_iterate p0 p) as (_ & _ & Hv');
    auto; congruence.
Qed.

(** X26. On every object reachable from the constructor, a call of
    [calculate_wavenumbers] that returns, returns four arrays of one
    wavenumber each: the fall-through that would return [None] when
    neither ordering flag is set is never reached, because the query
    before it raises on such a particle. *)
Theorem calculate_wavenumbers_never_none (core shell : Material.t) (cw sw : R)
    (p : CoreShellParticle) (n : nat) (r : option (list ndarray)) (h' : heap) :
  reachable brentq_iterate (__init__ core shell cw sw) p ->
  calculate_wavenumbers brentq_iterate (mkHeap p n) = (Ok r, h') ->
  exists k_e q_e k_h q_h,
    r = Some [k_e; q_e; k_h; q_h]
    /\ size k_e = 1%nat /\ size q_e = 1%nat
    /\ size k_h = 1%nat /\ size q_h = 1%nat.
Proof.
  intros Hr H.
  assert (Hw : exists a b, r = Some (wavenumbers_of p a b)).
  { destruct (energies_valid p) eqn:Hv.
    - destruct (reachable_energies_stored brentq_iterate
                  (__init__ core shell cw sw) p eq_refl Hr Hv)
        as (a & b & Ha & Hb).
      assert (Hflag := reachable_valid_flag (__init__ core shell cw sw) p
                         eq_refl Hr Hv).
      rewrite (calculate_wavenumbers_after _ (mkHeap p n) a b) in H.
      + injection H as <- _. now exists a, b.
      + rewrite calculate_s1_energies_cached by assumption. now rewrite Ha, Hb.
      + exact Hflag.
    - destruct (calculate_wavenumbers_fresh_ok p n r h' Hv H)
        as (a & b & _ & _ & ->).
      now exists (a / e), (b / e). }
  destruct Hw as (a & b & ->). unfold wavenumbers_of.
  destruct (e_h p); do 4 eexists; (split; [reflexivity | ]);
    repeat split; apply size_wavenumber.
Qed.

End Wavenumbers.

Lemma wavenumbers_depend_on_cache_witness :
  exists r h' a b,
    calculate_wavenumbers bisect (mkHeap particle_demo 0) = (Ok r, h')
    /\ s1_e (self_ h') = Some a /\ s1_h (self_ h') = Some b
    /\ r = Some (wavenumbers_of particle_demo (a / e) (b / e))
    /\ calculate_wavenumbers bisect h'
       = (Ok (Some (wavenumbers_of particle_demo a b)), h').
Proof.
  destruct (query_demo_any_resolution 1000 true 0) as (re & rh & Hq & _);
    [lia | ].
  assert (Hfirst := calculate_wavenumbers_after bisect _ _ _ _ Hq
                      (or_intror h_e_demo)).
  destruct (wavenumbers_depend_on_cache bisect particle_demo 0 _ _ eq_refl Hfirst)
    as (a & b & Ha & Hb & Hr & Hsecond & _).
  exact (ex_intro _ _ (ex_intro _ _ (ex_intro _ a (ex_intro _ b
           (conj Hfirst (conj Ha (conj Hb (conj Hr Hsecond)))))))).
Defined.

Lemma calculate_wavenumbers_never_none_witness :
  exists k_e q_e k_h q_h,
    Some (wavenumbers_of (self_ heap_demo) root_demo root_demo)
    = Some [k_e; q_e; k_h; q_h]
    /\ size k_e = 1%nat /\ size q_e = 1%nat
    /\ size k_h = 1%nat /\ size q_h = 1%nat.
Proof.
  apply (calculate_wavenumbers_never_none bisect core_demo shell_demo
           w_demo w_demo (self_ heap_demo) 0 _ (mkHeap (self_ heap_demo) 0)).
  - apply reachable_demo.
  - apply (calculate_wavenumbers_after bisect (mkHeap (self_ heap_demo) 0)
             (mkHeap (self_ heap_demo) 0) root_demo root_demo);
      [ | right; apply h_e_demo].
    now rewrite calculate_s1_energies_cached.
Defined.

(** ** Band alignment and the outcomes of a residual *)

(** X27. The classification the constructor computes: at most one of
    [type_one], [h_e] and [e_h] is set; [type_two] is [h_e or e_h];
    exchanging core and shell exchanges [h_e] and [e_h] and keeps both
    offsets; and no flag at all is set exactly when two band edges are
    equal or the core has the lower valence and the higher conduction
    band edge (the gap of the shell inside that of the core). *)
Theorem band_alignment_flags (core shell : Material.t) (cw sw cw' sw' : R) :
  type_one (__init__ core shell cw sw) && h_e (__init__ core shell cw sw) = false
  /\ type_one (__init__ core shell cw sw) && e_h (__init__ core shell cw sw) = false
  /\ h_e (__init__ core shell cw sw) && e_h (__init__ core shell cw sw) = false
  /\ type_two (__init__ core shell cw sw)
     = h_e (__init__ core shell cw sw) || e_h (__init__ core shell cw sw)
  /\ h_e (__init__ shell core cw' sw') = e_h (__init__ core shell cw sw)
  /\ e_h (__init__ shell core cw' sw') = h_e (__init__ core shell cw sw)
  /\ ue (__init__ shell core cw' sw') = ue (__init__ core shell cw sw)
  /\ uh (__init__ shell core cw' sw') = uh (__init__ core shell cw sw)
  /\ (type_one (__init__ core shell cw sw) = false
      /\ type_two (__init__ core shell cw sw) = false
      <-> Material.vbe core = Material.vbe shell
          \/ Material.cbe core = Material.cbe shell
          \/ (Material.vbe core < Material.vbe shell
              /\ Material.cbe shell < Material.cbe core)).
Proof.
  rewrite type_two_init, !h_e_init, !e_h_init.
  change (type_one (__init__ core shell cw sw)) with (_is_type_one core shell).
  change (ue (__init__ shell core cw' sw'))
    with (Rabs (Material.cbe shell - Material.cbe core) * e).
  change (ue (__init__ core shell cw sw))
    with (Rabs (Material.cbe core - Material.cbe shell) * e).
  change (uh (__init__ shell core cw' sw'))
    with (Rabs (Material.vbe shell - Material.vbe core) * e).
  change (uh (__init__ core shell cw sw))
    with (Rabs (Material.vbe core - Material.vbe shell) * e).
  rewrite (Rabs_minus_sym (Material.cbe shell)),
    (Rabs_minus_sym (Material.vbe shell)).
  unfold _is_type_one, float_gt, float_lt.
  destruct (Rlt_dec (Material.vbe shell) (Material.vbe core)),
    (Rlt_dec (Material.vbe core) (Material.vbe shell)),
    (Rlt_dec (Material.cbe shell) (Material.cbe core)),
    (Rlt_dec (Material.cbe core) (Material.cbe shell));
    cbn [andb orb]; repeat split; try reflexivity; try lra;
    try (intros [? ?]; discriminate);
    try (intros _; lra);
    try (intros [? | [? | [? ?]]]; lra).
Qed.

(** X28. The outcomes of both residual functions, in the order the code
    meets them: without an ordering flag [TypeError] (the wavevectors
    stay [None]); else, with a zero mass of the core in the mass ratio,
    [ZeroDivisionError]; else, on an empty array, [ValueError] (the
    vectorised ratio refuses it); else an array with one value per
    energy. *)
Theorem residual_outcomes (energy : list R) (p : CoreShellParticle) :
  (e_h p = false -> h_e p = false ->
   electron_eigenvalue_residual energy p = Raise TypeError
   /\ hole_eigenvalue_residual energy p = Raise TypeError)
  /\ (e_h p = true \/ h_e p = true ->
      (Material.m_e (cmat p) = 0 ->
       electron_eigenvalue_residual energy p = Raise ZeroDivisionError)
      /\ (Material.m_h (cmat p) = 0 ->
          hole_eigenvalue_residual energy p = Raise ZeroDivisionError)
      /\ (Material.m_e (cmat p) <> 0 ->
          electron_eigenvalue_residual [] p = Raise ValueError
          /\ (energy <> [] ->
              exists y, electron_eigenvalue_residual energy p = Ok y
                        /\ length y = length energy))
      /\ (Material.m_h (cmat p) <> 0 ->
          hole_eigenvalue_residual [] p = Raise ValueError
          /\ (energy <> [] ->
              exists y, hole_eigenvalue_residual energy p = Ok y
                        /\ length y = length energy))).
Proof.
  split.
  - intros He Hh. split;
      [now apply electron_residual_no_ordering
      | now apply hole_residual_no_ordering].
  - intros Hflag. split; [ | split; [ | split]].
    + intros Hm. now apply electron_residual_zero_mass.
    + intros Hm. unfold hole_eigenvalue_residual, hole_wavevectors.
      destruct (e_h p); [ | destruct (h_e p); [ | destruct Hflag; discriminate]];
        cbn [times_width rbind]; unfold float_div;
        rewrite Req_dec_true by assumption; reflexivity.
    + intros Hm. split; [now apply electron_residual_empty | ].
      intros Hne. exists (map (electron_residual_at p) energy).
      split; [now apply electron_residual_elementwise | apply length_map].
    + intros Hm. split.
      * unfold hole_eigenvalue_residual, hole_wavevectors.
        destruct (e_h p); [ | destruct (h_e p); [ | destruct Hflag; discriminate]];
          cbn [times_width rbind]; rewrite float_div_ok by assumption;
          reflexivity.
      * intros Hne. exists (map (hole_residual_at p) energy).
        split; [now apply hole_residual_elementwise | apply length_map].
Qed.

(** ** The unit of cached energies, with the root [brentq] returns *)

Lemma residual_c_real (cx sx : C) (tc ts cw sw mr : R) :
  _tanxdivx cx = RtoC tc -> _tanxdivx sx = RtoC ts ->
  residual_c cx sx cw sw mr = residual_value tc ts cw sw mr.
Proof.
  intros Hc Hs. unfold residual_c, residual_value. rewrite Hc, Hs.
  rewrite !Cdiv_RtoC_total, Csub_RtoC, !Cmul_RtoC, Csub_RtoC, Cdiv_RtoC_total,
    Csub_RtoC.
  reflexivity.
Qed.

Lemma wavevector_c_nonneg (E mass potential_offset width : R) :
  0 <= 2 * mass * m_e * (E - potential_offset) ->
  wavevector_c E mass potential_offset width =
  RtoC (sqrt (2 * mass * m_e * (E - potential_offset)) / hbar * width).
Proof.
  intros Hx. unfold wavevector_c, Csqrt_real.
  rewrite Rlt_dec_false by lra.
  change (mkC (sqrt (2 * mass * m_e * (E - potential_offset))) 0)
    with (RtoC (sqrt (2 * mass * m_e * (E - potential_offset)))).
  now rewrite Cdiv_RtoC_total, Cmul_RtoC.
Qed.

Lemma wavevector_c_neg (E mass potential_offset width : R) :
  2 * mass * m_e * (E - potential_offset) < 0 ->
  wavevector_c E mass potential_offset width =
  mkC 0 (sqrt (- (2 * mass * m_e * (E - potential_offset))) / hbar * width).
Proof.
  intros Hx. unfold wavevector_c, Csqrt_real.
  rewrite Rlt_dec_true by assumption.
  pose proof hbar_pos. unfold Cdiv, Cmul, RtoC; cbn [Re Im].
  f_equal; field; lra.
Qed.

Lemma width_thin : w_thin * n_ = PI / 3.
Proof. unfold w_thin. pose proof n__pos. field. lra. Qed.

Lemma h_e_thin : h_e particle_thin = true.
Proof. exact h_e_demo. Qed.

Lemma sqrt3_bounds : 17 / 10 < sqrt 3 < 174 / 100.
Proof.
  assert (H : sqrt 3 * sqrt 3 = 3) by (apply sqrt_sqrt; lra).
  assert (H0 : 0 <= sqrt 3) by apply sqrt_pos.
  split; nra.
Qed.

Lemma T3_value : T3 = 3 * sqrt 3 / PI.
Proof. unfold T3. rewrite tan_PI3. pose proof PI_gt_3. field. lra. Qed.

Lemma T3_pos : 0 < T3.
Proof.
  rewrite T3_value. pose proof PI_gt_3. pose proof sqrt3_bounds.
  apply Rdiv_lt_0_compat; lra.
Qed.

Lemma tanxdivx_thin : _tanxdivx (RtoC (PI / 3)) = RtoC T3.
Proof.
  rewrite tanxdivx_RtoC_total. f_equal. apply tanxdivx_float.
  pose proof PI_gt_3. rewrite Rabs_pos_eq; lra.
Qed.

Lemma tanxdivx_RtoC_0 : _tanxdivx (RtoC 0) = RtoC 1.
Proof. rewrite tanxdivx_RtoC_total. f_equal. apply tanxdivx_float_0. Qed.

Lemma residual_at_thin :
  electron_residual_at particle_thin 0 = y0_thin
  /\ electron_residual_at particle_thin (5 * ue particle_thin) = y1_thin.
Proof.
  pose proof m_e_pos as Hm. pose proof hbar_pos as Hh.
  assert (Hue : ue particle_thin = hbar * hbar / (8 * m_e)) by exact ue_demo.
  unfold electron_residual_at, offsets_e.
  assert (He : e_h particle_thin = false) by exact e_h_demo.
  assert (Hmc : Material.m_e (cmat particle_thin) = 1) by reflexivity.
  assert (Hms : Material.m_e (smat particle_thin) = 4 / 5) by reflexivity.
  assert (Hcw : core_width particle_thin = w_demo * n_) by reflexivity.
  assert (Hsw : shell_width particle_thin = w_thin * n_) by reflexivity.
  rewrite He, Hmc, Hms, Hcw, Hsw. cbn [fst snd].
  rewrite width_demo, width_thin, Hue.
  replace (4 / 5 / 1) with (4 / 5) by field.
  split.
  - rewrite wavevector_c_neg by (apply Ropp_lt_cancel; field_simplify; nra).
    rewrite wavevector_c_nonneg by lra.
    replace (- (2 * 1 * m_e * (0 - hbar * hbar / (8 * m_e))))
      with (hbar * hbar / 4) by (field; lra).
    replace (2 * (4 / 5) * m_e * (0 - 0)) with 0 by ring.
    rewrite sqrt_hbar2_4, sqrt_0.
    replace (hbar / 2 / hbar * (3 * (PI / 4))) with (3 * (PI / 8)) by (field; lra).
    replace (0 / hbar * (PI / 3)) with 0 by (field; lra).
    apply residual_c_real;
      [apply tanxdivx_demo_imaginary | apply tanxdivx_RtoC_0].
  - rewrite !wavevector_c_nonneg.
    + replace (2 * 1 * m_e * (5 * (hbar * hbar / (8 * m_e)) - hbar * hbar / (8 * m_e)))
        with (hbar * hbar) by (field; lra).
      replace (2 * (4 / 5) * m_e * (5 * (hbar * hbar / (8 * m_e)) - 0))
        with (hbar * hbar) by (field; lra).
      rewrite sqrt_hbar2.
      replace (hbar / hbar * (3 * (PI / 4))) with (3 * (PI / 4)) by (field; lra).
      replace (hbar / hbar * (PI / 3)) with (PI / 3) by (field; lra).
      apply residual_c_real; [apply tanxdivx_demo_complex | apply tanxdivx_thin].
    + replace (2 * (4 / 5) * m_e * (5 * (hbar * hbar / (8 * m_e)) - 0))
        with (hbar * hbar) by (field; lra). nra.
    + replace (2 * 1 * m_e * (5 * (hbar * hbar / (8 * m_e)) - hbar * hbar / (8 * m_e)))
        with (hbar * hbar) by (field; lra). nra.
Qed.

Lemma y0_thin_bound : y0_thin < - (49 / 20).
Proof.
  unfold y0_thin, residual_value. pose proof T0_pos as HT. pose proof PI_gt_3.
  assert (H1 : 0 < 1 / T0) by (apply Rdiv_lt_0_compat; lra).
  replace (1 / 1 * (3 * (PI / 4)) / (PI / 3)) with (9 / 4) by (field; lra).
  lra.
Qed.

Lemma y1_thin_value : y1_thin = - (1 / 5) + 3 * PI / 5 - 3 * PI / (4 * sqrt 3).
Proof.
  unfold y1_thin, residual_value. rewrite T1_value, T3_value.
  pose proof PI_gt_3. pose proof sqrt3_bounds. field. repeat split; lra.
Qed.

Lemma y1_thin_bounds : 0 < y1_thin < 11 / 5.
Proof.
  rewrite y1_thin_value. pose proof PI_gt_3 as Hp. pose proof PI_4 as Hp4.
  pose proof sqrt3_bounds as [Hs1 Hs2].
  assert (Hq : 3 * PI / (4 * sqrt 3) * (4 * sqrt 3) = 3 * PI) by (field; lra).
  set (t := 3 * PI / (4 * sqrt 3)) in *.
  assert (Ht : 0 < t) by (unfold t; apply Rdiv_lt_0_compat; lra).
  split; nra.
Qed.

Lemma flag_thin : e_h particle_thin = true \/ h_e particle_thin = true.
Proof. right. exact h_e_thin. Qed.

Lemma mass_thin : Material.m_e (cmat particle_thin) <> 0.
Proof. cbn. lra. Qed.

Lemma at_scalar_thin :
  at_scalar (fun x => electron_eigenvalue_residual x particle_thin) 0 = Ok y0_thin
  /\ at_scalar (fun x => electron_eigenvalue_residual x particle_thin)
       (5 * ue particle_thin) = Ok y1_thin.
Proof.
  destruct residual_at_thin as [H0 H1].
  rewrite !at_scalar_electron by (first [exact flag_thin | exact mass_thin]).
  now rewrite H0, H1.
Qed.

Lemma scan_thin :
  scan_and_bracket (fun x => electron_eigenvalue_residual x particle_thin)
    0 (5 * ue particle_thin) 2 = Ok (0, 5 * ue particle_thin).
Proof.
  destruct residual_at_thin as [H0 H1].
  pose proof y0_thin_bound. pose proof y1_thin_bounds.
  rewrite scan_and_bracket_selects with (y := [y0_thin; y1_thin]) (i := O).
  - f_equal. f_equal; [apply sample_first | ].
    apply (sample_last 0 (5 * ue particle_thin) 2). lia.
  - rewrite linspace_two.
    rewrite electron_residual_elementwise
      by (first [exact flag_thin | exact mass_thin | discriminate]).
    cbn [map]. now rewrite H0, H1.
  - reflexivity.
  - rewrite first_neg2pos_cons. apply Rlt_dec_true. unfold np_sign.
    rewrite (Rlt_dec_false y1_thin 0), (Rlt_dec_true 0 y1_thin) by lra.
    rewrite (Rlt_dec_true y0_thin 0) by lra. lra.
Qed.

Lemma root_thin_narrow : 0 < root_thin < xtol.
Proof.
  unfold root_thin. replace (ue particle_thin) with (hbar * hbar / (8 * m_e))
    by (symmetry; exact ue_demo).
  unfold xtol, hbar, m_e. split; lra.
Qed.

(** The bracket is narrower than [xtol]: [brentq] returns in its first
    pass, whatever the later passes would do. *)
Lemma brentq_thin (rest : (R -> result R) -> R -> R -> result R) :
  brentq (brentq_first_pass rest)
    (at_scalar (fun x => electron_eigenvalue_residual x particle_thin))
    0 (5 * ue particle_thin) = Ok root_thin.
Proof.
  destruct at_scalar_thin as [H0 H1].
  pose proof y0_thin_bound as Hy0. pose proof y1_thin_bounds as Hy1.
  pose proof root_thin_narrow as Hr. unfold root_thin in Hr.
  unfold brentq. rewrite H0, H1. cbn [rbind].
  rewrite !Req_dec_false by lra.
  rewrite Rlt_dec_false by nra.
  unfold brentq_first_pass. rewrite H0, H1. cbn [rbind].
  rewrite (Rlt_dec_false (Rabs y0_thin) (Rabs y1_thin)).
  2:{ rewrite (Rabs_left y0_thin), (Rabs_pos_eq y1_thin) by lra. lra. }
  rewrite Rlt_dec_true; [reflexivity | ].
  replace ((0 - 5 * ue particle_thin) / 2) with (- (5 * ue particle_thin / 2))
    by field.
  rewrite Rabs_Ropp, !Rabs_pos_eq by lra.
  unfold rtol. unfold xtol in *. lra.
Qed.

Lemma query_thin (rest : (R -> result R) -> R -> R -> result R)
    (as_ev : bool) (n : nat) :
  calculate_s1_energies (brentq_first_pass rest) None 2 as_ev
    (mkHeap particle_thin n) =
  (Ok (Some (in_unit as_ev root_thin), Some (in_unit as_ev root_thin)),
   mkHeap (with_energies_valid true
             (with_s1_h (Some root_thin) (with_s1_e (Some root_thin) particle_thin)))
          (S (S n))).
Proof.
  assert (Huh : uh particle_thin = ue particle_thin)
    by (transitivity (hbar * hbar / (8 * m_e));
        [exact uh_demo | symmetry; exact ue_demo]).
  apply calculate_s1_energies_success
    with (bracket_e := (0, 5 * ue particle_thin))
         (bracket_h := (0, 5 * uh particle_thin)).
  - reflexivity.
  - apply scan_thin.
  - apply brentq_thin.
  - rewrite Huh. apply scan_thin.
  - rewrite Huh. apply brentq_thin.
Qed.

Lemma cached_energies_lose_unit_witness :
  calculate_s1_energies (brentq_first_pass bisect) None 2 true
    (mkHeap particle_thin 0)
  = (Ok (Some (root_thin / e), Some (root_thin / e)), heap_thin)
  /\ calculate_s1_energies (brentq_first_pass bisect) None 2 true heap_thin
     = (Ok (Some root_thin, Some root_thin), heap_thin)
  /\ Some root_thin <> Some (root_thin / e).
Proof.
  split; [exact (query_thin bisect true 0) | ].
  destruct (cached_energies_lose_unit (brentq_first_pass bisect) None 2
              particle_thin 0 _ _ eq_refl (query_thin bisect true 0))
    as (joule_e & joule_h & Hfirst & Hsecond & _ & Hdiffer).
  assert (Hinv : forall u v : R, u / e = v / e -> u = v).
  { intros u v H. apply (Rmult_eq_reg_r (/ e)); [exact H | ].
    apply Rinv_neq_0_compat, Rgt_not_eq, e_pos. }
  injection Hfirst as He Hh. apply Hinv in He, Hh. subst joule_e joule_h.
  split; [exact Hsecond | ].
  apply Hdiffer. apply Rgt_not_eq. apply root_thin_narrow.
Defined.
